(** * Capacity-constrained vertex colouring as a 0/1 integer program

    A shallow embedding of [coloring/coloring.py]: the builder
    [_colouring_lpproblem], which turns a graph into a PuLP problem, and
    the entry point [coloring], which prepares the vertex attributes,
    calls the builder and the solver and writes the colours back.

    Conventions of the embedding.
    - Python floats are rationals ([Q]); the [%f] conversion, which keeps
      six decimals, is written out ([format_f]).
    - Python exceptions are the [Raise] case of [result]; a function that
      changes the graph and may raise returns both the result and the
      graph it leaves.
    - A text handed to [eval] is kept as the list of its summands, in the
      order the source appends them; [eval] of a text without summand is
      a [SyntaxError].
    - An igraph graph is its list of vertices (the vertex id is the
      position), its edge list, and which of the three vertex attributes
      exist. The three attribute labels are taken distinct, as the
      defaults are.
    - A PuLP variable carries the name PuLP gives it, a string; a PuLP
      affine expression is the list of its terms. PuLP keeps one
      coefficient per variable and drops the terms with coefficient zero,
      which denotes the same linear function ([value]).
    - The solver belongs to PuLP and is a parameter: it answers a status
      and a value for each variable of the problem. For an objective
      without variable PuLP adds the variable [__dummy] before it calls
      the solver, lists it with the others afterwards and gives it no
      value: its [varValue] stays [None] ([varValue]).
    - [LpProblem.variables] is a parameter too, known by what it returns
      ([lists]): the variables of the problem, and [__dummy] as said,
      sorted by name. *)

From Stdlib Require Import Ascii String.
From Stdlib Require Import List ZArith QArith Qround Qreduction Bool Arith Lia Lqa.
From Stdlib Require Import Sorted.
From Stdlib Require Qcanon DecimalString DecimalNat.
Import ListNotations.

(* ------------------------------------------------------------------ *)
(** ** The Python side: exceptions, loops, [range], [%f] *)

Module Py.

Inductive exn : Type :=
  SyntaxError | KeyError | IndexError | ValueError | TypeError.

Inductive result (A : Type) : Type :=
| Ok (a : A)
| Raise (e : exn).

Arguments Ok {A} a.
Arguments Raise {A} e.

Definition bind {A B : Type} (m : result A) (k : A -> result B) : result B :=
  match m with
  | Ok a => k a
  | Raise e => Raise e
  end.

(** A [for] loop whose body may raise, collecting what each round yields. *)
Fixpoint for_each {A B : Type} (body : A -> result B) (l : list A)
  : result (list B) :=
  match l with
  | [] => Ok []
  | a :: l' =>
      bind (body a) (fun b =>
      bind (for_each body l') (fun bs => Ok (b :: bs)))
  end.

(** [[x for x in l if test(x)]] where the test may raise. *)
Fixpoint comprehension_if {A : Type} (test : A -> result bool) (l : list A)
  : result (list A) :=
  match l with
  | [] => Ok []
  | a :: l' =>
      bind (test a) (fun keep =>
      bind (comprehension_if test l') (fun rest =>
      Ok (if keep then a :: rest else rest)))
  end.

Definition range (n : nat) : list nat := seq 0 n.

(** [sum(l)] over integers and over floats: from 0, left to right. *)
Definition sum (l : list nat) : Z :=
  fold_left (fun acc c => (acc + Z.of_nat c)%Z) l 0%Z.

Definition fsum (l : list Q) : Q := fold_left Qplus l 0%Q.

(** [i in l] for a list of integers. *)
Definition contains (i : nat) (l : list nat) : bool := existsb (Nat.eqb i) l.

(** Rounding to the nearest integer, ties to the even one. *)
Definition round_half_even (q : Q) : Z :=
  let f := Qfloor q in
  match Qcompare (q - inject_Z f) (1 # 2) with
  | Lt => f
  | Gt => (f + 1)%Z
  | Eq => if Z.even f then f else (f + 1)%Z
  end.

(** ["%f" % q], read back as a number: [q] to six decimals. *)
Definition format_f (q : Q) : Q :=
  Qred (round_half_even (q * 1000000) # 1000000).

(** [not wmax] for an optional number: [None] and zero are false. *)
Definition falsy (w : option Q) : bool :=
  match w with
  | None => true
  | Some q => Qeq_bool q 0
  end.

(** *** Strings *)

(** [str(n)] for a natural number: its decimal digits. *)
Definition str_nat (n : nat) : string :=
  DecimalString.NilEmpty.string_of_uint (Nat.to_uint n).

(** [str(z)] for an integer. *)
Definition str (z : Z) : string :=
  match z with
  | Z.neg p => String "-" (str_nat (Pos.to_nat p))
  | _ => str_nat (Z.to_nat z)
  end.

(** [str((i, c))] for a pair of integers, as in ["(0, 1)"]. *)
Definition str_pair (k : nat * Z) : string :=
  ("(" ++ str (Z.of_nat (fst k)) ++ ", " ++ str (snd k) ++ ")")%string.

(** [int(s)] for a text made of decimal digits; any other text is a
    [ValueError] here (signs, blanks and underscores, which Python
    accepts, occur in no name that is read). *)
Definition int (s : string) : result Z :=
  match DecimalString.NilZero.uint_of_string s with
  | Some d => Ok (Z.of_nat (Nat.of_uint d))
  | None => Raise ValueError
  end.

(** [s.find(sub)]: the first position of [sub], -1 without one. *)
Definition find (s sub : string) : Z :=
  match index 0 sub s with
  | Some n => Z.of_nat n
  | None => (-1)%Z
  end.

Fixpoint drop (n : nat) (s : string) : string :=
  match n, s with
  | O, _ => s
  | S n', EmptyString => EmptyString
  | S n', String _ s' => drop n' s'
  end.

Fixpoint drop_last (s : string) : string :=
  match s with
  | EmptyString => EmptyString
  | String c EmptyString => EmptyString
  | String c s' => String c (drop_last s')
  end.

(** [s[a:-1]] for [a >= 0]. *)
Definition slice_to_last (a : Z) (s : string) : string :=
  drop_last (drop (Z.to_nat a) s).

(** [s.split(sep)] for a separator [sep] of the two characters [a], [b];
    [cur] is the piece being read. *)
Fixpoint split_from (a b : ascii) (cur : string) (s : string) : list string :=
  match s with
  | EmptyString => [cur]
  | String x s' =>
      match s' with
      | String y s'' =>
          if Ascii.eqb x a && Ascii.eqb y b
          then cur :: split_from a b EmptyString s''
          else split_from a b (cur ++ String x EmptyString)%string s'
      | EmptyString => [(cur ++ String x EmptyString)%string]
      end
  end.

Definition split (a b : ascii) (s : string) : list string :=
  split_from a b EmptyString s.

(** [l[n]]. *)
Definition item {A : Type} (l : list A) (n : nat) : result A :=
  match nth_error l n with
  | Some x => Ok x
  | None => Raise IndexError
  end.

End Py.

Import Py.

Declare Scope py_scope.
Delimit Scope py_scope with py.
Notation "x <- m ;; k" := (bind m (fun x => k))
  (at level 61, m at next level, right associativity) : py_scope.
Open Scope py_scope.

(* ------------------------------------------------------------------ *)
(** ** The PuLP side: variables, expressions, constraints, problems *)

Module Pulp.

(** The characters PuLP does not keep in a name, ["-+[] ->/"], each
    replaced by an underscore. *)
Definition illegal (c : ascii) : bool :=
  existsb (Ascii.eqb c) ["-"; "+"; "["; "]"; " "; "-"; ">"; "/"]%char.

Fixpoint translate (s : string) : string :=
  match s with
  | EmptyString => EmptyString
  | String c s' => String (if illegal c then "_"%char else c) (translate s')
  end.

(** The name [LpVariable.dicts(name, indexs, ...)] gives the variable of
    key [k]: [name], an underscore and [str(k)], translated. *)
Definition dicts_name (name : string) (k : string) : string :=
  translate (name ++ "_" ++ k)%string.

(** The names of the two families of variables: ['Colour variable x(c)']
    with key [c], and ['Node Colour variable x(i,c)'] with key [(i, c)]. *)
Definition VarName : Type := string.

Definition Colour_variable_x (c : Z) : VarName :=
  dicts_name "Colour variable x(c)" (str c).

Definition Node_Colour_variable_x (i : nat) (c : Z) : VarName :=
  dicts_name "Node Colour variable x(i,c)" (str_pair (i, c)).

Inductive LpCategory : Type := LpContinuous | LpInteger.

Record LpVariable : Type := {
  name : VarName;
  lowBound : Q;
  upBound : Q;
  cat : LpCategory
}.

Definition LpAffineExpression : Type := list (Q * LpVariable).

Inductive LpConstraintSense : Type :=
| LpConstraintLE | LpConstraintEQ | LpConstraintGE.

Record LpConstraint : Type := {
  lhs : LpAffineExpression;
  sense : LpConstraintSense;
  rhs : Q
}.

Inductive LpSense : Type := LpMinimize | LpMaximize.

Record LpProblem : Type := {
  direction : LpSense;
  objective : LpAffineExpression;
  constraints : list LpConstraint
}.

(** [LpVariable.dicts(name, indexs, lowBound, upBound, cat)], the keys
    printed by [str_key]. *)
Definition LpVariable_dicts {K : Type} (name : string) (str_key : K -> string)
    (indexs : list K) (lo up : Q) (c : LpCategory) : list (K * LpVariable) :=
  map (fun k => (k, {| Pulp.name := dicts_name name (str_key k);
                       lowBound := lo; upBound := up; cat := c |})) indexs.

(** [d[k]]: the first entry with key [k], a [KeyError] without one. *)
Fixpoint getitem {K V : Type} (eqb : K -> K -> bool) (d : list (K * V))
    (k : K) : result V :=
  match d with
  | [] => Raise KeyError
  | (k', v) :: d' => if eqb k' k then Ok v else getitem eqb d' k
  end.

Definition key_eqb (a b : nat * Z) : bool :=
  Nat.eqb (fst a) (fst b) && Z.eqb (snd a) (snd b).

(** The variables of an expression: a product by zero leaves no term,
    so only those with a coefficient other than zero. *)
Definition variables_of (e : LpAffineExpression) : list LpVariable :=
  map snd (filter (fun t => negb (Qeq_bool (fst t) 0)) e).

(** The variables occurring in a problem, objective first. *)
Definition occurring (p : LpProblem) : list LpVariable :=
  variables_of (objective p)
  ++ flat_map (fun c => variables_of (lhs c)) (constraints p).

(** *** Meaning: valuations and feasibility *)

Definition value (val : VarName -> Q) (e : LpAffineExpression) : Q :=
  fold_right (fun t acc => fst t * val (name (snd t)) + acc) 0 e.

Definition satisfies (val : VarName -> Q) (c : LpConstraint) : bool :=
  match sense c with
  | LpConstraintLE => Qle_bool (value val (lhs c)) (rhs c)
  | LpConstraintEQ => Qeq_bool (value val (lhs c)) (rhs c)
  | LpConstraintGE => Qle_bool (rhs c) (value val (lhs c))
  end.

Definition integral (q : Q) : bool :=
  (Qnum q mod Z.pos (Qden q) =? 0)%Z.

Definition in_domain (val : VarName -> Q) (v : LpVariable) : bool :=
  Qle_bool (lowBound v) (val (name v)) &&
  Qle_bool (val (name v)) (upBound v) &&
  match cat v with
  | LpInteger => integral (val (name v))
  | LpContinuous => true
  end.

Definition feasible (p : LpProblem) (val : VarName -> Q) : bool :=
  forallb (in_domain val) (occurring p) &&
  forallb (satisfies val) (constraints p).

(** *** After [LpProblem.solve]: [varValue] and [LpProblem.variables] *)

(** The variable PuLP adds to an objective without variable before it
    hands the problem to the solver ([LpProblem.fixObjective]). *)
Definition dummy : LpVariable :=
  {| name := "__dummy"%string; lowBound := 0; upBound := 0; cat := LpContinuous |}.

(** [LpAffineExpression.isNumericalConstant]: no variable is left. *)
Definition constant (e : LpAffineExpression) : bool :=
  match variables_of e with
  | [] => true
  | _ :: _ => false
  end.

(** [var.varValue] once the solver has answered [values]:
    [LpProblem.assignVarsVals] gives every variable its value but
    [__dummy], which keeps [None]. *)
Definition varValue (values : VarName -> Q) (var : LpVariable) : option Q :=
  if (name var =? "__dummy")%string then None
  else Some (values (name var)).

(** The order of the names. *)
Definition by_name (a b : LpVariable) : Prop :=
  String.leb (name a) (name b) = true.

(** [l] is what [p.variables()] returns after [p.solve()]: the variables
    of the objective and of the constraints and, when the objective is
    constant, [__dummy], sorted by name. *)
Definition lists (p : LpProblem) (l : list LpVariable) : Prop :=
  Sorted by_name l
  /\ forall v, In v l
               <-> In v (occurring p)
                   \/ (constant (objective p) = true /\ v = dummy).

(** Sorting by name, by insertion. *)
Fixpoint insert_by_name (v : LpVariable) (l : list LpVariable)
  : list LpVariable :=
  match l with
  | [] => [v]
  | u :: l' =>
      if String.leb (name v) (name u) then v :: l
      else u :: insert_by_name v l'
  end.

Definition sort_by_name (l : list LpVariable) : list LpVariable :=
  fold_right insert_by_name [] l.

Definition LpVariable_eq_dec (a b : LpVariable) : {a = b} + {a <> b}.
Proof.
  decide equality;
    solve [ apply string_dec
          | decide equality; solve [apply Z.eq_dec | apply Pos.eq_dec] ].
Defined.

(** The list [p.variables()] returns: each variable once. *)
Definition listing (p : LpProblem) : list LpVariable :=
  sort_by_name
    (nodup LpVariable_eq_dec
       (occurring p ++ if constant (objective p) then [dummy] else [])).

End Pulp.

Import Pulp.

(* ------------------------------------------------------------------ *)
(** ** The igraph side: vertices with three attributes *)

Module Igraph.

Record Vertex : Type := {
  colour : option Z;
  relevant : bool;
  weight : Q
}.

(** [has_colour], [has_relevant] and [has_weight] say whether the
    attribute exists on the graph; the field of a vertex is read only
    when it does. *)
Record Graph : Type := {
  vs : list Vertex;
  es : list (nat * nat);
  has_colour : bool;
  has_relevant : bool;
  has_weight : bool
}.

Definition source (e : nat * nat) : nat := fst e.
Definition target (e : nat * nat) : nat := snd e.

(** [graph.vs[i]]. *)
Definition vertex (g : Graph) (i : nat) : result Vertex :=
  match nth_error (vs g) i with
  | Some v => Ok v
  | None => Raise IndexError
  end.

(** [v[label]] for each of the three labels. *)
Definition get_colour (g : Graph) (v : Vertex) : result (option Z) :=
  if has_colour g then Ok (colour v) else Raise KeyError.

Definition get_relevant (g : Graph) (v : Vertex) : result bool :=
  if has_relevant g then Ok (relevant v) else Raise KeyError.

Definition get_weight (g : Graph) (v : Vertex) : result Q :=
  if has_weight g then Ok (weight v) else Raise KeyError.

(** [graph.vs[label]]: the attribute of all vertices. *)
Definition vs_colour (g : Graph) : result (list (option Z)) :=
  if has_colour g then Ok (map colour (vs g)) else Raise KeyError.

Definition vs_relevant (g : Graph) : result (list bool) :=
  if has_relevant g then Ok (map relevant (vs g)) else Raise KeyError.

Definition vs_weight (g : Graph) : result (list Q) :=
  if has_weight g then Ok (map weight (vs g)) else Raise KeyError.

(** [graph.vs[label] = [x] * len(graph.vs)]: one value for all. *)
Definition set_all_colour (x : option Z) (g : Graph) : Graph :=
  {| vs := map (fun v => {| colour := x; relevant := relevant v;
                            weight := weight v |}) (vs g);
     es := es g; has_colour := true;
     has_relevant := has_relevant g; has_weight := has_weight g |}.

Definition set_all_relevant (x : bool) (g : Graph) : Graph :=
  {| vs := map (fun v => {| colour := colour v; relevant := x;
                            weight := weight v |}) (vs g);
     es := es g; has_colour := has_colour g;
     has_relevant := true; has_weight := has_weight g |}.

Definition set_all_weight (x : Q) (g : Graph) : Graph :=
  {| vs := map (fun v => {| colour := colour v; relevant := relevant v;
                            weight := x |}) (vs g);
     es := es g; has_colour := has_colour g;
     has_relevant := has_relevant g; has_weight := true |}.

Fixpoint update {A : Type} (l : list A) (i : nat) (f : A -> A)
  : option (list A) :=
  match l, i with
  | [], _ => None
  | a :: l', O => Some (f a :: l')
  | a :: l', S i' =>
      match update l' i' f with
      | Some r => Some (a :: r)
      | None => None
      end
  end.

(** [graph.vs[i][color_lbl] = c]; a label that does not exist yet is
    created, unset on the other vertices. *)
Definition set_colour (g : Graph) (i : nat) (c : Z) : result Graph :=
  let g := if has_colour g then g else set_all_colour None g in
  match update (vs g) i
          (fun v => {| colour := Some c; relevant := relevant v;
                       weight := weight v |}) with
  | Some l =>
      Ok {| vs := l; es := es g; has_colour := true;
            has_relevant := has_relevant g; has_weight := has_weight g |}
  | None => Raise IndexError
  end.

(** What a caller reads as the colour of vertex [i]: unset when the
    attribute does not exist or holds [None]. *)
Definition colour_of (g : Graph) (i : nat) : option Z :=
  if has_colour g then
    match nth_error (vs g) i with
    | Some v => colour v
    | None => None
    end
  else None.

End Igraph.

Import Igraph.

(* ------------------------------------------------------------------ *)
(** ** The texts handed to [eval] *)

Module Text.

(** ["xc[%d]"] and ["xic[(%d,%d)]"]. *)
Inductive subscript : Type :=
| xc_at (c : Z)
| xic_at (i : nat) (c : Z).

(** [" + %f * xc[%d]"], [" + %f * xic[(%d,%d)]"] (a factor and a
    subscript) and [" + xic[(%d,%d)]"] (a subscript alone). *)
Record summand : Type := {
  factor : option Q;
  operand : subscript
}.

Definition times (a : Q) (s : subscript) : summand :=
  {| factor := Some a; operand := s |}.

Definition alone (s : subscript) : summand :=
  {| factor := None; operand := s |}.

(** The two dictionaries the texts refer to. *)
Record scope : Type := {
  xc : list (Z * LpVariable);
  xic : list ((nat * Z) * LpVariable)
}.

Definition lookup (env : scope) (s : subscript) : result LpVariable :=
  match s with
  | xc_at c => getitem Z.eqb (xc env) c
  | xic_at i c => getitem key_eqb (xic env) (i, c)
  end.

Definition term (env : scope) (s : summand) : result (Q * LpVariable) :=
  v <- lookup env (operand s) ;;
  Ok (match factor s with Some a => a | None => 1 end, v).

(** [eval(text)] for a text made of summands: nothing to parse when
    there is none, otherwise the subscripts are looked up from left to
    right. *)
Definition eval (env : scope) (text : list summand)
  : result LpAffineExpression :=
  match text with
  | [] => Raise SyntaxError
  | _ => for_each (term env) text
  end.

(** [eval(text)] for a text that ends with a comparison, [" == 1"] or
    [" <= %f"]: the constraint between the sum and the bound. *)
Definition eval_comparison (env : scope) (text : list summand)
    (op : LpConstraintSense) (bound : Q) : result LpConstraint :=
  e <- eval env text ;;
  Ok {| lhs := e; sense := op; rhs := bound |}.

End Text.

Import Text.

(* ------------------------------------------------------------------ *)
(** ** [coloring.py] *)

Definition le_constraint (e : LpAffineExpression) (b : Q) : LpConstraint :=
  {| lhs := e; sense := LpConstraintLE; rhs := b |}.

Definition eq_constraint (e : LpAffineExpression) (b : Q) : LpConstraint :=
  {| lhs := e; sense := LpConstraintEQ; rhs := b |}.

Definition ge_constraint (e : LpAffineExpression) (b : Q) : LpConstraint :=
  {| lhs := e; sense := LpConstraintGE; rhs := b |}.

(** [enumerate(l)]. *)
Definition enumerate {A : Type} (l : list A) : list (nat * A) :=
  combine (range (length l)) l.

Definition _colouring_lpproblem (graph : Graph) (wmax : Q)
  : result LpProblem :=
  let n := length (vs graph) in
  relevants <-
    comprehension_if
      (fun i => v <- vertex graph i ;; get_relevant graph v) (range n) ;;
  let big_number := (Z.of_nat (length relevants) * sum (range n) * 2)%Z in
  (* Variables: xc one iff color c is used, 0 otherwise. *)
  let xc_combs := map Z.of_nat (range n) in
  let xc :=
    LpVariable_dicts "Colour variable x(c)" str xc_combs 0 1 LpInteger in
  (* Variable: xic one iff vertex i uses color c, 0 otherwise. *)
  let xic_combs :=
    flat_map (fun i => map (fun c => (i, Z.of_nat c)) (range n)) relevants in
  let xic :=
    LpVariable_dicts "Node Colour variable x(i,c)" str_pair
      xic_combs 0 1 LpInteger in
  let env := {| Text.xc := xc; Text.xic := xic |} in
  (* Objective: Minimize sum of all colours *)
  let obj :=
    map (fun c => times (format_f (inject_Z big_number)) (xc_at (Z.of_nat c)))
        (range n)
    ++ flat_map
         (fun i =>
            map (fun c => times (format_f (inject_Z (Z.of_nat c)))
                            (xic_at i (Z.of_nat c)))
                (range n))
         relevants in
  objective <- eval env obj ;;
  (* Constraint: At least one color per vertex and at most one color
                 per vertex *)
  one_colour <-
    for_each
      (fun i =>
         eval_comparison env
           (map (fun c => alone (xic_at i (Z.of_nat c))) (range n))
           LpConstraintEQ 1)
      relevants ;;
  (* Constraint: Two adjacent vertices can't have the same color *)
  adjacent <-
    for_each
      (fun e =>
         if contains (source e) relevants && contains (target e) relevants
         then
           for_each
             (fun c =>
                a <- getitem key_eqb xic (source e, Z.of_nat c) ;;
                b <- getitem key_eqb xic (target e, Z.of_nat c) ;;
                Ok (le_constraint [(1, a); (1, b)] 1))
             (range n)
         else Ok [])
      (es graph) ;;
  (* Constraint: Maximum number of tasks per color *)
  capacity <-
    for_each
      (fun c =>
         constr <-
           for_each
             (fun i =>
                v <- vertex graph i ;;
                w <- get_weight graph v ;;
                Ok (times (format_f w) (xic_at i (Z.of_nat c))))
             relevants ;;
         eval_comparison env constr LpConstraintLE (format_f wmax))
      (range n) ;;
  (* Constraint: One color is used iff at least one vertex uses it *)
  linking <-
    for_each
      (fun i =>
         for_each
           (fun c =>
              a <- getitem Z.eqb xc (Z.of_nat c) ;;
              b <- getitem key_eqb xic (i, Z.of_nat c) ;;
              Ok (ge_constraint [(1, a); (- (1), b)] 0))
           (range n))
      relevants ;;
  (* Constraint: Pre-existing colors persistence *)
  persistence <-
    for_each
      (fun iv =>
         k <- get_colour graph (snd iv) ;;
         match k with
         | Some k =>
             if contains (fst iv) relevants
             then
               x <- getitem key_eqb xic (fst iv, k) ;;
               Ok [eq_constraint [(1, x)] 1]
             else Ok []
         | None => Ok []
         end)
      (enumerate (vs graph)) ;;
  Ok {| direction := LpMinimize;
        objective := objective;
        constraints := one_colour ++ concat adjacent ++ capacity
                       ++ concat linking ++ concat persistence |}.

(** Lines 56 to 59: the two integers read off the name of a variable,
    between the first ["_("] and the last character, around [",_"]. *)
Definition read_name (s : string) : result (Z * Z) :=
  let s := slice_to_last (find s "_(" + 2) s in
  let s := split "," "_" s in
  s <- for_each int s ;;
  i <- item s 0 ;;
  c <- item s 1 ;;
  Ok (i, c).

(** [var.name[:4] == "Node"]. *)
Definition is_node (s : string) : bool :=
  (substring 0 4 s =? "Node")%string.

(** The loop over [p.variables()] of [coloring]: the graph it reaches, and
    whether a step raised on the way. [var.varValue > epsilon] is
    evaluated first, and raises [TypeError] on a variable without value. *)
Fixpoint write_colours (epsilon : Q) (val : VarName -> Q)
    (vars : list LpVariable) (graph : Graph) : result unit * Graph :=
  match vars with
  | [] => (Ok tt, graph)
  | var :: vars' =>
      match varValue val var with
      | None => (Raise TypeError, graph)
      | Some x =>
          if negb (Qle_bool x epsilon) && is_node (name var) then
            match read_name (name var) with
            | Ok (i, c) =>
                match set_colour graph (Z.to_nat i) c with
                | Ok graph' => write_colours epsilon val vars' graph'
                | Raise e => (Raise e, graph)
                end
            | Raise e => (Raise e, graph)
            end
          else write_colours epsilon val vars' graph
      end
  end.

(** Lines 28 to 41: an attribute that does not exist ([KeyError]) is
    created with its default, for the colour, the relevance and the
    weight in turn. *)
Definition default_colour (graph : Graph) : Graph :=
  match vs_colour graph with
  | Ok _ => graph
  | Raise _ => set_all_colour None graph
  end.

Definition default_relevant (graph : Graph) : Graph :=
  match vs_relevant graph with
  | Ok _ => graph
  | Raise _ => set_all_relevant true graph
  end.

Definition default_weight (graph : Graph) : Graph :=
  match vs_weight graph with
  | Ok _ => graph
  | Raise _ => set_all_weight 1 graph
  end.

Definition default_attributes (graph : Graph) : Graph :=
  default_weight (default_relevant (default_colour graph)).

(** Lines 43 and 44: [if not wmax: wmax = sum(graph.vs[weights])]. *)
Definition default_wmax (graph : Graph) (wmax : option Q) : result Q :=
  if falsy wmax then w <- vs_weight graph ;; Ok (fsum w)
  else Ok (match wmax with Some w => w | None => 0 end).

(** Lines 46 and 47: [if not preserve: graph.vs[color_lbl] = [None] * ...]. *)
Definition clear_unless (preserve : bool) (graph : Graph) : Graph :=
  if negb preserve then set_all_colour None graph else graph.

(** The bound lines 43 and 44 leave in [wmax] once the weights exist. *)
Definition capacity_bound (graph : Graph) (wmax : option Q) : Q :=
  if falsy wmax then fsum (map weight (vs graph))
  else match wmax with Some w => w | None => 0 end.

Section Orchestrator.

(** [p.solve()]: the status and the value the solver gives each variable
    ([varValue] has what [var.varValue] holds thereafter). *)
Variable solve : LpProblem -> Z * (VarName -> Q).

(** [p.variables()], after [p.solve()]. *)
Variable variables : LpProblem -> list LpVariable.

(** The value returned, or the exception raised, and the graph the call
    leaves behind. *)
Definition coloring (graph : Graph) (wmax : option Q) (preserve : bool)
  : result Z * Graph :=
  let epsilon := 1 # 2 in
  let graph := default_attributes graph in
  match default_wmax graph wmax with
  | Raise e => (Raise e, graph)
  | Ok wmax =>
      let graph := clear_unless preserve graph in
      match _colouring_lpproblem graph wmax with
      | Raise e => (Raise e, graph)
      | Ok p =>
          let (status, val) := solve p in
          if negb (status =? 1)%Z then (Ok 0%Z, graph)
          else
            match write_colours epsilon val (variables p) graph with
            | (Ok _, graph) => (Ok 1%Z, graph)
            | (Raise e, graph) => (Raise e, graph)
            end
      end
  end.

End Orchestrator.

(* ------------------------------------------------------------------ *)
(** ** The built problem in closed form

    What the builder returns, written with list operations only; the
    builder is proved equal to it below ([build_outcome]). *)

(** The vertex and the colour a name of the second family stands for. *)
Definition node_of (x : VarName) : option (nat * Z) :=
  if is_node x then
    match read_name x with
    | Ok (i, c) => Some (Z.to_nat i, c)
    | Raise _ => None
    end
  else None.

Definition binary (x : VarName) : LpVariable :=
  {| name := x; lowBound := 0; upBound := 1; cat := LpInteger |}.

(** [colorUsed[c]] and [assign[i,c]] of the formulation. *)
Definition colorUsed (c : nat) : LpVariable :=
  binary (Colour_variable_x (Z.of_nat c)).

Definition assign (i c : nat) : LpVariable :=
  binary (Node_Colour_variable_x i (Z.of_nat c)).

Definition order (g : Graph) : nat := length (vs g).

Definition relevant_at (g : Graph) (i : nat) : bool :=
  match nth_error (vs g) i with
  | Some v => relevant v
  | None => false
  end.

Definition weight_at (g : Graph) (i : nat) : Q :=
  match nth_error (vs g) i with
  | Some v => weight v
  | None => 0
  end.

Definition colour_at (g : Graph) (i : nat) : option Z :=
  match nth_error (vs g) i with
  | Some v => colour v
  | None => None
  end.

(** The relevant vertices [R], in increasing order. *)
Definition relevants (g : Graph) : list nat :=
  filter (relevant_at g) (range (order g)).

Definition BIG (g : Graph) : Z :=
  (Z.of_nat (length (relevants g)) * sum (range (order g)) * 2)%Z.

Definition colour_count_term (g : Graph) : LpAffineExpression :=
  map (fun c => (inject_Z (BIG g), colorUsed c)) (range (order g)).

Definition low_colour_term (g : Graph) : LpAffineExpression :=
  flat_map
    (fun i => map (fun c => (inject_Z (Z.of_nat c), assign i c))
                  (range (order g)))
    (relevants g).

Definition exactly_one (g : Graph) (i : nat) : LpConstraint :=
  eq_constraint (map (fun c => (1, assign i c)) (range (order g))) 1.

Definition adjacency (u v c : nat) : LpConstraint :=
  le_constraint [(1, assign u c); (1, assign v c)] 1.

Definition capacity (g : Graph) (wmax : Q) (c : nat) : LpConstraint :=
  le_constraint
    (map (fun i => (format_f (weight_at g i), assign i c)) (relevants g))
    (format_f wmax).

Definition linking (i c : nat) : LpConstraint :=
  ge_constraint [(1, colorUsed c); (- (1), assign i c)] 0.

Definition persistence (i : nat) (k : Z) : LpConstraint :=
  eq_constraint [(1, binary (Node_Colour_variable_x i k))] 1.

Definition persistence_at (g : Graph) (iv : nat * Vertex) : list LpConstraint :=
  match colour (snd iv) with
  | Some k => if contains (fst iv) (relevants g)
              then [persistence (fst iv) k] else []
  | None => []
  end.

Definition problem_of (g : Graph) (wmax : Q) : LpProblem :=
  {| direction := LpMinimize;
     objective := colour_count_term g ++ low_colour_term g;
     constraints :=
       map (exactly_one g) (relevants g)
       ++ flat_map
            (fun e =>
               if contains (source e) (relevants g)
                  && contains (target e) (relevants g)
               then map (adjacency (source e) (target e)) (range (order g))
               else [])
            (es g)
       ++ map (capacity g wmax) (range (order g))
       ++ flat_map (fun i => map (linking i) (range (order g))) (relevants g)
       ++ flat_map (persistence_at g) (enumerate (vs g)) |}.

(** The two dictionaries of the builder and the scope of its texts. *)
Definition xc_dict (g : Graph) : list (Z * LpVariable) :=
  LpVariable_dicts "Colour variable x(c)" str
    (map Z.of_nat (range (order g))) 0 1 LpInteger.

Definition xic_dict (g : Graph) : list ((nat * Z) * LpVariable) :=
  LpVariable_dicts "Node Colour variable x(i,c)" str_pair
    (flat_map (fun i => map (fun c => (i, Z.of_nat c)) (range (order g)))
              (relevants g))
    0 1 LpInteger.

Definition scope_of (g : Graph) : scope :=
  {| Text.xc := xc_dict g; Text.xic := xic_dict g |}.

(** The term a summand stands for once its subscript is found. *)
Definition resolve (s : summand) : Q * LpVariable :=
  (match factor s with Some a => a | None => 1 end,
   binary (match operand s with
           | xc_at c => Colour_variable_x c
           | xic_at i c => Node_Colour_variable_x i c
           end)).

(** A candidate colour: an integer of [range(len(graph.vs))]. *)
Definition candidate (g : Graph) (k : Z) : bool :=
  (0 <=? k)%Z && (k <? Z.of_nat (order g))%Z.

(** A subscript whose key is in its dictionary. *)
Definition in_scope (g : Graph) (s : subscript) : Prop :=
  match s with
  | xc_at k => candidate g k = true
  | xic_at i k => In i (relevants g) /\ candidate g k = true
  end.

(** Vertex [i] is not relevant, carries no colour, or carries a candidate
    colour. *)
Definition preset_ok (g : Graph) (iv : nat * Vertex) : bool :=
  match colour (snd iv) with
  | Some k => negb (contains (fst iv) (relevants g)) || candidate g k
  | None => true
  end.

(** What the builder does, by cases, in the order the source reaches
    them. *)
Definition outcome (g : Graph) (wmax : Q) : result LpProblem :=
  match vs g with
  | [] => Raise SyntaxError
  | _ :: _ =>
      if negb (has_relevant g) then Raise KeyError
      else match relevants g with
           | [] => Raise SyntaxError
           | _ :: _ =>
               if negb (has_weight g) then Raise KeyError
               else if negb (has_colour g) then Raise KeyError
               else if forallb (preset_ok g) (enumerate (vs g))
                    then Ok (problem_of g wmax)
                    else Raise KeyError
           end
  end.

(** The colour the loop over the variables leaves on vertex [j], from the
    colour [init] it starts with: the last write wins. *)
Definition final_colour (epsilon : Q) (val : VarName -> Q)
    (vars : list LpVariable) (j : nat) (init : option Z) : option Z :=
  fold_left
    (fun acc var =>
       match node_of (name var) with
       | Some (i, c) =>
           if (i =? j)%nat && negb (Qle_bool (val (name var)) epsilon)
           then Some c else acc
       | None => acc
       end)
    vars init.

(* ------------------------------------------------------------------ *)
(** ** Sample graphs, valuations and solver answers *)

Module Sample.

Definition node (c : option Z) (r : bool) (w : Q) : Vertex :=
  {| colour := c; relevant := r; weight := w |}.

(** A graph on which the three attributes exist. *)
Definition graph (l : list Vertex) (edges : list (nat * nat)) : Graph :=
  {| vs := l; es := edges; has_colour := true; has_relevant := true;
     has_weight := true |}.

(** One relevant vertex of weight 1. *)
Definition single : Graph := graph [node None true 1] [].

(** Two relevant vertices of weight 1 joined by an edge. *)
Definition edge : Graph :=
  graph [node None true 1; node None true 1] [(0%nat, 1%nat)].

(** The same, vertex 0 pre-set to colour 1. *)
Definition preset : Graph :=
  graph [node (Some 1%Z) true 1; node None true 1] [(0%nat, 1%nat)].

(** Two relevant vertices of weight 1/3 and no edge. *)
Definition thirds : Graph :=
  graph [node None true (1 # 3); node None true (1 # 3)] [].

(** A relevant vertex and a vertex that is not, coloured 5. *)
Definition bystander : Graph :=
  graph [node None true 1; node (Some 5%Z) false 1] [].

(** One relevant vertex pre-set to colour 5, which is no candidate. *)
Definition stray : Graph := graph [node (Some 5%Z) true 1] [].

(** One vertex, not relevant. *)
Definition idle : Graph := graph [node None false 1] [].

(** Every vertex on colour 0, the only colour in use. *)
Definition lowest (x : VarName) : Q :=
  match node_of x with
  | Some (_, c) => if (c =? 0)%Z then 1 else 0
  | None => if (x =? Colour_variable_x 0)%string then 1 else 0
  end.

(** Vertex [i] on colour [i], every colour in use. *)
Definition own (x : VarName) : Q :=
  match node_of x with
  | Some (i, c) => if (c =? Z.of_nat i)%Z then 1 else 0
  | None => 1
  end.

(** Vertex 0 on colour 1, the others on colour 0, every colour in use. *)
Definition swapped (x : VarName) : Q :=
  match node_of x with
  | Some (O, c) => if (c =? 1)%Z then 1 else 0
  | Some (_, c) => if (c =? 0)%Z then 1 else 0
  | None => 1
  end.

(** A solver that answers [status] and [val] whatever the problem. *)
Definition answer (status : Z) (val : VarName -> Q)
  : LpProblem -> Z * (VarName -> Q) :=
  fun _ => (status, val).

End Sample.

(* ------------------------------------------------------------------ *)
(** ** Measures of a valuation, and graphs the solver cannot colour *)

(** How many colours a valuation marks as used: the sum of the
    [colorUsed[c]] over the candidate colours. *)
Definition colours_used (g : Graph) (val : VarName -> Q) : Q :=
  value val (map (fun c => (1, colorUsed c)) (range (order g))).

(** The weight a valuation puts on colour [c]: the sum, over the relevant
    vertices, of the weight times [assign[i,c]]. *)
Definition load (g : Graph) (val : VarName -> Q) (c : nat) : Q :=
  value val (map (fun i => (weight_at g i, assign i c)) (relevants g)).

Module Edge.

(** One relevant vertex with an edge to itself. *)
Definition loop : Graph :=
  Sample.graph [Sample.node None true 1] [(0%nat, 0%nat)].

(** Two adjacent relevant vertices, both pre-set to colour 0. *)
Definition clash : Graph :=
  Sample.graph [Sample.node (Some 0%Z) true 1; Sample.node (Some 0%Z) true 1]
               [(0%nat, 1%nat)].

(** Two relevant vertices, the second of weight 3. *)
Definition heavy : Graph :=
  Sample.graph [Sample.node None true 1; Sample.node None true 3] [].

End Edge.

(* ------------------------------------------------------------------ *)
(** ** Measures of a graph *)

(** [g'] is [g] up to the colours: the same edges, the same number of
    vertices, the same two other attributes. *)
Definition same_but_colours (g g' : Graph) : Prop :=
  es g' = es g /\ order g' = order g
  /\ has_relevant g' = has_relevant g /\ has_weight g' = has_weight g
  /\ (forall j, relevant_at g' j = relevant_at g j)
  /\ (forall j, weight_at g' j = weight_at g j).

(** The relevant vertices a graph has on colour [c], and what they weigh
    together. *)
Definition colour_class (g : Graph) (c : Z) : list nat :=
  filter (fun i => match colour_of g i with
                   | Some k => (k =? c)%Z
                   | None => false
                   end) (relevants g).

Definition class_weight (g : Graph) (c : Z) : Q :=
  fsum (map (weight_at g) (colour_class g c)).

(* ------------------------------------------------------------------ *)
(** ** Graphs with a vertex that is not relevant *)

Module Outside.

(** [Sample.bystander] with another colour and weight on the vertex that
    is not relevant, and an edge to it. *)
Definition onlooker : Graph :=
  Sample.graph [Sample.node None true 1; Sample.node (Some 9%Z) false 100]
               [(0%nat, 1%nat)].


End Outside.

(* ------------------------------------------------------------------ *)
(** * Properties *)

(** ** Loops and dictionaries *)

Lemma for_each_ok {A B : Type} (body : A -> result B) (h : A -> B) (l : list A) :
  (forall a, In a l -> body a = Ok (h a)) ->
  for_each body l = Ok (map h l).
Proof.
  induction l as [|a l IH]; intros Hb; cbn.
  - reflexivity.
  - rewrite (Hb a (or_introl eq_refl)). cbn.
    rewrite IH by (intros x Hx; apply Hb; now right). reflexivity.
Qed.

Lemma for_each_raise {A B : Type} (body : A -> result B) (e : exn) (l : list A) :
  (forall a, In a l -> (exists b, body a = Ok b) \/ body a = Raise e) ->
  (exists a, In a l /\ body a = Raise e) ->
  for_each body l = Raise e.
Proof.
  induction l as [|a l IH]; intros Hall [x [Hx Hr]].
  - destruct Hx.
  - cbn. destruct (Hall a (or_introl eq_refl)) as [[b Hb]|Hb].
    + rewrite Hb. cbn. rewrite IH.
      * reflexivity.
      * intros y Hy. apply Hall. now right.
      * destruct Hx as [Hx|Hx].
        -- subst x. congruence.
        -- exists x. auto.
    + rewrite Hb. reflexivity.
Qed.

Lemma key_eqb_eq (a b : nat * Z) : key_eqb a b = true <-> a = b.
Proof.
  destruct a as [i c], b as [j d]. unfold key_eqb. cbn.
  rewrite andb_true_iff, Nat.eqb_eq, Z.eqb_eq.
  split; [intros [-> ->]; reflexivity | intros E; inversion E; auto].
Qed.

Section Dicts.

Context {K : Type} (eqb : K -> K -> bool).
Hypothesis eqb_eq : forall a b, eqb a b = true <-> a = b.
Variables (nm : string) (str_key : K -> string) (lo up : Q) (c : LpCategory).

Lemma getitem_dicts_in (ks : list K) (k : K) :
  In k ks ->
  getitem eqb (LpVariable_dicts nm str_key ks lo up c) k
  = Ok {| name := dicts_name nm (str_key k); lowBound := lo; upBound := up;
          cat := c |}.
Proof.
  induction ks as [|k' ks IH]; intros Hin.
  - destruct Hin.
  - cbn. destruct (eqb k' k) eqn:E.
    + apply eqb_eq in E. now subst k'.
    + apply IH. destruct Hin as [Hin|Hin]; [|exact Hin].
      subst k'. assert (eqb k k = true) by now apply eqb_eq. congruence.
Qed.

Lemma getitem_dicts_notin (ks : list K) (k : K) :
  ~ In k ks ->
  getitem eqb (LpVariable_dicts nm str_key ks lo up c) k = Raise KeyError.
Proof.
  induction ks as [|k' ks IH]; intros Hin.
  - reflexivity.
  - cbn. destruct (eqb k' k) eqn:E.
    + apply eqb_eq in E. subst k'. exfalso. apply Hin. now left.
    + apply IH. intros H. apply Hin. now right.
Qed.

End Dicts.

(** ** [range], [sum] and the relevant vertices *)

Lemma in_range (n i : nat) : In i (range n) <-> (i < n)%nat.
Proof. unfold range. rewrite in_seq. lia. Qed.

Lemma range_nonempty (n : nat) : (0 < n)%nat -> range n <> [].
Proof. destruct n; [lia | discriminate]. Qed.

Lemma sum_from (l : list nat) (a : Z) :
  fold_left (fun acc c => (acc + Z.of_nat c)%Z) l a
  = (a + sum l)%Z.
Proof.
  unfold sum. revert a. induction l as [|x l IH]; intros a; cbn.
  - lia.
  - rewrite IH, (IH (Z.of_nat x)). lia.
Qed.

Lemma sum_cons (x : nat) (l : list nat) : sum (x :: l) = (Z.of_nat x + sum l)%Z.
Proof. unfold sum at 1. cbn. now rewrite sum_from. Qed.

Lemma sum_app (l1 l2 : list nat) : sum (l1 ++ l2) = (sum l1 + sum l2)%Z.
Proof.
  induction l1 as [|x l1 IH]; cbn [app].
  - reflexivity.
  - rewrite !sum_cons, IH. lia.
Qed.

(** [sum(range(n)) * 2 = n * (n - 1)]. *)
Lemma sum_range (n : nat) :
  (sum (range n) * 2 = Z.of_nat n * (Z.of_nat n - 1))%Z.
Proof.
  unfold range. induction n as [|n IH].
  - reflexivity.
  - rewrite seq_S, sum_app, sum_cons. cbn [Nat.add].
    change (sum []) with 0%Z. lia.
Qed.

Lemma in_relevants (g : Graph) (i : nat) :
  In i (relevants g) <-> (i < order g)%nat /\ relevant_at g i = true.
Proof. unfold relevants. now rewrite filter_In, in_range. Qed.

Lemma contains_in (i : nat) (l : list nat) : contains i l = true <-> In i l.
Proof.
  unfold contains. rewrite existsb_exists. split.
  - intros [x [Hx E]]. apply Nat.eqb_eq in E. now subst.
  - intros H. exists i. split; [exact H | apply Nat.eqb_refl].
Qed.

Lemma vertex_in_range (g : Graph) (i : nat) :
  (i < order g)%nat -> exists v, nth_error (vs g) i = Some v /\ vertex g i = Ok v.
Proof.
  intros H. unfold vertex. destruct (nth_error (vs g) i) eqn:E.
  - eauto.
  - apply nth_error_None in E. unfold order in H. lia.
Qed.

Lemma relevants_read (g : Graph) (l : list nat) :
  has_relevant g = true ->
  (forall i, In i l -> (i < order g)%nat) ->
  comprehension_if (fun i => v <- vertex g i ;; get_relevant g v) l
  = Ok (filter (relevant_at g) l).
Proof.
  intros Hr. induction l as [|i l IH]; intros Hl; cbn.
  - reflexivity.
  - destruct (vertex_in_range g i) as [v [E1 E2]]; [apply Hl; now left|].
    rewrite E2. cbn. unfold get_relevant at 1. rewrite Hr. cbn.
    rewrite IH by (intros j Hj; apply Hl; now right). cbn.
    replace (relevant_at g i) with (relevant v)
      by (unfold relevant_at; now rewrite E1).
    reflexivity.
Qed.

(** ** [%f] keeps an integer as it is *)

Lemma round_half_even_Z (z : Z) : round_half_even (inject_Z z) = z.
Proof.
  unfold round_half_even. rewrite Qfloor_Z.
  assert (E : Qcompare (inject_Z z - inject_Z z) (1 # 2) = Lt).
  { unfold Qcompare, Qminus, Qplus, Qopp, inject_Z. cbn.
    apply Z.compare_lt_iff. lia. }
  now rewrite E.
Qed.

Lemma format_f_Z (z : Z) : format_f (inject_Z z) = inject_Z z.
Proof.
  unfold format_f.
  change (inject_Z z * 1000000) with (inject_Z (z * 1000000)).
  rewrite round_half_even_Z.
  rewrite (Qred_complete (z * 1000000 # 1000000) (inject_Z z)).
  - apply Qcanon.Qred_identity. cbn. apply Z.gcd_1_r.
  - unfold Qeq, inject_Z. cbn. lia.
Qed.

(** ** The dictionaries of the builder *)

Lemma candidate_spec (g : Graph) (k : Z) :
  candidate g k = true <-> exists c, (c < order g)%nat /\ k = Z.of_nat c.
Proof.
  unfold candidate. rewrite andb_true_iff, Z.leb_le, Z.ltb_lt. split.
  - intros [H0 H1]. exists (Z.to_nat k). split; lia.
  - intros [c [Hc ->]]. lia.
Qed.

Lemma candidate_of_nat (g : Graph) (c : nat) :
  candidate g (Z.of_nat c) = true <-> (c < order g)%nat.
Proof.
  rewrite candidate_spec. split.
  - intros [c' [Hc E]]. apply Nat2Z.inj in E. now subst.
  - intros H. now exists c.
Qed.

Lemma in_xic_combs (g : Graph) (i : nat) (k : Z) :
  In (i, k)
     (flat_map (fun i => map (fun c => (i, Z.of_nat c)) (range (order g)))
               (relevants g))
  <-> In i (relevants g) /\ candidate g k = true.
Proof.
  rewrite in_flat_map, candidate_spec. split.
  - intros [j [Hj Hin]]. apply in_map_iff in Hin. destruct Hin as [c [E Hc]].
    inversion E; subst. apply in_range in Hc. split; [exact Hj | now exists c].
  - intros [Hi [c [Hc ->]]]. exists i. split; [exact Hi|].
    apply in_map_iff. exists c. split; [reflexivity | now apply in_range].
Qed.

Lemma lookup_preset (g : Graph) (i : nat) (k : Z) :
  In i (relevants g) -> candidate g k = true ->
  getitem key_eqb (xic_dict g) (i, k) = Ok (binary (Node_Colour_variable_x i k)).
Proof.
  intros Hi Hk. unfold xic_dict.
  rewrite (getitem_dicts_in key_eqb key_eqb_eq).
  - reflexivity.
  - now apply in_xic_combs.
Qed.

Lemma lookup_assign (g : Graph) (i c : nat) :
  In i (relevants g) -> (c < order g)%nat ->
  getitem key_eqb (xic_dict g) (i, Z.of_nat c) = Ok (assign i c).
Proof.
  intros Hi Hc. apply lookup_preset; [exact Hi | now apply candidate_of_nat].
Qed.

Lemma lookup_missing (g : Graph) (i : nat) (k : Z) :
  candidate g k = false ->
  getitem key_eqb (xic_dict g) (i, k) = Raise KeyError.
Proof.
  intros Hk. unfold xic_dict.
  apply (getitem_dicts_notin key_eqb key_eqb_eq).
  rewrite in_xic_combs. intros [_ H]. congruence.
Qed.

Lemma lookup_colorUsed (g : Graph) (c : nat) :
  (c < order g)%nat ->
  getitem Z.eqb (xc_dict g) (Z.of_nat c) = Ok (colorUsed c).
Proof.
  intros Hc. unfold xc_dict.
  rewrite (getitem_dicts_in Z.eqb Z.eqb_eq).
  - reflexivity.
  - apply in_map. now apply in_range.
Qed.

(** ** [eval] on the texts of the builder *)

Lemma eval_resolves (g : Graph) (text : list summand) :
  text <> [] ->
  (forall s, In s text -> in_scope g (operand s)) ->
  eval (scope_of g) text = Ok (map resolve text).
Proof.
  intros Hne Hsc.
  assert (E : eval (scope_of g) text = for_each (term (scope_of g)) text)
    by (destruct text; [congruence | reflexivity]).
  rewrite E. apply for_each_ok. intros s Hs. specialize (Hsc s Hs).
  unfold term, resolve. destruct (operand s) as [k | i k]; cbn in *.
  - apply candidate_spec in Hsc. destruct Hsc as [c [Hc ->]].
    now rewrite lookup_colorUsed.
  - destruct Hsc as [Hi Hk]. now rewrite lookup_preset.
Qed.

Lemma map_flat_map {A B C : Type} (f : B -> C) (h : A -> list B) (l : list A) :
  map f (flat_map h l) = flat_map (fun a => map f (h a)) l.
Proof.
  induction l as [|a l IH]; cbn.
  - reflexivity.
  - now rewrite map_app, IH.
Qed.

(** ** The builder, stage by stage *)

Section Stages.

Variable g : Graph.
Variable wmax : Q.

Lemma relevant_in_order (i : nat) : In i (relevants g) -> (i < order g)%nat.
Proof. intros H. now apply in_relevants in H. Qed.

Lemma stage_objective :
  (0 < order g)%nat ->
  eval (scope_of g)
    (map (fun c => times (format_f (inject_Z (BIG g))) (xc_at (Z.of_nat c)))
         (range (order g))
     ++ flat_map
          (fun i =>
             map (fun c => times (format_f (inject_Z (Z.of_nat c)))
                             (xic_at i (Z.of_nat c)))
                 (range (order g)))
          (relevants g))
  = Ok (colour_count_term g ++ low_colour_term g).
Proof.
  intros Hn. rewrite eval_resolves.
  - rewrite map_app, map_map, map_flat_map.
    unfold colour_count_term, low_colour_term. f_equal. f_equal.
    + apply map_ext. intros c. unfold resolve, times. cbn [factor operand].
      now rewrite format_f_Z.
    + apply flat_map_ext. intros i. rewrite map_map.
      apply map_ext. intros c. unfold resolve, times. cbn [factor operand].
      now rewrite format_f_Z.
  - intros E. apply app_eq_nil in E. destruct E as [E _].
    apply map_eq_nil in E. now apply (range_nonempty (order g) Hn).
  - intros s Hs. apply in_app_or in Hs. destruct Hs as [Hs|Hs].
    + apply in_map_iff in Hs. destruct Hs as [c [<- Hc]]. cbn.
      apply candidate_of_nat. now apply in_range.
    + apply in_flat_map in Hs. destruct Hs as [i [Hi Hs]].
      apply in_map_iff in Hs. destruct Hs as [c [<- Hc]]. cbn.
      split; [exact Hi | apply candidate_of_nat; now apply in_range].
Qed.

Lemma stage_one_colour :
  for_each
    (fun i =>
       eval_comparison (scope_of g)
         (map (fun c => alone (xic_at i (Z.of_nat c))) (range (order g)))
         LpConstraintEQ 1)
    (relevants g)
  = Ok (map (exactly_one g) (relevants g)).
Proof.
  apply for_each_ok. intros i Hi. unfold eval_comparison. rewrite eval_resolves.
  - cbn. now rewrite map_map.
  - intros E. apply map_eq_nil in E. revert E. apply range_nonempty.
    apply relevant_in_order in Hi. lia.
  - intros s Hs. apply in_map_iff in Hs. destruct Hs as [c [<- Hc]]. cbn.
    split; [exact Hi | apply candidate_of_nat; now apply in_range].
Qed.

Lemma stage_adjacent :
  for_each
    (fun e =>
       if contains (source e) (relevants g) && contains (target e) (relevants g)
       then
         for_each
           (fun c =>
              a <- getitem key_eqb (xic_dict g) (source e, Z.of_nat c) ;;
              b <- getitem key_eqb (xic_dict g) (target e, Z.of_nat c) ;;
              Ok (le_constraint [(1, a); (1, b)] 1))
           (range (order g))
       else Ok [])
    (es g)
  = Ok (map (fun e =>
               if contains (source e) (relevants g)
                  && contains (target e) (relevants g)
               then map (adjacency (source e) (target e)) (range (order g))
               else [])
            (es g)).
Proof.
  apply for_each_ok. intros e _.
  destruct (contains (source e) (relevants g)) eqn:Es; [|reflexivity].
  destruct (contains (target e) (relevants g)) eqn:Et; [|reflexivity].
  cbn. apply contains_in in Es, Et.
  apply for_each_ok. intros c Hc. apply in_range in Hc.
  now rewrite !lookup_assign.
Qed.

Lemma stage_capacity_text (c : nat) :
  has_weight g = true ->
  for_each
    (fun i =>
       v <- vertex g i ;;
       w <- get_weight g v ;;
       Ok (times (format_f w) (xic_at i (Z.of_nat c))))
    (relevants g)
  = Ok (map (fun i => times (format_f (weight_at g i)) (xic_at i (Z.of_nat c)))
            (relevants g)).
Proof.
  intros Hw. apply for_each_ok. intros i Hi.
  destruct (vertex_in_range g i (relevant_in_order i Hi)) as [v [E1 E2]].
  rewrite E2. cbn. unfold get_weight. rewrite Hw. cbn.
  unfold weight_at. now rewrite E1.
Qed.

Lemma stage_capacity :
  has_weight g = true -> relevants g <> [] ->
  for_each
    (fun c =>
       constr <-
         for_each
           (fun i =>
              v <- vertex g i ;;
              w <- get_weight g v ;;
              Ok (times (format_f w) (xic_at i (Z.of_nat c))))
           (relevants g) ;;
       eval_comparison (scope_of g) constr LpConstraintLE (format_f wmax))
    (range (order g))
  = Ok (map (capacity g wmax) (range (order g))).
Proof.
  intros Hw HR. apply for_each_ok. intros c Hc. apply in_range in Hc.
  rewrite stage_capacity_text by exact Hw. cbn [bind].
  unfold eval_comparison. rewrite eval_resolves.
  - cbn [bind]. now rewrite map_map.
  - intros E. apply map_eq_nil in E. contradiction.
  - intros s Hs. apply in_map_iff in Hs. destruct Hs as [i [<- Hi]]. cbn.
    split; [exact Hi | now apply candidate_of_nat].
Qed.

Lemma stage_linking :
  for_each
    (fun i =>
       for_each
         (fun c =>
            a <- getitem Z.eqb (xc_dict g) (Z.of_nat c) ;;
            b <- getitem key_eqb (xic_dict g) (i, Z.of_nat c) ;;
            Ok (ge_constraint [(1, a); (- (1), b)] 0))
         (range (order g)))
    (relevants g)
  = Ok (map (fun i => map (linking i) (range (order g))) (relevants g)).
Proof.
  apply for_each_ok. intros i Hi. apply for_each_ok. intros c Hc.
  apply in_range in Hc.
  now rewrite lookup_colorUsed, lookup_assign.
Qed.

End Stages.

(** ** The persistence stage *)

Lemma forallb_false {A : Type} (f : A -> bool) (l : list A) :
  forallb f l = false -> exists a, In a l /\ f a = false.
Proof.
  induction l as [|a l IH]; cbn; intros H.
  - discriminate.
  - destruct (f a) eqn:E.
    + destruct (IH H) as [x [Hx Hf]]. exists x. auto.
    + exists a. auto.
Qed.

Section Persistence.

Variable g : Graph.
Hypothesis colours_exist : has_colour g = true.

Lemma persistence_body (iv : nat * Vertex) :
  (k <- get_colour g (snd iv) ;;
   match k with
   | Some k =>
       if contains (fst iv) (relevants g)
       then
         x <- getitem key_eqb (xic_dict g) (fst iv, k) ;;
         Ok [eq_constraint [(1, x)] 1]
       else Ok []
   | None => Ok []
   end)
  = if preset_ok g iv then Ok (persistence_at g iv) else Raise KeyError.
Proof.
  unfold get_colour, preset_ok, persistence_at.
  rewrite colours_exist. cbn [bind].
  destruct (colour (snd iv)) as [k|]; [|reflexivity].
  destruct (contains (fst iv) (relevants g)) eqn:Ei; [|reflexivity].
  cbn [negb orb]. destruct (candidate g k) eqn:Ek.
  - apply contains_in in Ei. now rewrite lookup_preset.
  - now rewrite lookup_missing.
Qed.

Lemma stage_persistence (l : list (nat * Vertex)) :
  for_each
    (fun iv =>
       k <- get_colour g (snd iv) ;;
       match k with
       | Some k =>
           if contains (fst iv) (relevants g)
           then
             x <- getitem key_eqb (xic_dict g) (fst iv, k) ;;
             Ok [eq_constraint [(1, x)] 1]
           else Ok []
       | None => Ok []
       end)
    l
  = if forallb (preset_ok g) l
    then Ok (map (persistence_at g) l) else Raise KeyError.
Proof.
  destruct (forallb (preset_ok g) l) eqn:E.
  - apply for_each_ok. intros iv Hiv. rewrite persistence_body.
    rewrite forallb_forall in E. now rewrite (E iv Hiv).
  - apply for_each_raise.
    + intros iv _. rewrite persistence_body.
      destruct (preset_ok g iv); eauto.
    + apply forallb_false in E. destruct E as [iv [Hiv Hf]].
      exists iv. split; [exact Hiv|]. now rewrite persistence_body, Hf.
Qed.

End Persistence.

Lemma order_pos (g : Graph) (v : Vertex) (l : list Vertex) :
  vs g = v :: l -> (0 < order g)%nat.
Proof. unfold order. intros ->. cbn. lia. Qed.

Lemma stage_capacity_no_weight (g : Graph) (wmax : Q) :
  has_weight g = false -> relevants g <> [] ->
  for_each
    (fun c =>
       constr <-
         for_each
           (fun i =>
              v <- vertex g i ;;
              w <- get_weight g v ;;
              Ok (times (format_f w) (xic_at i (Z.of_nat c))))
           (relevants g) ;;
       eval_comparison (scope_of g) constr LpConstraintLE (format_f wmax))
    (range (order g))
  = Raise KeyError.
Proof.
  intros Hw HR. destruct (relevants g) as [|r0 R] eqn:ER; [congruence|].
  assert (Hr0 : (r0 < order g)%nat).
  { apply relevant_in_order. rewrite ER. now left. }
  destruct (vertex_in_range g r0 Hr0) as [v [_ Ev]].
  destruct (range (order g)) as [|c0 cs] eqn:Ec.
  - exfalso. revert Ec. apply range_nonempty. lia.
  - cbn [for_each]. rewrite Ev. cbn [bind]. unfold get_weight. now rewrite Hw.
Qed.

(** ** The builder in closed form *)

Lemma build_outcome (g : Graph) (wmax : Q) :
  _colouring_lpproblem g wmax = outcome g wmax.
Proof.
  unfold _colouring_lpproblem, outcome.
  change (length (vs g)) with (order g).
  destruct (has_relevant g) eqn:Hr.
  - rewrite relevants_read by (exact Hr || (intros i Hi; now apply in_range)).
    cbn [bind negb].
    change (filter (relevant_at g) (range (order g))) with (relevants g).
    fold (xc_dict g). fold (xic_dict g). fold (scope_of g). fold (BIG g).
    destruct (vs g) as [|v0 l] eqn:Evs.
    + assert (E : order g = 0%nat) by (unfold order; now rewrite Evs).
      assert (ER : relevants g = []) by (unfold relevants; now rewrite E).
      rewrite E, ER. reflexivity.
    + pose proof (order_pos g v0 l Evs) as Hn. rewrite <- Evs.
      rewrite stage_objective by exact Hn. cbn [bind].
      rewrite stage_one_colour. cbn [bind].
      rewrite stage_adjacent. cbn [bind].
      destruct (relevants g) as [|r0 R] eqn:ER.
      * destruct (order g) as [|n]; [lia|]. reflexivity.
      * rewrite <- ER.
        assert (HR : relevants g <> []) by (rewrite ER; discriminate).
        destruct (has_weight g) eqn:Hw; cbn [negb].
        2:{ now rewrite stage_capacity_no_weight. }
        rewrite stage_capacity by assumption. cbn [bind].
        rewrite stage_linking. cbn [bind].
        destruct (has_colour g) eqn:Hc; cbn [negb].
        2:{ rewrite Evs. cbn. unfold get_colour. now rewrite Hc. }
        rewrite stage_persistence by exact Hc.
        destruct (forallb (preset_ok g) (enumerate (vs g))); [|reflexivity].
        cbn [bind]. unfold problem_of.
        now rewrite <- !flat_map_concat_map.
  - cbn [negb]. destruct (vs g) as [|v0 l] eqn:Evs.
    + unfold order. rewrite Evs. reflexivity.
    + unfold order. rewrite Evs. cbn. unfold vertex. rewrite Evs. cbn.
      unfold get_relevant. now rewrite Hr.
Qed.

Lemma build_inversion (g : Graph) (wmax : Q) (p : LpProblem) :
  _colouring_lpproblem g wmax = Ok p ->
  has_relevant g = true /\ relevants g <> [] /\ has_weight g = true /\
  has_colour g = true /\ forallb (preset_ok g) (enumerate (vs g)) = true /\
  p = problem_of g wmax.
Proof.
  rewrite build_outcome. unfold outcome.
  destruct (vs g) eqn:Evs; [discriminate|]. rewrite <- Evs. clear Evs.
  destruct (has_relevant g); cbn [negb]; [|discriminate].
  destruct (relevants g) eqn:ER; [discriminate|]. rewrite <- ER.
  destruct (has_weight g); cbn [negb]; [|discriminate].
  destruct (has_colour g); cbn [negb]; [|discriminate].
  destruct (forallb (preset_ok g) (enumerate (vs g))); [|discriminate].
  intros E. inversion E. repeat split; try reflexivity. rewrite ER. discriminate.
Qed.

(** ** Valuations of 0/1 variables *)

Lemma value_cons (val : VarName -> Q) (a : Q) (v : LpVariable)
    (e : LpAffineExpression) :
  value val ((a, v) :: e) = a * val (name v) + value val e.
Proof. reflexivity. Qed.

Lemma integral_spec (q : Q) :
  integral q = true -> 0 <= q -> q <= 1 -> q == 0 \/ q == 1.
Proof.
  destruct q as [a b]. unfold integral, Qle, Qeq. cbn.
  intros Hm H0 H1. apply Z.eqb_eq in Hm.
  apply Z.mod_divide in Hm; [|lia]. destruct Hm as [k Hk].
  assert (k = 0 \/ k = 1)%Z as [-> | ->] by nia; [left | right]; lia.
Qed.

Lemma binary_value (val : VarName -> Q) (x : VarName) :
  in_domain val (binary x) = true -> val x == 0 \/ val x == 1.
Proof.
  unfold in_domain. cbn. rewrite !andb_true_iff, !Qle_bool_iff.
  intros [[H0 H1] Hi]. now apply integral_spec.
Qed.

Lemma feasible_domain (p : LpProblem) (val : VarName -> Q) (v : LpVariable) :
  feasible p val = true -> In v (occurring p) -> in_domain val v = true.
Proof.
  unfold feasible. rewrite andb_true_iff, forallb_forall. intros [H _]. apply H.
Qed.

Lemma feasible_constraint (p : LpProblem) (val : VarName -> Q) (c : LpConstraint) :
  feasible p val = true -> In c (constraints p) -> satisfies val c = true.
Proof.
  unfold feasible. rewrite andb_true_iff, !forallb_forall. intros [_ H]. apply H.
Qed.

Lemma sum_of_binaries_zero (h : nat -> LpVariable)
    (val : VarName -> Q) (l : list nat) :
  (forall c, In c l -> val (name (h c)) == 0 \/ val (name (h c)) == 1) ->
  value val (map (fun c => (1, h c)) l) == 0 ->
  forall c, In c l -> val (name (h c)) == 0.
Proof.
  induction l as [|a l IH]; intros Hb Hs c Hc.
  - destruct Hc.
  - cbn [map] in Hs. rewrite value_cons in Hs.
    assert (Hpos : 0 <= value val (map (fun c => (1, h c)) l)).
    { clear - Hb. induction l as [|b l IH]; cbn [map].
      - cbn. lra.
      - rewrite value_cons.
        assert (0 <= value val (map (fun c => (1, h c)) l)).
        { apply IH. intros c [Hc|Hc]; apply Hb; [now left | right; now right]. }
        destruct (Hb b) as [E|E]; [right; now left | |]; lra. }
    destruct (Hb a (or_introl eq_refl)) as [Ea|Ea]; [|lra].
    destruct Hc as [<-|Hc]; [exact Ea|].
    apply IH; [intros x Hx; apply Hb; now right | lra | exact Hc].
Qed.

Lemma sum_of_binaries_one (h : nat -> LpVariable) (val : VarName -> Q)
    (l : list nat) :
  (forall c, In c l -> val (name (h c)) == 0 \/ val (name (h c)) == 1) ->
  value val (map (fun c => (1, h c)) l) == 1 ->
  exists c, In c l /\ val (name (h c)) == 1 /\
            forall c', In c' l -> c' <> c -> val (name (h c')) == 0.
Proof.
  induction l as [|a l IH]; intros Hb Hs.
  - cbn in Hs. lra.
  - cbn [map] in Hs. rewrite value_cons in Hs.
    assert (Hb' : forall c, In c l ->
                  val (name (h c)) == 0 \/ val (name (h c)) == 1)
      by (intros x Hx; apply Hb; now right).
    destruct (Hb a (or_introl eq_refl)) as [Ea|Ea].
    + destruct IH as [c [Hc [H1 Hz]]]; [exact Hb' | lra |].
      exists c. split; [now right|]. split; [exact H1|].
      intros c' [<-|Hc'] Hne; [exact Ea | now apply Hz].
    + exists a. split; [now left|]. split; [exact Ea|].
      intros c' [<-|Hc'] Hne; [congruence|].
      apply (sum_of_binaries_zero h val l); [exact Hb' | lra | exact Hc'].
Qed.

(** ** Vertices and their positions *)

Lemma in_enumerate_from {A : Type} (l : list A) (a i : nat) (x : A) :
  nth_error l i = Some x -> In ((a + i)%nat, x) (combine (seq a (length l)) l).
Proof.
  revert a i. induction l as [|y l IH]; intros a i H.
  - destruct i; discriminate.
  - destruct i as [|i]; cbn in *.
    + inversion H. left. f_equal. lia.
    + right. replace (a + S i)%nat with (S a + i)%nat by lia. now apply IH.
Qed.

Lemma in_enumerate {A : Type} (l : list A) (i : nat) (x : A) :
  nth_error l i = Some x -> In (i, x) (enumerate l).
Proof. intros H. apply (in_enumerate_from l 0 i x H). Qed.

Lemma colour_at_candidate (g : Graph) (wmax : Q) (p : LpProblem) (i : nat) (k : Z) :
  _colouring_lpproblem g wmax = Ok p ->
  In i (relevants g) -> colour_at g i = Some k -> candidate g k = true.
Proof.
  intros Hb Hi Hk. apply build_inversion in Hb.
  destruct Hb as (_ & _ & _ & _ & Hall & _).
  unfold colour_at in Hk. destruct (nth_error (vs g) i) as [v|] eqn:Ev; [|discriminate].
  rewrite forallb_forall in Hall. specialize (Hall (i, v) (in_enumerate _ _ _ Ev)).
  unfold preset_ok in Hall. cbn in Hall. rewrite Hk in Hall.
  apply contains_in in Hi. now rewrite Hi in Hall.
Qed.

(** ** The variables and constraints of the closed form *)

Lemma variables_of_in (e : LpAffineExpression) (v : LpVariable) :
  In v (variables_of e) -> In v (map snd e).
Proof.
  unfold variables_of. intros H. apply in_map_iff in H.
  destruct H as [t [<- Ht]]. apply filter_In in Ht. apply in_map. tauto.
Qed.

Lemma occurring_written (p : LpProblem) (v : LpVariable) :
  In v (occurring p) ->
  In v (map snd (objective p)
        ++ flat_map (fun c => map snd (lhs c)) (constraints p)).
Proof.
  unfold occurring. intros H. apply in_app_or in H. apply in_or_app.
  destruct H as [H|H].
  - left. now apply variables_of_in.
  - right. apply in_flat_map in H. destruct H as [c [Hc H]].
    apply in_flat_map. exists c. split; [exact Hc | now apply variables_of_in].
Qed.

Lemma exactly_one_in (g : Graph) (wmax : Q) (i : nat) :
  In i (relevants g) -> In (exactly_one g i) (constraints (problem_of g wmax)).
Proof.
  intros Hi. cbn [constraints problem_of]. apply in_or_app. left. now apply in_map.
Qed.

(** [assign[i,c]] has coefficient 1 in the constraint of vertex [i]. *)
Lemma assign_occurs (g : Graph) (wmax : Q) (i c : nat) :
  In i (relevants g) -> (c < order g)%nat ->
  In (assign i c) (occurring (problem_of g wmax)).
Proof.
  intros Hi Hc. unfold occurring. apply in_or_app. right.
  apply in_flat_map. exists (exactly_one g i).
  split; [now apply exactly_one_in|].
  unfold variables_of, exactly_one. cbn [lhs eq_constraint].
  apply in_map_iff. exists (1, assign i c). split; [reflexivity|].
  apply filter_In. split; [|reflexivity].
  apply in_map_iff. exists c. split; [reflexivity | now apply in_range].
Qed.

Lemma assign_binary (g : Graph) (wmax : Q) (val : VarName -> Q) (i c : nat) :
  feasible (problem_of g wmax) val = true ->
  In i (relevants g) -> (c < order g)%nat ->
  val (name (assign i c)) == 0 \/ val (name (assign i c)) == 1.
Proof.
  intros Hf Hi Hc. apply binary_value.
  apply (feasible_domain _ _ _ Hf). now apply assign_occurs.
Qed.

Lemma adjacency_in (g : Graph) (wmax : Q) (u v c : nat) :
  In (u, v) (es g) -> In u (relevants g) -> In v (relevants g) ->
  (c < order g)%nat ->
  In (adjacency u v c) (constraints (problem_of g wmax)).
Proof.
  intros He Hu Hv Hc. cbn [constraints problem_of].
  apply in_or_app. right. apply in_or_app. left.
  apply in_flat_map. exists (u, v). split; [exact He|].
  apply contains_in in Hu, Hv. cbn [source target fst snd]. rewrite Hu, Hv. cbn.
  apply in_map. now apply in_range.
Qed.

Lemma capacity_in (g : Graph) (wmax : Q) (c : nat) :
  (c < order g)%nat -> In (capacity g wmax c) (constraints (problem_of g wmax)).
Proof.
  intros Hc. cbn [constraints problem_of].
  apply in_or_app. right. apply in_or_app. right. apply in_or_app. left.
  apply in_map. now apply in_range.
Qed.

Lemma persistence_in (g : Graph) (wmax : Q) (i : nat) (k : Z) :
  In i (relevants g) -> colour_at g i = Some k ->
  In (persistence i k) (constraints (problem_of g wmax)).
Proof.
  intros Hi Hk. cbn [constraints problem_of].
  do 4 (apply in_or_app; right).
  unfold colour_at in Hk. destruct (nth_error (vs g) i) as [v|] eqn:Ev; [|discriminate].
  apply in_flat_map. exists (i, v). split; [now apply in_enumerate|].
  unfold persistence_at. cbn [fst snd]. rewrite Hk.
  apply contains_in in Hi. rewrite Hi. now left.
Qed.

Lemma one_colour_per_vertex (g : Graph) (wmax : Q) (val : VarName -> Q) (i : nat) :
  feasible (problem_of g wmax) val = true -> In i (relevants g) ->
  exists c, (c < order g)%nat /\ val (name (assign i c)) == 1 /\
            forall c', (c' < order g)%nat -> c' <> c ->
                       val (name (assign i c')) == 0.
Proof.
  intros Hf Hi.
  pose proof (feasible_constraint _ _ _ Hf (exactly_one_in g wmax i Hi)) as Hs.
  unfold satisfies, exactly_one in Hs. cbn [sense lhs rhs eq_constraint] in Hs.
  apply Qeq_bool_iff in Hs.
  destruct (sum_of_binaries_one (assign i) val (range (order g)))
    as [c [Hc [H1 Hz]]].
  - intros c Hc. apply in_range in Hc. now apply (assign_binary g wmax).
  - exact Hs.
  - exists c. split; [now apply in_range|]. split; [exact H1|].
    intros c' Hc' Hne. apply Hz; [now apply in_range | exact Hne].
Qed.

(* ------------------------------------------------------------------ *)
(** * The formulation *)

(** C2. For every relevant vertex [i] the built problem contains the
    constraint that the variables [assign[i,c]], over the candidate
    colours [c] of [0 .. |V|-1], sum to 1; hence every feasible valuation
    gives [i] exactly one colour: one [assign[i,c]] is 1 and the others
    are 0. *)
Theorem exactly_one_colour (g : Graph) (wmax : Q) (p : LpProblem) (i : nat) :
  _colouring_lpproblem g wmax = Ok p ->
  In i (relevants g) ->
  In (eq_constraint (map (fun c => (1, assign i c)) (range (order g))) 1)
     (constraints p)
  /\ forall val, feasible p val = true ->
       exists c, (c < order g)%nat /\ val (name (assign i c)) == 1 /\
                 forall c', (c' < order g)%nat -> c' <> c ->
                            val (name (assign i c')) == 0.
Proof.
  intros Hb Hi. apply build_inversion in Hb.
  destruct Hb as (_ & _ & _ & _ & _ & ->). split.
  - now apply exactly_one_in.
  - intros val Hf. now apply (one_colour_per_vertex g wmax).
Qed.

(** C3. For every edge [(u,v)] whose two ends are relevant and every
    candidate colour [c] the built problem contains the constraint
    [assign[u,c] + assign[v,c] <= 1]; hence in no feasible valuation do
    the two ends of such an edge both have colour [c]. *)
Theorem adjacent_never_share (g : Graph) (wmax : Q) (p : LpProblem)
    (u v c : nat) :
  _colouring_lpproblem g wmax = Ok p ->
  In (u, v) (es g) -> In u (relevants g) -> In v (relevants g) ->
  (c < order g)%nat ->
  In (le_constraint [(1, assign u c); (1, assign v c)] 1) (constraints p)
  /\ forall val, feasible p val = true ->
       ~ (val (name (assign u c)) == 1 /\ val (name (assign v c)) == 1).
Proof.
  intros Hb He Hu Hv Hc. apply build_inversion in Hb.
  destruct Hb as (_ & _ & _ & _ & _ & ->).
  pose proof (adjacency_in g wmax u v c He Hu Hv Hc) as Hin.
  split; [exact Hin|].
  intros val Hf [H1 H2].
  pose proof (feasible_constraint _ _ _ Hf Hin) as Hs.
  unfold satisfies, adjacency in Hs. cbn [sense lhs rhs le_constraint] in Hs.
  apply Qle_bool_iff in Hs. rewrite !value_cons in Hs. cbn [value fold_right] in Hs.
  lra.
Qed.

(** ** The capacity constraint as it is built *)

(** A number with at most six decimals goes through [%f] unchanged. *)
Lemma format_f_six_decimals (z : Z) : format_f (z # 1000000) == z # 1000000.
Proof.
  unfold format_f. rewrite Qred_correct.
  assert (E : (z # 1000000) * 1000000 == inject_Z z).
  { unfold Qeq, Qmult, inject_Z. cbn. lia. }
  assert (Er : round_half_even ((z # 1000000) * 1000000) = z).
  { rewrite <- (round_half_even_Z z) at 2. unfold round_half_even.
    rewrite (Qfloor_comp _ _ E).
    assert (Ec : Qcompare ((z # 1000000) * 1000000
                           - inject_Z (Qfloor (inject_Z z))) (1 # 2)
                 = Qcompare (inject_Z z - inject_Z (Qfloor (inject_Z z))) (1 # 2)).
    { apply Qcompare_comp; [|reflexivity]. now rewrite E. }
    now rewrite Ec. }
  now rewrite Er.
Qed.

(** For every candidate colour the built problem holds the capacity
    constraint on the weights and the bound as [%f] prints them, and a
    feasible valuation satisfies it. *)
Lemma capacity_as_built (g : Graph) (wmax : Q) (p : LpProblem) (c : nat) :
  _colouring_lpproblem g wmax = Ok p -> (c < order g)%nat ->
  In (le_constraint
        (map (fun i => (format_f (weight_at g i), assign i c)) (relevants g))
        (format_f wmax))
     (constraints p)
  /\ forall val, feasible p val = true ->
       value val
         (map (fun i => (format_f (weight_at g i), assign i c)) (relevants g))
       <= format_f wmax.
Proof.
  intros Hb Hc. apply build_inversion in Hb.
  destruct Hb as (_ & _ & _ & _ & _ & ->).
  pose proof (capacity_in g wmax c Hc) as Hin. split; [exact Hin|].
  intros val Hf. pose proof (feasible_constraint _ _ _ Hf Hin) as Hs.
  now apply Qle_bool_iff in Hs.
Qed.

(** The bound handed to the builder: the one supplied unless it is absent
    or zero, the total weight otherwise. *)
Lemma capacity_bound_supplied (g : Graph) (w : Q) :
  ~ w == 0 -> capacity_bound g (Some w) = w.
Proof.
  intros Hw. unfold capacity_bound, falsy.
  destruct (Qeq_bool w 0) eqn:E; [|reflexivity].
  apply Qeq_bool_iff in E. contradiction.
Qed.

Lemma capacity_bound_default (g : Graph) (w : Q) :
  capacity_bound g None = fsum (map weight (vs g))
  /\ (w == 0 -> capacity_bound g (Some w) = fsum (map weight (vs g))).
Proof.
  split; [reflexivity|]. intros Hw. unfold capacity_bound, falsy.
  apply Qeq_bool_iff in Hw. now rewrite Hw.
Qed.

(** ** The size of the tie-break term *)

Lemma value_app (val : VarName -> Q) (e1 e2 : LpAffineExpression) :
  value val (e1 ++ e2) == value val e1 + value val e2.
Proof.
  induction e1 as [|[a v] e1 IH]; cbn [app].
  - cbn. lra.
  - rewrite !value_cons, IH. lra.
Qed.

Lemma inject_nat_nonneg (c : nat) : 0 <= inject_Z (Z.of_nat c).
Proof. unfold Qle. cbn. lia. Qed.

Lemma row_bound (val : VarName -> Q) (i : nat) (l : list nat) :
  (forall c, 0 <= val (name (assign i c)) <= 1) ->
  value val (map (fun c => (inject_Z (Z.of_nat c), assign i c)) l)
  <= inject_Z (sum l).
Proof.
  intros Hb. induction l as [|c l IH]; cbn [map].
  - unfold Qle. cbn. lia.
  - rewrite value_cons, sum_cons, inject_Z_plus.
    pose proof (inject_nat_nonneg c). pose proof (Hb c). nra.
Qed.

Lemma rows_bound (val : VarName -> Q) (n : nat) (R : list nat) :
  (forall i c, 0 <= val (name (assign i c)) <= 1) ->
  value val
    (flat_map (fun i => map (fun c => (inject_Z (Z.of_nat c), assign i c))
                            (range n)) R)
  <= inject_Z (Z.of_nat (length R) * sum (range n)).
Proof.
  intros Hb. induction R as [|i R IH]; cbn [flat_map length].
  - unfold Qle. cbn. lia.
  - rewrite value_app.
    pose proof (row_bound val i (range n) (Hb i)) as Hrow.
    replace (Z.of_nat (S (length R)) * sum (range n))%Z
      with (sum (range n) + Z.of_nat (length R) * sum (range n))%Z by lia.
    rewrite inject_Z_plus. lra.
Qed.

(** C1, as the code has it. For a graph the builder accepts (it has a
    relevant vertex), the objective is
    [sum_c BIG * colorUsed[c] + sum_{i in R, c} c * assign[i,c]] over the
    candidate colours [0 .. |V|-1], with
    [BIG = |R| * (0 + 1 + ... + (|V|-1)) * 2 = |R| * |V| * (|V|-1)].
    [BIG] is at least twice whatever the second sum is worth when the
    [assign] variables are within [0, 1], and strictly more than it as
    soon as there are two vertices. *)
Theorem objective_shape (g : Graph) (wmax : Q) (p : LpProblem) :
  _colouring_lpproblem g wmax = Ok p ->
  (1 <= length (relevants g))%nat
  /\ objective p
     = map (fun c => (inject_Z (BIG g), colorUsed c)) (range (order g))
       ++ flat_map
            (fun i => map (fun c => (inject_Z (Z.of_nat c), assign i c))
                          (range (order g)))
            (relevants g)
  /\ BIG g = (Z.of_nat (length (relevants g))
              * (Z.of_nat (order g) * (Z.of_nat (order g) - 1)))%Z
  /\ forall val,
       (forall i c, 0 <= val (name (assign i c)) <= 1) ->
       2 * value val (low_colour_term g) <= inject_Z (BIG g)
       /\ ((2 <= order g)%nat ->
           value val (low_colour_term g) < inject_Z (BIG g)).
Proof.
  intros Hb. apply build_inversion in Hb.
  destruct Hb as (_ & HR & _ & _ & _ & ->).
  assert (Hlen : (1 <= length (relevants g))%nat).
  { destruct (relevants g); [congruence | cbn; lia]. }
  assert (HBIG : BIG g = (Z.of_nat (length (relevants g))
                          * (Z.of_nat (order g) * (Z.of_nat (order g) - 1)))%Z).
  { unfold BIG. rewrite <- Z.mul_assoc. now rewrite sum_range. }
  split; [exact Hlen|]. split; [reflexivity|]. split; [exact HBIG|].
  intros val Hval.
  pose proof (rows_bound val (order g) (relevants g) Hval) as Hrows.
  fold (low_colour_term g) in Hrows.
  assert (E : inject_Z (BIG g)
              == 2 * inject_Z (Z.of_nat (length (relevants g)) * sum (range (order g)))).
  { unfold BIG. rewrite !inject_Z_mult. change (inject_Z 2) with 2. lra. }
  split; [lra|].
  intros Hn.
  assert (Hpos : 1 <= inject_Z (Z.of_nat (length (relevants g))
                                * sum (range (order g)))).
  { change 1 with (inject_Z 1). rewrite <- Zle_Qle.
    pose proof (sum_range (order g)) as Hs.
    assert (1 <= sum (range (order g)))%Z by nia. nia. }
  lra.
Qed.

(* ------------------------------------------------------------------ *)
(** * The entry point *)

(** ** Attribute defaults and clearing *)

Lemma colour_of_cleared (g : Graph) (i : nat) :
  colour_of (set_all_colour None g) i = None.
Proof.
  unfold colour_of, set_all_colour. cbn. rewrite nth_error_map.
  now destruct (nth_error (vs g) i).
Qed.

Lemma colour_of_set_all_relevant (x : bool) (g : Graph) (i : nat) :
  colour_of (set_all_relevant x g) i = colour_of g i.
Proof.
  unfold colour_of, set_all_relevant. cbn. rewrite nth_error_map.
  now destruct (nth_error (vs g) i).
Qed.

Lemma colour_of_set_all_weight (x : Q) (g : Graph) (i : nat) :
  colour_of (set_all_weight x g) i = colour_of g i.
Proof.
  unfold colour_of, set_all_weight. cbn. rewrite nth_error_map.
  now destruct (nth_error (vs g) i).
Qed.

Lemma colour_of_absent (g : Graph) (i : nat) :
  has_colour g = false -> colour_of g i = None.
Proof. unfold colour_of. now intros ->. Qed.

Lemma relevant_at_set_all_colour (x : option Z) (g : Graph) (i : nat) :
  relevant_at (set_all_colour x g) i = relevant_at g i.
Proof.
  unfold relevant_at, set_all_colour. cbn. rewrite nth_error_map.
  now destruct (nth_error (vs g) i).
Qed.

Lemma relevant_at_set_all_weight (x : Q) (g : Graph) (i : nat) :
  relevant_at (set_all_weight x g) i = relevant_at g i.
Proof.
  unfold relevant_at, set_all_weight. cbn. rewrite nth_error_map.
  now destruct (nth_error (vs g) i).
Qed.

Lemma default_colour_spec (g : Graph) :
  has_colour (default_colour g) = true
  /\ has_relevant (default_colour g) = has_relevant g
  /\ has_weight (default_colour g) = has_weight g
  /\ order (default_colour g) = order g
  /\ (forall i, colour_of (default_colour g) i = colour_of g i)
  /\ (forall i, relevant_at (default_colour g) i = relevant_at g i).
Proof.
  unfold default_colour, vs_colour. destruct (has_colour g) eqn:Hc.
  - repeat split; auto.
  - repeat split; auto.
    + unfold order. cbn. now rewrite length_map.
    + intros i. now rewrite colour_of_cleared, colour_of_absent.
    + intros i. apply relevant_at_set_all_colour.
Qed.

Lemma default_relevant_spec (g : Graph) :
  has_colour (default_relevant g) = has_colour g
  /\ has_relevant (default_relevant g) = true
  /\ has_weight (default_relevant g) = has_weight g
  /\ order (default_relevant g) = order g
  /\ (forall i, colour_of (default_relevant g) i = colour_of g i)
  /\ (has_relevant g = true ->
      forall i, relevant_at (default_relevant g) i = relevant_at g i).
Proof.
  unfold default_relevant, vs_relevant. destruct (has_relevant g) eqn:Hr.
  - repeat split; auto.
  - repeat split; auto.
    + unfold order. cbn. now rewrite length_map.
    + intros i. apply colour_of_set_all_relevant.
    + discriminate.
Qed.

Lemma default_weight_spec (g : Graph) :
  has_colour (default_weight g) = has_colour g
  /\ has_relevant (default_weight g) = has_relevant g
  /\ has_weight (default_weight g) = true
  /\ order (default_weight g) = order g
  /\ (forall i, colour_of (default_weight g) i = colour_of g i)
  /\ (forall i, relevant_at (default_weight g) i = relevant_at g i).
Proof.
  unfold default_weight, vs_weight. destruct (has_weight g) eqn:Hw.
  - repeat split; auto.
  - repeat split; auto.
    + unfold order. cbn. now rewrite length_map.
    + intros i. apply colour_of_set_all_weight.
    + intros i. apply relevant_at_set_all_weight.
Qed.

Lemma default_attributes_flags (g : Graph) :
  has_colour (default_attributes g) = true
  /\ has_relevant (default_attributes g) = true
  /\ has_weight (default_attributes g) = true
  /\ order (default_attributes g) = order g.
Proof.
  unfold default_attributes.
  destruct (default_weight_spec (default_relevant (default_colour g)))
    as (W1 & W2 & W3 & W4 & _).
  destruct (default_relevant_spec (default_colour g)) as (R1 & R2 & R3 & R4 & _).
  destruct (default_colour_spec g) as (C1 & C2 & C3 & C4 & _).
  repeat split; congruence.
Qed.

Lemma default_attributes_colour (g : Graph) (i : nat) :
  colour_of (default_attributes g) i = colour_of g i.
Proof.
  unfold default_attributes.
  destruct (default_weight_spec (default_relevant (default_colour g)))
    as (_ & _ & _ & _ & W & _).
  destruct (default_relevant_spec (default_colour g)) as (_ & _ & _ & _ & R & _).
  destruct (default_colour_spec g) as (_ & _ & _ & _ & C & _).
  now rewrite W, R, C.
Qed.

Lemma default_attributes_relevant (g : Graph) (i : nat) :
  has_relevant g = true ->
  relevant_at (default_attributes g) i = relevant_at g i.
Proof.
  intros Hr. unfold default_attributes.
  destruct (default_weight_spec (default_relevant (default_colour g)))
    as (_ & _ & _ & _ & _ & W).
  destruct (default_relevant_spec (default_colour g)) as (_ & _ & _ & _ & _ & R).
  destruct (default_colour_spec g) as (_ & C2 & _ & _ & _ & C).
  rewrite W, R, C; congruence.
Qed.

Lemma clear_unless_flags (preserve : bool) (g : Graph) :
  has_colour g = true ->
  has_colour (clear_unless preserve g) = true
  /\ has_relevant (clear_unless preserve g) = has_relevant g
  /\ has_weight (clear_unless preserve g) = has_weight g
  /\ order (clear_unless preserve g) = order g.
Proof.
  intros Hc. unfold clear_unless, order.
  destruct preserve; cbn; rewrite ?length_map; auto.
Qed.

Lemma clear_unless_relevant (preserve : bool) (g : Graph) (i : nat) :
  relevant_at (clear_unless preserve g) i = relevant_at g i.
Proof.
  unfold clear_unless. destruct preserve; cbn; [reflexivity|].
  apply relevant_at_set_all_colour.
Qed.

Lemma clear_unless_colour (preserve : bool) (g : Graph) (i : nat) :
  colour_of (clear_unless preserve g) i
  = if preserve then colour_of g i else None.
Proof.
  unfold clear_unless. destruct preserve; cbn; [reflexivity|].
  apply colour_of_cleared.
Qed.

Lemma default_wmax_bound (g : Graph) (wmax : option Q) :
  has_weight g = true -> default_wmax g wmax = Ok (capacity_bound g wmax).
Proof.
  intros Hw. unfold default_wmax, capacity_bound, vs_weight. rewrite Hw.
  now destruct (falsy wmax).
Qed.

(** ** Writing one colour *)

Lemma update_some {A : Type} (f : A -> A) (l : list A) (i : nat) :
  (i < length l)%nat ->
  exists l', update l i f = Some l' /\ length l' = length l /\
             forall j, nth_error l' j
                       = if (j =? i)%nat then option_map f (nth_error l i)
                         else nth_error l j.
Proof.
  revert i. induction l as [|a l IH]; intros i Hi; cbn in Hi; [lia|].
  destruct i as [|i].
  - exists (f a :: l). repeat split. intros [|j]; reflexivity.
  - destruct (IH i) as [l' [E [Hlen Hnth]]]; [lia|].
    exists (a :: l'). cbn. rewrite E. repeat split.
    + cbn. now rewrite Hlen.
    + intros [|j]; cbn; [reflexivity | apply Hnth].
Qed.

Lemma set_colour_spec (g : Graph) (i : nat) (c : Z) :
  has_colour g = true -> (i < order g)%nat ->
  exists g', set_colour g i c = Ok g'
             /\ has_colour g' = true /\ order g' = order g
             /\ forall j, colour_of g' j
                          = if (j =? i)%nat then Some c else colour_of g j.
Proof.
  intros Hc Hi. unfold set_colour. rewrite Hc.
  destruct (update_some
              (fun v => {| colour := Some c; relevant := relevant v;
                           weight := weight v |}) (vs g) i Hi)
    as [l' [E [Hlen Hnth]]].
  rewrite E. eexists. split; [reflexivity|]. repeat split.
  - exact Hlen.
  - intros j. unfold colour_of. cbn. rewrite Hc, Hnth.
    destruct (j =? i)%nat eqn:Eji; [|reflexivity].
    destruct (nth_error (vs g) i) eqn:Ev; [reflexivity|].
    apply nth_error_None in Ev. unfold order in Hi. lia.
Qed.

(** ** The names of the variables *)

Lemma append_nil_right (s : string) : (s ++ "")%string = s.
Proof. induction s as [|c s IH]; cbn; congruence. Qed.

Lemma append_assoc (a b c : string) :
  ((a ++ b) ++ c)%string = (a ++ (b ++ c))%string.
Proof. induction a as [|x a IH]; cbn; congruence. Qed.

Lemma translate_app (a b : string) :
  translate (a ++ b) = (translate a ++ translate b)%string.
Proof. induction a as [|x a IH]; cbn; congruence. Qed.

Lemma translate_digits (d : Decimal.uint) :
  translate (DecimalString.NilEmpty.string_of_uint d)
  = DecimalString.NilEmpty.string_of_uint d.
Proof. induction d; cbn; congruence. Qed.

Lemma str_of_nat (n : nat) : str (Z.of_nat n) = str_nat n.
Proof.
  unfold str. destruct (Z.of_nat n) eqn:E; try (rewrite <- E, Nat2Z.id; reflexivity).
  lia.
Qed.

Lemma to_uint_not_nil (n : nat) : Nat.to_uint n <> Decimal.Nil.
Proof.
  destruct n as [|n]; [discriminate|]. intros E.
  pose proof (DecimalNat.Unsigned.of_to (S n)) as H. rewrite E in H. discriminate.
Qed.

Lemma int_str_nat (n : nat) : int (str_nat n) = Ok (Z.of_nat n).
Proof.
  unfold int, str_nat.
  replace (DecimalString.NilEmpty.string_of_uint (Nat.to_uint n))
    with (DecimalString.NilZero.string_of_uint (Nat.to_uint n)).
  - rewrite DecimalString.NilZero.usu by apply to_uint_not_nil.
    now rewrite DecimalNat.Unsigned.of_to.
  - pose proof (to_uint_not_nil n). now destruct (Nat.to_uint n).
Qed.

Lemma drop_last_app (s : string) (c : ascii) :
  drop_last (s ++ String c "") = s.
Proof.
  induction s as [|x s IH]; [reflexivity|].
  cbn [append drop_last]. rewrite IH.
  destruct s; reflexivity.
Qed.

Lemma split_from_step (a b x : ascii) (cur s : string) :
  Ascii.eqb x a = false -> s <> ""%string ->
  split_from a b cur (String x s) = split_from a b (cur ++ String x "") s.
Proof.
  intros E Hs. destruct s as [|y s]; [congruence|]. cbn. now rewrite E.
Qed.

Lemma split_from_digits_then (d : Decimal.uint) (cur rest : string) :
  split_from "," "_" cur
    (DecimalString.NilEmpty.string_of_uint d ++ String "," (String "_" rest))
  = (cur ++ DecimalString.NilEmpty.string_of_uint d)%string
    :: split_from "," "_" "" rest.
Proof.
  revert cur. induction d; intros cur;
    cbn [DecimalString.NilEmpty.string_of_uint append];
    try (rewrite split_from_step;
         [ rewrite IHd, append_assoc; reflexivity
         | reflexivity
         | destruct d; discriminate ]).
  cbn. now rewrite append_nil_right.
Qed.

Lemma split_from_digits (d : Decimal.uint) (cur : string) :
  split_from "," "_" cur (DecimalString.NilEmpty.string_of_uint d)
  = [(cur ++ DecimalString.NilEmpty.string_of_uint d)%string].
Proof.
  revert cur. induction d; intros cur;
    cbn [DecimalString.NilEmpty.string_of_uint];
    try (destruct d;
         [ reflexivity
         | rewrite split_from_step;
           [ rewrite IHd, append_assoc; reflexivity
           | reflexivity
           | discriminate ] .. ]).
  cbn. now rewrite append_nil_right.
Qed.

Lemma find_in_node_name (rest : string) :
  find ("Node_Colour_variable_x(i,c)_(" ++ rest) "_(" = 27%Z.
Proof. unfold find. cbn [append]. destruct rest; reflexivity. Qed.

(** The name of [assign[i,c]] for a candidate colour, letter by letter. *)
Lemma node_name_spelled (i c : nat) :
  Node_Colour_variable_x i (Z.of_nat c)
  = ("Node_Colour_variable_x(i,c)_(" ++ str_nat i ++ ",_" ++ str_nat c ++ ")")%string.
Proof.
  unfold Node_Colour_variable_x, dicts_name, str_pair. cbn [fst snd].
  rewrite !str_of_nat.
  change ("Node Colour variable x(i,c)" ++ "_"
          ++ "(" ++ str_nat i ++ ", " ++ str_nat c ++ ")")%string
    with ("Node Colour variable x(i,c)_(" ++ (str_nat i ++ (", " ++ (str_nat c ++ ")"))))%string.
  rewrite !translate_app. unfold str_nat. rewrite !translate_digits.
  reflexivity.
Qed.

Lemma read_node_name (i c : nat) :
  read_name (Node_Colour_variable_x i (Z.of_nat c))
  = Ok (Z.of_nat i, Z.of_nat c).
Proof.
  rewrite node_name_spelled. unfold read_name.
  rewrite find_in_node_name. change (27 + 2)%Z with 29%Z.
  assert (Es : slice_to_last 29
                 ("Node_Colour_variable_x(i,c)_(" ++ str_nat i ++ ",_"
                  ++ str_nat c ++ ")")
               = (str_nat i ++ ",_" ++ str_nat c)%string).
  { unfold slice_to_last. change (Z.to_nat 29) with 29%nat.
    cbn [drop append].
    change (str_nat i ++ String "," (String "_" (str_nat c ++ ")")))%string
      with (str_nat i ++ ((",_" ++ str_nat c) ++ ")"))%string.
    rewrite <- append_assoc. apply drop_last_app. }
  rewrite Es. unfold split, str_nat.
  cbn [append]. rewrite split_from_digits_then, split_from_digits.
  cbn [append for_each]. fold (str_nat i). fold (str_nat c).
  rewrite !int_str_nat. reflexivity.
Qed.

Lemma is_node_node (i : nat) (k : Z) : is_node (Node_Colour_variable_x i k) = true.
Proof. reflexivity. Qed.

Lemma is_node_colour (k : Z) : is_node (Colour_variable_x k) = false.
Proof. reflexivity. Qed.

Lemma node_of_assign (i c : nat) :
  node_of (name (assign i c)) = Some (i, Z.of_nat c).
Proof.
  unfold assign, node_of. cbn [name binary].
  rewrite is_node_node, read_node_name. now rewrite Nat2Z.id.
Qed.

Lemma node_of_colorUsed (c : nat) : node_of (name (colorUsed c)) = None.
Proof. unfold colorUsed, node_of. cbn [name binary]. now rewrite is_node_colour. Qed.

(** ** The loop over the variables *)

Lemma final_colour_cons (epsilon : Q) (val : VarName -> Q) (var : LpVariable)
    (vars : list LpVariable) (j : nat) (init : option Z) :
  final_colour epsilon val (var :: vars) j init
  = final_colour epsilon val vars j
      (match node_of (name var) with
       | Some (i, c) =>
           if (i =? j)%nat && negb (Qle_bool (val (name var)) epsilon)
           then Some c else init
       | None => init
       end).
Proof. reflexivity. Qed.

(** No variable of vertex [j] is above the tolerance: the colour stays. *)
Lemma final_colour_untouched (epsilon : Q) (val : VarName -> Q)
    (vars : list LpVariable) (j : nat) (init : option Z) :
  (forall var c, In var vars -> node_of (name var) = Some (j, c) ->
                 Qle_bool (val (name var)) epsilon = true) ->
  final_colour epsilon val vars j init = init.
Proof.
  revert init. induction vars as [|var vars IH]; intros init H.
  - reflexivity.
  - rewrite final_colour_cons.
    rewrite IH by (intros var' c H1 H2; apply (H var' c); [now right | exact H2]).
    destruct (node_of (name var)) as [[i c]|] eqn:En; [|reflexivity].
    destruct (i =? j)%nat eqn:Eij; [|reflexivity].
    apply Nat.eqb_eq in Eij. subst i.
    now rewrite (H var c (or_introl eq_refl) En).
Qed.

(** The variables of vertex [j] above the tolerance all carry colour [c],
    and there is one: the colour ends as [c]. *)
Lemma final_colour_written (epsilon : Q) (val : VarName -> Q)
    (vars : list LpVariable) (j : nat) (c : Z) (init : option Z) :
  (forall var c', In var vars -> node_of (name var) = Some (j, c') ->
                  Qle_bool (val (name var)) epsilon = false -> c' = c) ->
  (init = Some c \/
   exists var, In var vars /\ node_of (name var) = Some (j, c) /\
               Qle_bool (val (name var)) epsilon = false) ->
  final_colour epsilon val vars j init = Some c.
Proof.
  revert init. induction vars as [|var vars IH]; intros init Hu Hw.
  - destruct Hw as [Hw | [var [[] _]]]. exact Hw.
  - rewrite final_colour_cons. apply IH.
    + intros var' c' H1. apply Hu. now right.
    + destruct (node_of (name var)) as [[i c0]|] eqn:En.
      * destruct (i =? j)%nat eqn:Eij; cbn [andb].
        -- apply Nat.eqb_eq in Eij. subst i.
           destruct (Qle_bool (val (name var)) epsilon) eqn:Ev; cbn [negb].
           ++ destruct Hw as [Hw | [var' [[<- | Hin] [Hn Hv]]]].
              ** now left.
              ** congruence.
              ** right. exists var'. auto.
           ++ left. f_equal. apply (Hu var c0); [now left | exact En | exact Ev].
        -- destruct Hw as [Hw | [var' [[<- | Hin] [Hn Hv]]]].
           ++ now left.
           ++ rewrite En in Hn. inversion Hn. subst.
              rewrite Nat.eqb_refl in Eij. discriminate.
           ++ right. exists var'. auto.
      * destruct Hw as [Hw | [var' [[<- | Hin] [Hn Hv]]]].
        -- now left.
        -- congruence.
        -- right. exists var'. auto.
Qed.

(** The colour the loop leaves is the one it starts with or the colour of
    a variable of vertex [j] above the tolerance. *)
Lemma final_colour_cases (epsilon : Q) (val : VarName -> Q)
    (vars : list LpVariable) (j : nat) (init : option Z) :
  final_colour epsilon val vars j init = init
  \/ exists var c, In var vars /\ node_of (name var) = Some (j, c)
                   /\ Qle_bool (val (name var)) epsilon = false
                   /\ final_colour epsilon val vars j init = Some c.
Proof.
  revert init. induction vars as [|var vars IH]; intros init.
  - now left.
  - rewrite final_colour_cons.
    destruct (IH (match node_of (name var) with
                  | Some (i, c) =>
                      if (i =? j)%nat
                         && negb (Qle_bool (val (name var)) epsilon)
                      then Some c else init
                  | None => init
                  end)) as [E | [var' [c [Hin [Hn [Hv E]]]]]].
    + rewrite E. destruct (node_of (name var)) as [[i c]|] eqn:En; [|now left].
      destruct (i =? j)%nat eqn:Eij; cbn [andb]; [|now left].
      destruct (Qle_bool (val (name var)) epsilon) eqn:Ev; cbn [negb]; [now left|].
      apply Nat.eqb_eq in Eij. subst i.
      right. exists var, c. repeat split; auto. now left.
    + right. exists var', c. repeat split; auto. now right.
Qed.

(** With a variable of vertex [j] above the tolerance, the colour the
    loop leaves is the colour of such a variable. *)
Lemma final_colour_writer (epsilon : Q) (val : VarName -> Q)
    (vars : list LpVariable) (j : nat) (init : option Z) :
  (exists var c, In var vars /\ node_of (name var) = Some (j, c)
                 /\ Qle_bool (val (name var)) epsilon = false) ->
  exists var c, In var vars /\ node_of (name var) = Some (j, c)
                /\ Qle_bool (val (name var)) epsilon = false
                /\ final_colour epsilon val vars j init = Some c.
Proof.
  revert init. induction vars as [|var vars IH];
    intros init [w [c [Hin [Hn Hv]]]].
  - destruct Hin.
  - rewrite final_colour_cons. destruct Hin as [<- | Hin].
    + rewrite Hn, Nat.eqb_refl, Hv. cbn [andb negb].
      destruct (final_colour_cases epsilon val vars j (Some c))
        as [E | [var' [c' [Hin' [Hn' [Hv' E]]]]]].
      * exists var, c. repeat split; auto. now left.
      * exists var', c'. repeat split; auto. now right.
    + destruct (IH (match node_of (name var) with
                    | Some (i, c0) =>
                        if (i =? j)%nat
                           && negb (Qle_bool (val (name var)) epsilon)
                        then Some c0 else init
                    | None => init
                    end)) as [var' [c' [Hin' [Hn' [Hv' E]]]]].
      { exists w, c. auto. }
      exists var', c'. repeat split; auto. now right.
Qed.

(** ** The variables of the built problem *)

Lemma occurring_cases (g : Graph) (wmax : Q) (var : LpVariable) :
  forallb (preset_ok g) (enumerate (vs g)) = true ->
  In var (occurring (problem_of g wmax)) ->
  (exists c, (c < order g)%nat /\ var = colorUsed c)
  \/ (exists i k, In i (relevants g) /\ candidate g k = true
                  /\ var = binary (Node_Colour_variable_x i k)).
Proof.
  intros Hpre Hin.
  assert (Hassign : forall i c, In i (relevants g) -> In c (range (order g)) ->
            exists i' k, In i' (relevants g) /\ candidate g k = true
                         /\ assign i c = binary (Node_Colour_variable_x i' k)).
  { intros i c Hi Hc. exists i, (Z.of_nat c). split; [exact Hi|].
    split; [|reflexivity]. apply candidate_of_nat. now apply in_range. }
  apply occurring_written in Hin.
  cbn [objective constraints problem_of] in Hin.
  rewrite map_app, !flat_map_app in Hin.
  repeat (apply in_app_or in Hin; destruct Hin as [Hin|Hin]).
  - unfold colour_count_term in Hin. rewrite map_map in Hin.
    apply in_map_iff in Hin. destruct Hin as [c [<- Hc]].
    left. exists c. split; [now apply in_range | reflexivity].
  - unfold low_colour_term in Hin. rewrite map_flat_map in Hin.
    apply in_flat_map in Hin. destruct Hin as [i [Hi Hin]].
    rewrite map_map in Hin. apply in_map_iff in Hin. destruct Hin as [c [<- Hc]].
    right. now apply Hassign.
  - apply in_flat_map in Hin. destruct Hin as [k [Hk Hin]].
    apply in_map_iff in Hk. destruct Hk as [i [<- Hi]].
    unfold exactly_one in Hin. cbn [lhs eq_constraint] in Hin.
    rewrite map_map in Hin. apply in_map_iff in Hin. destruct Hin as [c [<- Hc]].
    right. now apply Hassign.
  - apply in_flat_map in Hin. destruct Hin as [k [Hk Hin]].
    apply in_flat_map in Hk. destruct Hk as [e [He Hk]].
    destruct (contains (source e) (relevants g)) eqn:Es; [|destruct Hk].
    destruct (contains (target e) (relevants g)) eqn:Et; [|destruct Hk].
    cbn [andb] in Hk. apply in_map_iff in Hk. destruct Hk as [c [<- Hc]].
    apply contains_in in Es, Et. right.
    destruct Hin as [<- | [<- | []]]; now apply Hassign.
  - apply in_flat_map in Hin. destruct Hin as [k [Hk Hin]].
    apply in_map_iff in Hk. destruct Hk as [c [<- Hc]].
    unfold capacity in Hin. cbn [lhs le_constraint] in Hin.
    rewrite map_map in Hin. apply in_map_iff in Hin. destruct Hin as [i [<- Hi]].
    right. now apply Hassign.
  - apply in_flat_map in Hin. destruct Hin as [k [Hk Hin]].
    apply in_flat_map in Hk. destruct Hk as [i [Hi Hk]].
    apply in_map_iff in Hk. destruct Hk as [c [<- Hc]].
    destruct Hin as [<- | [<- | []]].
    + left. exists c. split; [now apply in_range | reflexivity].
    + right. now apply Hassign.
  - apply in_flat_map in Hin. destruct Hin as [k [Hk Hin]].
    apply in_flat_map in Hk. destruct Hk as [iv [Hiv Hk]].
    rewrite forallb_forall in Hpre. specialize (Hpre iv Hiv).
    unfold persistence_at in Hk. unfold preset_ok in Hpre.
    destruct (colour (snd iv)) as [k0|]; [|destruct Hk].
    destruct (contains (fst iv) (relevants g)) eqn:Ei; [|destruct Hk].
    cbn [negb orb] in Hpre. destruct Hk as [<- | []].
    destruct Hin as [<- | []]. apply contains_in in Ei.
    right. exists (fst iv), k0. auto.
Qed.

Lemma Qle_bool_false (x y : Q) : Qle_bool x y = false <-> y < x.
Proof.
  split.
  - intros H. apply Qnot_le_lt. intros Hle. apply Qle_bool_iff in Hle. congruence.
  - intros H. destruct (Qle_bool x y) eqn:E; [|reflexivity].
    apply Qle_bool_iff in E. lra.
Qed.

Lemma occurring_node (g : Graph) (wmax : Q) (var : LpVariable) :
  forallb (preset_ok g) (enumerate (vs g)) = true ->
  In var (occurring (problem_of g wmax)) ->
  is_node (name var) = true ->
  exists i c, In i (relevants g) /\ (c < order g)%nat /\ var = assign i c.
Proof.
  intros Hpre Hin Hn.
  destruct (occurring_cases g wmax var Hpre Hin)
    as [[c [_ ->]] | [i [k [Hi [Hk ->]]]]].
  - unfold colorUsed in Hn. cbn [name binary] in Hn.
    rewrite is_node_colour in Hn. discriminate.
  - apply candidate_spec in Hk. destruct Hk as [c [Hc ->]]. now exists i, c.
Qed.

Lemma occurring_node_of (g : Graph) (wmax : Q) (var : LpVariable)
    (j : nat) (k : Z) :
  forallb (preset_ok g) (enumerate (vs g)) = true ->
  In var (occurring (problem_of g wmax)) ->
  node_of (name var) = Some (j, k) ->
  In j (relevants g)
  /\ exists c, (c < order g)%nat /\ k = Z.of_nat c /\ var = assign j c.
Proof.
  intros Hpre Hin Hn.
  assert (Hnode : is_node (name var) = true).
  { unfold node_of in Hn. now destruct (is_node (name var)). }
  destruct (occurring_node g wmax var Hpre Hin Hnode) as [i [c [Hi [Hc ->]]]].
  rewrite node_of_assign in Hn. inversion Hn; subst.
  split; [exact Hi|]. now exists c.
Qed.

(** ** The loop over the variables *)

Lemma named_dummy (var : LpVariable) :
  (name var =? "__dummy")%string = true -> node_of (name var) = None.
Proof. intros E. apply String.eqb_eq in E. now rewrite E. Qed.

(** The variables of the built problem come before [__dummy]. *)
Lemma before_dummy (g : Graph) (wmax : Q) (var : LpVariable) :
  forallb (preset_ok g) (enumerate (vs g)) = true ->
  In var (occurring (problem_of g wmax)) ->
  String.leb "__dummy" (name var) = false.
Proof.
  intros Hpre Hin.
  destruct (occurring_cases g wmax var Hpre Hin)
    as [[c [_ ->]] | [i [k [_ [_ ->]]]]]; reflexivity.
Qed.

Lemma not_named_dummy (var : LpVariable) :
  String.leb "__dummy" (name var) = false ->
  (name var =? "__dummy")%string = false.
Proof.
  intros H. destruct (name var =? "__dummy")%string eqn:E; [|reflexivity].
  apply String.eqb_eq in E. rewrite E in H. discriminate.
Qed.

(** In a list sorted by name, only variables named [__dummy] follow one. *)
Lemma after_dummy (v : LpVariable) (l : list LpVariable) :
  Sorted by_name (v :: l) -> (name v =? "__dummy")%string = true ->
  (forall u, In u l ->
     u = dummy \/ String.leb "__dummy" (name u) = false) ->
  forall u, In u l -> (name u =? "__dummy")%string = true.
Proof.
  revert v. induction l as [|w l IH]; intros v Hs Hv Hl u Hu; [destruct Hu|].
  apply Sorted_inv in Hs. destruct Hs as [Hs Hd].
  assert (Hw : (name w =? "__dummy")%string = true).
  { destruct (Hl w (or_introl eq_refl)) as [-> | Hw]; [reflexivity|].
    apply HdRel_inv in Hd. unfold by_name in Hd.
    apply String.eqb_eq in Hv. rewrite Hv in Hd. congruence. }
  destruct Hu as [<- | Hu]; [exact Hw|].
  apply (IH w Hs Hw); [|exact Hu]. intros x Hx. apply Hl. now right.
Qed.

(** The loop over a sorted list: every variable before [__dummy] is
    handled, and [__dummy], if listed, ends the loop with a [TypeError]. *)
Lemma write_colours_sorted (epsilon : Q) (val : VarName -> Q)
    (vars : list LpVariable) (g : Graph) :
  has_colour g = true ->
  Sorted by_name vars ->
  (forall var, In var vars ->
     var = dummy
     \/ (String.leb "__dummy" (name var) = false
         /\ (is_node (name var) = true ->
             exists i c, read_name (name var) = Ok (Z.of_nat i, c)
                         /\ (i < order g)%nat))) ->
  exists g',
    write_colours epsilon val vars g
    = ((if existsb (fun v => (name v =? "__dummy")%string) vars
        then Raise TypeError else Ok tt), g')
    /\ forall j, colour_of g' j
                 = final_colour epsilon val vars j (colour_of g j).
Proof.
  revert g. induction vars as [|var vars IH]; intros g Hc Hs Hin.
  - exists g. split; reflexivity.
  - cbn [write_colours existsb]. unfold varValue.
    assert (Hin' : forall var', In var' vars ->
              var' = dummy
              \/ (String.leb "__dummy" (name var') = false
                  /\ (is_node (name var') = true ->
                      exists i c, read_name (name var') = Ok (Z.of_nat i, c)
                                  /\ (i < order g)%nat)))
      by (intros var' H; apply Hin; now right).
    destruct (name var =? "__dummy")%string eqn:Ed; cbn [orb].
    + exists g. split; [reflexivity|]. intros j. symmetry.
      apply final_colour_untouched. intros var' c [<- | Hv] Hn.
      * rewrite (named_dummy var Ed) in Hn. discriminate.
      * assert (E : (name var' =? "__dummy")%string = true).
        { apply (after_dummy var vars Hs Ed); [|exact Hv].
          intros u Hu. destruct (Hin' u Hu) as [-> | [H _]]; auto. }
        rewrite (named_dummy var' E) in Hn. discriminate.
    + destruct (Hin var (or_introl eq_refl)) as [-> | [_ Hnode]];
        [discriminate|].
      apply Sorted_inv in Hs. destruct Hs as [Hs _].
      destruct (is_node (name var)) eqn:En.
      * destruct (Hnode eq_refl) as [i [c [Er Hi]]].
        assert (Eno : node_of (name var) = Some (i, c))
          by (unfold node_of; now rewrite En, Er, Nat2Z.id).
        destruct (negb (Qle_bool (val (name var)) epsilon)) eqn:Ew; cbn [andb].
        -- rewrite Er, Nat2Z.id.
           destruct (set_colour_spec g i c Hc Hi) as [g1 [E1 [Hc1 [Ho1 Hcol]]]].
           rewrite E1. destruct (IH g1 Hc1 Hs) as [g' [E' Hfin]].
           { intros var' H1. rewrite Ho1. now apply Hin'. }
           exists g'. split; [exact E'|]. intros j.
           rewrite Hfin, Hcol, final_colour_cons, Eno, Ew.
           rewrite Nat.eqb_sym. destruct (i =? j)%nat; reflexivity.
        -- destruct (IH g Hc Hs Hin') as [g' [E' Hfin]].
           exists g'. split; [exact E'|]. intros j.
           rewrite Hfin, final_colour_cons, Eno, Ew. now rewrite andb_false_r.
      * rewrite andb_false_r.
        destruct (IH g Hc Hs Hin') as [g' [E' Hfin]].
        exists g'. split; [exact E'|]. intros j.
        rewrite Hfin, final_colour_cons. unfold node_of. now rewrite En.
Qed.

Lemma variables_of_app (e1 e2 : LpAffineExpression) :
  variables_of (e1 ++ e2) = variables_of e1 ++ variables_of e2.
Proof. unfold variables_of. now rewrite filter_app, map_app. Qed.

Lemma variables_of_zero_row (i : nat) :
  variables_of (map (fun c => (inject_Z (Z.of_nat c), assign i c)) (range 1)) = [].
Proof. reflexivity. Qed.

(** The objective of the built problem has no variable exactly on a
    graph with one vertex. *)
Lemma constant_objective (g : Graph) (wmax : Q) :
  relevants g <> [] ->
  constant (objective (problem_of g wmax)) = (order g =? 1)%nat.
Proof.
  intros HR. cbn [objective problem_of]. unfold constant.
  rewrite variables_of_app.
  destruct (relevants g) as [|r R] eqn:ER; [congruence|].
  assert (Hr : In r (relevants g)) by (rewrite ER; now left).
  pose proof (proj1 (proj1 (in_relevants g r) Hr)) as Hlt.
  destruct (order g) as [|[|n]] eqn:En; [lia | |].
  - assert (H1 : variables_of (colour_count_term g) = []).
    { unfold colour_count_term, BIG. rewrite En.
      change (sum (range 1)) with 0%Z. rewrite Z.mul_0_r. reflexivity. }
    assert (H2 : variables_of (low_colour_term g) = []).
    { unfold low_colour_term. rewrite En. generalize (relevants g).
      induction l as [|i l IH]; [reflexivity|].
      cbn [flat_map]. rewrite variables_of_app, IH. reflexivity. }
    now rewrite H1, H2.
  - assert (HB : ~ inject_Z (BIG g) == 0).
    { intros E. assert (HB : (2 <= BIG g)%Z).
      { unfold BIG. pose proof (sum_range (order g)) as Hs. rewrite ER, En in *.
        cbn [length]. assert (1 <= sum (range (S (S n))))%Z by nia. nia. }
      rewrite Zle_Qle in HB. change (inject_Z 2) with 2 in HB. lra. }
    unfold colour_count_term. rewrite En. unfold range. cbn [seq map].
    unfold variables_of at 1. cbn [filter fst].
    destruct (Qeq_bool (inject_Z (BIG g)) 0) eqn:E.
    + apply Qeq_bool_iff in E. contradiction.
    + reflexivity.
Qed.

(** ** A sorted list of the variables *)

Lemma insert_by_name_in (v u : LpVariable) (l : list LpVariable) :
  In u (insert_by_name v l) <-> u = v \/ In u l.
Proof.
  induction l as [|w l IH]; cbn [insert_by_name].
  - cbn. intuition congruence.
  - destruct (String.leb (name v) (name w)); cbn [In]; [intuition congruence|].
    rewrite IH. intuition congruence.
Qed.

Lemma insert_by_name_sorted (v : LpVariable) (l : list LpVariable) :
  Sorted by_name l -> Sorted by_name (insert_by_name v l).
Proof.
  induction l as [|w l IH]; intros Hs; cbn [insert_by_name].
  - repeat constructor.
  - destruct (String.leb (name v) (name w)) eqn:E.
    + constructor; [exact Hs | constructor; exact E].
    + apply Sorted_inv in Hs. destruct Hs as [Hs Hd].
      constructor; [now apply IH|].
      assert (Hwv : by_name w v).
      { unfold by_name. destruct (String.leb_total (name w) (name v)); congruence. }
      destruct l as [|x l]; cbn [insert_by_name]; [now constructor|].
      destruct (String.leb (name v) (name x)); constructor;
        [exact Hwv | now apply HdRel_inv in Hd].
Qed.

Lemma sort_by_name_in (v : LpVariable) (l : list LpVariable) :
  In v (sort_by_name l) <-> In v l.
Proof.
  induction l as [|w l IH]; cbn [sort_by_name fold_right]; [reflexivity|].
  fold (sort_by_name l). rewrite insert_by_name_in, IH. cbn. intuition congruence.
Qed.

Lemma sort_by_name_sorted (l : list LpVariable) : Sorted by_name (sort_by_name l).
Proof.
  induction l as [|w l IH]; cbn [sort_by_name fold_right]; [constructor|].
  now apply insert_by_name_sorted.
Qed.

(** [listing] is a list [p.variables()] may return. *)
Lemma listing_lists (p : LpProblem) : lists p (listing p).
Proof.
  split; [apply sort_by_name_sorted|]. intros v. unfold listing.
  rewrite sort_by_name_in, nodup_In, in_app_iff.
  destruct (constant (objective p)); cbn; intuition congruence.
Qed.

(** ** One call of [coloring] *)

Section Calls.

Variable solve : LpProblem -> Z * (VarName -> Q).
Variable variables : LpProblem -> list LpVariable.

(** [p.variables()] lists the variables of [p], and [__dummy] when the
    objective is constant, sorted by name. *)
Hypothesis variables_listed : forall p, lists p (variables p).

Lemma occurring_listed (p : LpProblem) (v : LpVariable) :
  In v (occurring p) -> In v (variables p).
Proof. intros H. apply (proj2 (variables_listed p)). now left. Qed.

Lemma listed_node (p : LpProblem) (var : LpVariable) (j : nat) (k : Z) :
  In var (variables p) -> node_of (name var) = Some (j, k) ->
  In var (occurring p).
Proof.
  intros Hin Hn. apply (proj2 (variables_listed p)) in Hin.
  destruct Hin as [Hin | [_ ->]]; [exact Hin|]. discriminate.
Qed.

(** [__dummy] is listed exactly on a graph with one vertex. *)
Lemma listed_dummy (g : Graph) (w : Q) :
  forallb (preset_ok g) (enumerate (vs g)) = true ->
  relevants g <> [] ->
  existsb (fun v => (name v =? "__dummy")%string) (variables (problem_of g w))
  = (order g =? 1)%nat.
Proof.
  intros Hpre HR. rewrite <- (constant_objective g w HR).
  destruct (variables_listed (problem_of g w)) as [_ Hmem].
  destruct (existsb _ (variables (problem_of g w))) eqn:E.
  - apply existsb_exists in E. destruct E as [v [Hv Ev]].
    apply Hmem in Hv. destruct Hv as [Hv | [Hc _]]; [|now rewrite Hc].
    apply (before_dummy g w v Hpre), not_named_dummy in Hv. congruence.
  - destruct (constant (objective (problem_of g w))) eqn:Ec; [|reflexivity].
    assert (Hd : In dummy (variables (problem_of g w)))
      by (apply Hmem; right; now split).
    assert (Ex : existsb (fun v => (name v =? "__dummy")%string)
                   (variables (problem_of g w)) = true)
      by (apply existsb_exists; exists dummy; now split).
    congruence.
Qed.

Lemma coloring_raises (g : Graph) (wmax : option Q) (preserve : bool) (e : exn) :
  _colouring_lpproblem (clear_unless preserve (default_attributes g))
    (capacity_bound (default_attributes g) wmax) = Raise e ->
  coloring solve variables g wmax preserve
  = (Raise e, clear_unless preserve (default_attributes g)).
Proof.
  intros Hb. unfold coloring.
  destruct (default_attributes_flags g) as (_ & _ & Hw & _).
  rewrite (default_wmax_bound _ wmax Hw). now rewrite Hb.
Qed.

(** A call whose problem is built: on status 1 every variable of the
    problem is handled, in the order of the list, and the call returns 1
    unless [__dummy] is listed, which is on a graph with one vertex; there
    it raises [TypeError] after the others are handled. *)
Lemma coloring_returns (g : Graph) (wmax : option Q) (preserve : bool)
    (p : LpProblem) (status : Z) (val : VarName -> Q) :
  _colouring_lpproblem (clear_unless preserve (default_attributes g))
    (capacity_bound (default_attributes g) wmax) = Ok p ->
  solve p = (status, val) ->
  if (status =? 1)%Z
  then exists g',
      coloring solve variables g wmax preserve
      = ((if (order g =? 1)%nat then Raise TypeError else Ok 1%Z), g')
      /\ forall j, colour_of g' j
                   = final_colour (1 # 2) val (variables p) j
                       (colour_of (clear_unless preserve (default_attributes g)) j)
  else coloring solve variables g wmax preserve
       = (Ok 0%Z, clear_unless preserve (default_attributes g)).
Proof.
  intros Hb Hs. unfold coloring.
  destruct (default_attributes_flags g) as (Hc & _ & Hw & Ho).
  rewrite (default_wmax_bound _ wmax Hw), Hb, Hs.
  destruct (status =? 1)%Z; cbn [negb]; [|reflexivity].
  destruct (clear_unless_flags preserve _ Hc) as (Hc' & _ & _ & Ho').
  pose proof (build_inversion _ _ _ Hb) as (_ & HR & _ & _ & Hpre & ->).
  destruct (write_colours_sorted (1 # 2) val (variables (problem_of
              (clear_unless preserve (default_attributes g))
              (capacity_bound (default_attributes g) wmax)))
              (clear_unless preserve (default_attributes g)) Hc')
    as [g' [E Hfin]].
  - apply variables_listed.
  - intros var Hin. apply (proj2 (variables_listed _)) in Hin.
    destruct Hin as [Hin | [_ ->]]; [right | now left].
    split; [now apply (before_dummy _ _ _ Hpre Hin)|]. intros Hn.
    destruct (occurring_node _ _ _ Hpre Hin Hn) as [i [c [Hi [_ ->]]]].
    exists i, (Z.of_nat c). split; [apply read_node_name|].
    now apply relevant_in_order.
  - rewrite E, (listed_dummy _ _ Hpre HR), Ho', Ho.
    exists g'. split; [|exact Hfin]. now destruct (order g =? 1)%nat.
Qed.

(** The variables of a vertex outside [R] do not exist: the loop leaves
    its colour alone. *)
Lemma final_colour_outside (g : Graph) (w : Q) (val : VarName -> Q)
    (j : nat) (init : option Z) :
  forallb (preset_ok g) (enumerate (vs g)) = true ->
  ~ In j (relevants g) ->
  final_colour (1 # 2) val (variables (problem_of g w)) j init = init.
Proof.
  intros Hpre Hj. apply final_colour_untouched. intros var c Hin Hn.
  apply (listed_node _ _ _ _ Hin) in Hn as Hocc.
  destruct (occurring_node_of _ _ _ _ _ Hpre Hocc Hn) as [Hi _].
  contradiction.
Qed.

(** One colour of vertex [i] above the tolerance: the loop writes it. *)
Lemma final_colour_unique (g : Graph) (w : Q) (val : VarName -> Q)
    (i c : nat) (init : option Z) :
  forallb (preset_ok g) (enumerate (vs g)) = true ->
  In i (relevants g) -> (c < order g)%nat ->
  1 # 2 < val (name (assign i c)) ->
  (forall c', (c' < order g)%nat -> 1 # 2 < val (name (assign i c')) -> c' = c) ->
  final_colour (1 # 2) val (variables (problem_of g w)) i init
  = Some (Z.of_nat c).
Proof.
  intros Hpre Hi Hc Hv Hu. apply final_colour_written.
  - intros var k Hin Hn Hval.
    apply (listed_node _ _ _ _ Hin) in Hn as Hocc.
    destruct (occurring_node_of _ _ _ _ _ Hpre Hocc Hn)
      as [_ [c' [Hc' [-> ->]]]].
    f_equal. apply Hu; [exact Hc'|]. now apply Qle_bool_false.
  - right. exists (assign i c). split; [|split].
    + apply occurring_listed. now apply assign_occurs.
    + apply node_of_assign.
    + now apply Qle_bool_false.
Qed.

End Calls.

(** ** Graphs the builder refuses *)

Lemma filter_none {A : Type} (f : A -> bool) (l : list A) :
  (forall a, In a l -> f a = false) -> filter f l = [].
Proof.
  induction l as [|a l IH]; intros H; cbn.
  - reflexivity.
  - rewrite (H a (or_introl eq_refl)). apply IH. intros x Hx. apply H. now right.
Qed.

Lemma forallb_witness {A : Type} (f : A -> bool) (l : list A) (a : A) :
  In a l -> f a = false -> forallb f l = false.
Proof.
  intros Hin Hf. destruct (forallb f l) eqn:E; [|reflexivity].
  rewrite forallb_forall in E. rewrite (E a Hin) in Hf. discriminate.
Qed.

Lemma outcome_no_relevant (g : Graph) (wmax : Q) :
  has_relevant g = true \/ vs g = [] -> relevants g = [] ->
  outcome g wmax = Raise SyntaxError.
Proof.
  intros Hr HR. unfold outcome. destruct (vs g) as [|v l]; [reflexivity|].
  destruct Hr as [Hr|Hr]; [|discriminate]. now rewrite Hr, HR.
Qed.

Lemma outcome_bad_preset (g : Graph) (wmax : Q) (i : nat) (v : Vertex) (k : Z) :
  has_relevant g = true -> has_weight g = true -> has_colour g = true ->
  nth_error (vs g) i = Some v -> relevant v = true -> colour v = Some k ->
  candidate g k = false ->
  outcome g wmax = Raise KeyError.
Proof.
  intros Hr Hw Hc Hv Hrel Hk Hcand. unfold outcome.
  destruct (vs g) as [|v0 l] eqn:Evs; [destruct i; discriminate|].
  rewrite <- Evs in *. rewrite Hr, Hw, Hc. cbn [negb].
  assert (Hi : In i (relevants g)).
  { apply in_relevants. split.
    - unfold order. apply nth_error_Some. congruence.
    - unfold relevant_at. now rewrite Hv. }
  destruct (relevants g) as [|r0 R] eqn:ER; [destruct Hi|]. rewrite <- ER in *.
  rewrite (forallb_witness (preset_ok g) (enumerate (vs g)) (i, v));
    [reflexivity | now apply in_enumerate |].
  unfold preset_ok. cbn [fst snd]. rewrite Hk, Hcand.
  apply contains_in in Hi. now rewrite Hi.
Qed.

(* ------------------------------------------------------------------ *)
(** * The entry point, property by property *)

Section Claims.

Variable solve : LpProblem -> Z * (VarName -> Q).
Variable variables : LpProblem -> list LpVariable.

Hypothesis variables_listed : forall p, lists p (variables p).

(** Lines 49 to 61. Let [before] be the graph as it stands just before
    solving. On a graph of two vertices or more, [coloring] returns 1
    exactly when the solver status is 1; on a graph with one vertex a
    status of 1 ends in a [TypeError], for [__dummy] is listed and has no
    value. On status 1 the colour of every vertex is what the writes in
    the order of [p.variables()] leave: a relevant vertex [i] with some
    [assign[i,c]] above the tolerance 1/2 ends with a colour whose
    variable is above the tolerance, which is [c] when no other is; a
    vertex with no variable above the tolerance, or outside [R], keeps the
    colour it has in [before]. For any other status the call returns 0
    and the graph is [before], not the graph of the caller. *)
Theorem coloring_result (g : Graph) (wmax : option Q) (preserve : bool)
    (p : LpProblem) (status : Z) (val : VarName -> Q) :
  let before := clear_unless preserve (default_attributes g) in
  let after := coloring solve variables g wmax preserve in
  _colouring_lpproblem before (capacity_bound (default_attributes g) wmax)
  = Ok p ->
  solve p = (status, val) ->
  (fst after = Ok 1%Z <-> status = 1%Z /\ order g <> 1%nat)
  /\ (fst after = Raise TypeError <-> status = 1%Z /\ order g = 1%nat)
  /\ (status = 1%Z ->
      (forall j, colour_of (snd after) j
                 = final_colour (1 # 2) val (variables p) j (colour_of before j))
      /\ (forall i c,
            In i (relevants before) -> (c < order before)%nat ->
            1 # 2 < val (name (assign i c)) ->
            exists c', (c' < order before)%nat
                       /\ 1 # 2 < val (name (assign i c'))
                       /\ colour_of (snd after) i = Some (Z.of_nat c'))
      /\ (forall i c,
            In i (relevants before) -> (c < order before)%nat ->
            1 # 2 < val (name (assign i c)) ->
            (forall c', (c' < order before)%nat ->
                        1 # 2 < val (name (assign i c')) -> c' = c) ->
            colour_of (snd after) i = Some (Z.of_nat c))
      /\ (forall j,
            (forall c, (c < order before)%nat ->
                       val (name (assign j c)) <= 1 # 2) ->
            colour_of (snd after) j = colour_of before j)
      /\ (forall j, ~ In j (relevants before) ->
                    colour_of (snd after) j = colour_of before j))
  /\ (status <> 1%Z -> after = (Ok 0%Z, before)).
Proof.
  intros before after Hb Hs.
  pose proof (coloring_returns solve variables variables_listed
                g wmax preserve p status val Hb Hs) as Hrun.
  fold before in Hrun. fold after in Hrun.
  pose proof (build_inversion _ _ _ Hb) as (_ & _ & _ & _ & Hpre & Hp).
  destruct (status =? 1)%Z eqn:Est.
  - apply Z.eqb_eq in Est. destruct Hrun as [g' [E Hfin]].
    split; [|split; [|split]].
    + rewrite E. cbn [fst]. destruct (order g =? 1)%nat eqn:Eo.
      * apply Nat.eqb_eq in Eo. split; [discriminate | tauto].
      * apply Nat.eqb_neq in Eo. tauto.
    + rewrite E. cbn [fst]. destruct (order g =? 1)%nat eqn:Eo.
      * apply Nat.eqb_eq in Eo. tauto.
      * apply Nat.eqb_neq in Eo. split; [discriminate | tauto].
    + intros _. rewrite E. cbn [snd]. split; [exact Hfin|].
      split; [|split; [|split]].
      * intros i c Hi Hc Hv.
        destruct (final_colour_writer (1 # 2) val (variables p) i
                    (colour_of before i)) as [var [k [Hin [Hn [Hk Hf]]]]].
        { exists (assign i c), (Z.of_nat c). split; [|split].
          - apply (occurring_listed variables variables_listed).
            rewrite Hp. now apply assign_occurs.
          - apply node_of_assign.
          - now apply Qle_bool_false. }
        apply (listed_node variables variables_listed _ _ _ _ Hin) in Hn as Hocc.
        rewrite Hp in Hocc.
        destruct (occurring_node_of _ _ _ _ _ Hpre Hocc Hn)
          as [_ [c' [Hc' [-> ->]]]].
        exists c'. split; [exact Hc'|]. split; [now apply Qle_bool_false|].
        now rewrite Hfin.
      * intros i c Hi Hc Hv Hu. rewrite Hfin, Hp.
        now apply (final_colour_unique variables variables_listed).
      * intros j Hj. rewrite Hfin, Hp.
        apply final_colour_untouched. intros var c Hin Hn.
        apply (listed_node variables variables_listed _ _ _ _ Hin) in Hn as Hocc.
        destruct (occurring_node_of _ _ _ _ _ Hpre Hocc Hn)
          as [_ [c' [Hc' [-> ->]]]].
        apply Qle_bool_iff. now apply Hj.
      * intros j Hj. rewrite Hfin, Hp.
        now apply (final_colour_outside variables variables_listed).
    + intros Hne. congruence.
  - apply Z.eqb_neq in Est. split; [|split; [|split]].
    + rewrite Hrun. cbn. split; [intros H; inversion H | tauto].
    + rewrite Hrun. cbn. split; [discriminate | tauto].
    + congruence.
    + intros _. exact Hrun.
Qed.

(** C6, as the code has it. A vertex marked not relevant is never
    written by the loop over the variables. With [preserve] true its
    colour after the call is its colour before the call; with [preserve]
    false its colour is cleared with all the others before the problem
    is built, and is unset after the call. Both hold whether the call
    returns or raises. *)
Theorem non_relevant_colour (g : Graph) (wmax : option Q) (j : nat) :
  has_relevant g = true -> relevant_at g j = false ->
  colour_of (snd (coloring solve variables g wmax true)) j = colour_of g j
  /\ colour_of (snd (coloring solve variables g wmax false)) j = None.
Proof.
  intros Hr Hj.
  assert (Hall : forall preserve,
            colour_of (snd (coloring solve variables g wmax preserve)) j
            = colour_of (clear_unless preserve (default_attributes g)) j).
  { intros preserve.
    destruct (_colouring_lpproblem (clear_unless preserve (default_attributes g))
                (capacity_bound (default_attributes g) wmax)) as [p|e] eqn:Hb.
    - destruct (solve p) as [status val] eqn:Hs.
      pose proof (coloring_returns solve variables variables_listed
                    g wmax preserve p status val Hb Hs) as Hrun.
      pose proof (build_inversion _ _ _ Hb) as (_ & _ & _ & _ & Hpre & Hp).
      destruct (status =? 1)%Z.
      + destruct Hrun as [g' [E Hfin]]. rewrite E. cbn [snd].
        rewrite Hfin, Hp.
        apply (final_colour_outside variables variables_listed); [exact Hpre|].
        intros Hin. apply in_relevants in Hin. destruct Hin as [_ Hin].
        rewrite clear_unless_relevant, default_attributes_relevant in Hin
          by exact Hr.
        congruence.
      + now rewrite Hrun.
    - now rewrite (coloring_raises solve variables g wmax preserve e Hb). }
  split.
  - rewrite Hall, clear_unless_colour. apply default_attributes_colour.
  - now rewrite Hall, clear_unless_colour.
Qed.

(** C7. For every relevant vertex [i] whose colour is set to [k] when
    the problem is built, the built problem contains the constraint
    [assign[i,k] = 1]; hence every feasible valuation has [assign[i,k]]
    at 1 and the other [assign[i,c]] at 0, and a call with [preserve]
    true whose solver answers status 1 with a feasible valuation leaves
    vertex [i] on colour [k]. *)
Theorem preset_colour_kept (g : Graph) (wmax : Q) (p : LpProblem)
    (i : nat) (k : Z) :
  _colouring_lpproblem g wmax = Ok p ->
  In i (relevants g) -> colour_at g i = Some k ->
  In (eq_constraint [(1, binary (Node_Colour_variable_x i k))] 1)
     (constraints p)
  /\ (forall val, feasible p val = true ->
        val (Node_Colour_variable_x i k) == 1
        /\ forall c, (c < order g)%nat -> Z.of_nat c <> k ->
                     val (name (assign i c)) == 0)
  /\ (forall caller wmax0 val,
        g = clear_unless true (default_attributes caller) ->
        wmax = capacity_bound (default_attributes caller) wmax0 ->
        solve p = (1%Z, val) -> feasible p val = true ->
        colour_of (snd (coloring solve variables caller wmax0 true)) i = Some k
        /\ colour_of caller i = Some k).
Proof.
  intros Hb Hi Hk.
  pose proof (colour_at_candidate g wmax p i k Hb Hi Hk) as Hcand.
  pose proof (build_inversion _ _ _ Hb) as (_ & _ & _ & Hc & Hpre & Hp).
  pose proof (persistence_in g wmax i k Hi Hk) as Hin.
  apply candidate_spec in Hcand. destruct Hcand as [ck [Hck Ek]].
  assert (Hforce : forall val, feasible p val = true ->
            val (Node_Colour_variable_x i k) == 1
            /\ forall c, (c < order g)%nat -> Z.of_nat c <> k ->
                         val (name (assign i c)) == 0).
  { intros val Hf. rewrite Hp in Hf.
    pose proof (feasible_constraint _ _ _ Hf Hin) as Hs.
    unfold satisfies, persistence in Hs. cbn [sense lhs rhs eq_constraint] in Hs.
    apply Qeq_bool_iff in Hs. rewrite value_cons in Hs.
    cbn [value fold_right name binary] in Hs.
    assert (H1 : val (Node_Colour_variable_x i k) == 1) by lra.
    split; [exact H1|]. intros c Hc' Hne.
    destruct (one_colour_per_vertex g wmax val i Hf Hi) as [c0 [Hc0 [E0 Hz]]].
    destruct (Nat.eq_dec c0 ck) as [->|Hdiff].
    - apply Hz; [exact Hc'|]. intros ->. now apply Hne.
    - specialize (Hz ck Hck (fun E => Hdiff (eq_sym E))).
      unfold assign in Hz. cbn [name binary] in Hz. rewrite <- Ek in Hz. lra. }
  split; [now rewrite Hp|]. split; [exact Hforce|].
  intros caller wmax0 val Eg Ew Hs Hf.
  destruct (Hforce val Hf) as [H1 Hz].
  assert (Hcol : colour_of caller i = Some k).
  { rewrite <- default_attributes_colour.
    replace (default_attributes caller) with g by (now rewrite Eg).
    unfold colour_of, colour_at in *. now rewrite Hc. }
  split; [|exact Hcol].
  rewrite Eg, Ew in Hb.
  pose proof (coloring_returns solve variables variables_listed
                caller wmax0 true p 1%Z val Hb Hs) as Hrun.
  cbn [Z.eqb Pos.eqb] in Hrun. destruct Hrun as [g' [E Hfin]].
  rewrite E. cbn [snd]. rewrite Hfin, Hp, Ek, <- Eg.
  apply (final_colour_unique variables variables_listed);
    [exact Hpre | exact Hi | exact Hck | |].
  - unfold assign. cbn [name binary]. rewrite <- Ek. lra.
  - intros c' Hc' Hv. destruct (Nat.eq_dec c' ck) as [->|Hdiff]; [reflexivity|].
    assert (val (name (assign i c')) == 0).
    { apply Hz; [exact Hc'|]. rewrite Ek. intros E'.
      apply Nat2Z.inj in E'. contradiction. }
    lra.
Qed.

(** C9. On a graph in which every vertex is marked not relevant, the
    graph without vertex included, [coloring] returns nothing: building
    the problem raises [SyntaxError], for [eval] is handed a text with
    no summand. The builder raises on such a graph whatever the bound,
    so a problem is built only with a relevant vertex. *)
Theorem no_relevant_vertex_raises (g : Graph) (wmax : option Q)
    (preserve : bool) :
  (forall v, In v (vs g) -> has_relevant g = true /\ relevant v = false) ->
  coloring solve variables g wmax preserve
  = (Raise SyntaxError, clear_unless preserve (default_attributes g))
  /\ forall w, _colouring_lpproblem g w = Raise SyntaxError.
Proof.
  intros H.
  assert (Hnone : forall i, relevant_at g i = false).
  { intros i. unfold relevant_at.
    destruct (nth_error (vs g) i) as [v|] eqn:Ev; [|reflexivity].
    apply nth_error_In in Ev. now destruct (H v Ev). }
  assert (Hg : has_relevant g = true \/ vs g = []).
  { destruct (vs g) as [|v l] eqn:Evs; [now right|].
    left. apply (H v). now left. }
  split.
  - apply coloring_raises. rewrite build_outcome.
    destruct (default_attributes_flags g) as (Hc & Hr & _ & Ho).
    destruct (clear_unless_flags preserve _ Hc) as (_ & Hr' & _ & Ho').
    apply outcome_no_relevant; [left; congruence|].
    unfold relevants. apply filter_none. intros i Hi.
    rewrite clear_unless_relevant.
    destruct Hg as [Hg|Hg].
    + rewrite default_attributes_relevant by exact Hg. apply Hnone.
    + apply in_range in Hi. rewrite Ho', Ho in Hi.
      unfold order in Hi. rewrite Hg in Hi. cbn in Hi. lia.
  - intros w. rewrite build_outcome. apply outcome_no_relevant; [exact Hg|].
    unfold relevants. apply filter_none. intros i _. apply Hnone.
Qed.

(** C10. With [preserve] true, a relevant vertex whose colour is set to
    a [k] outside the candidate colours [0 .. |V|-1] makes [coloring]
    raise [KeyError] (the dictionary of the [assign] variables has no
    key [(i, k)]) instead of returning 0 or 1: a call that returns had
    every pre-set colour of a relevant vertex among the candidates. *)
Theorem preset_outside_candidates_raises (g : Graph) (wmax : option Q)
    (i : nat) (k : Z) :
  relevant_at (default_attributes g) i = true ->
  colour_of g i = Some k ->
  candidate g k = false ->
  coloring solve variables g wmax true
  = (Raise KeyError, default_attributes g).
Proof.
  intros Hrel Hk Hcand.
  change (default_attributes g) with (clear_unless true (default_attributes g)).
  apply coloring_raises. rewrite build_outcome.
  change (clear_unless true (default_attributes g)) with (default_attributes g).
  destruct (default_attributes_flags g) as (Hc & Hr & Hw & Ho).
  rewrite <- default_attributes_colour in Hk.
  unfold relevant_at in Hrel. unfold colour_of in Hk. rewrite Hc in Hk.
  destruct (nth_error (vs (default_attributes g)) i) as [v|] eqn:Ev;
    [|discriminate].
  apply (outcome_bad_preset _ _ i v k); try assumption.
  unfold candidate in *. now rewrite Ho.
Qed.

End Claims.

(* ------------------------------------------------------------------ *)
(** * Runs on the sample graphs *)

(** The names PuLP gives, the reading of a name, and [%f]. *)

Example colour_name_3 : Colour_variable_x 3 = "Colour_variable_x(c)_3"%string.
Proof. reflexivity. Qed.

Example node_name_12_7 :
  Node_Colour_variable_x 12 7 = "Node_Colour_variable_x(i,c)_(12,_7)"%string.
Proof. reflexivity. Qed.

Example read_name_12_7 :
  read_name "Node_Colour_variable_x(i,c)_(12,_7)" = Ok (12%Z, 7%Z).
Proof. reflexivity. Qed.

Example format_f_third : format_f (1 # 3) = 333333 # 1000000.
Proof. reflexivity. Qed.

Example format_f_two_thirds : format_f (2 # 3) = 666667 # 1000000.
Proof. reflexivity. Qed.

Example format_f_tie : format_f (5 # 10000000) = 0 /\ format_f (15 # 10000000) = 1 # 500000.
Proof. split; reflexivity. Qed.

Example format_f_negative : format_f (- (7 # 2)) = - (7 # 2).
Proof. reflexivity. Qed.


Lemma objective_shape_witness :
  _colouring_lpproblem Sample.edge 2 = Ok (problem_of Sample.edge 2)
  /\ BIG Sample.edge = 4%Z
  /\ 2 * value Sample.own (low_colour_term Sample.edge) <= 4.
Proof.
  assert (Hb : _colouring_lpproblem Sample.edge 2 = Ok (problem_of Sample.edge 2))
    by (vm_compute; reflexivity).
  split; [exact Hb|].
  destruct (objective_shape Sample.edge 2 _ Hb) as (_ & _ & E & Hval).
  split; [rewrite E; reflexivity|].
  refine (proj1 (Hval Sample.own _)).
  intros i c. unfold Sample.own. rewrite node_of_assign.
  destruct (Z.of_nat c =? Z.of_nat i)%Z; split; unfold Qle; cbn; lia.
Defined.

(** C1 as the specification words it fails on the graph with one vertex:
    the coefficient of [colorUsed[0]] is 0, not more than
    [|R| * |V| * 2 = 2]. *)
Lemma objective_constant_small :
  exists p,
    _colouring_lpproblem Sample.single 1 = Ok p
    /\ (1 <= length (relevants Sample.single))%nat
    /\ ~ exists big : Q,
           inject_Z (Z.of_nat (length (relevants Sample.single))
                     * Z.of_nat (order Sample.single) * 2) < big
           /\ objective p
              = map (fun c => (big, colorUsed c)) (range (order Sample.single))
                ++ low_colour_term Sample.single.
Proof.
  exists (problem_of Sample.single 1).
  split; [vm_compute; reflexivity|]. split; [cbn; lia|].
  intros [big [Hbig E]]. cbn in E. inversion E. subst big.
  vm_compute in Hbig. discriminate.
Qed.

Lemma exactly_one_colour_witness :
  feasible (problem_of Sample.edge 2) Sample.own = true
  /\ exists c, (c < order Sample.edge)%nat
               /\ Sample.own (name (assign 0 c)) == 1
               /\ forall c', (c' < order Sample.edge)%nat -> c' <> c ->
                             Sample.own (name (assign 0 c')) == 0.
Proof.
  assert (Hb : _colouring_lpproblem Sample.edge 2 = Ok (problem_of Sample.edge 2))
    by (vm_compute; reflexivity).
  assert (Hi : In 0%nat (relevants Sample.edge)) by (now left).
  assert (Hf : feasible (problem_of Sample.edge 2) Sample.own = true)
    by (vm_compute; reflexivity).
  split; [exact Hf|].
  exact (proj2 (exactly_one_colour Sample.edge 2 _ 0 Hb Hi) Sample.own Hf).
Defined.

Lemma adjacent_never_share_witness :
  In (le_constraint [(1, assign 0 0); (1, assign 1 0)] 1)
     (constraints (problem_of Sample.edge 2))
  /\ ~ (Sample.own (name (assign 0 0)) == 1
        /\ Sample.own (name (assign 1 0)) == 1).
Proof.
  assert (Hb : _colouring_lpproblem Sample.edge 2 = Ok (problem_of Sample.edge 2))
    by (vm_compute; reflexivity).
  assert (Hf : feasible (problem_of Sample.edge 2) Sample.own = true)
    by (vm_compute; reflexivity).
  destruct (adjacent_never_share Sample.edge 2 _ 0 1 0 Hb) as [Hin Hno].
  - now left.
  - now left.
  - right. now left.
  - cbn. lia.
  - split; [exact Hin | exact (Hno Sample.own Hf)].
Defined.

(** C4 on the code. Two vertices of weight 1/3 without edge and the
    bound 0.666666: [%f] writes each weight as 0.333333, so the capacity
    constraint of colour 0 is [0.333333 x + 0.333333 y <= 0.666666], the
    valuation with both vertices on colour 0 is feasible, and the weight on
    colour 0 is 2/3, which is more than the bound. *)
Theorem capacity_rounded_to_six_decimals :
  let g := Sample.thirds in
  let wmax := 666666 # 1000000 in
  exists p,
    _colouring_lpproblem g wmax = Ok p
    /\ In (le_constraint [(333333 # 1000000, assign 0 0);
                          (333333 # 1000000, assign 1 0)]
                         (333333 # 500000))
          (constraints p)
    /\ feasible p Sample.lowest = true
    /\ ~ (weight_at g 0 * Sample.lowest (name (assign 0 0))
          + weight_at g 1 * Sample.lowest (name (assign 1 0)) <= wmax)
    /\ coloring (Sample.answer 1 Sample.lowest) listing g (Some wmax) false
       = (Ok 1%Z,
          Sample.graph [Sample.node (Some 0%Z) true (1 # 3);
                        Sample.node (Some 0%Z) true (1 # 3)] []).
Proof.
  intros g wmax. exists (problem_of g wmax).
  split; [vm_compute; reflexivity|].
  split; [vm_compute; tauto|].
  split; [vm_compute; reflexivity|].
  split; [|vm_compute; reflexivity].
  intros H. vm_compute in H. now apply H.
Qed.

Lemma coloring_result_witness :
  let after :=
    coloring (Sample.answer 1 Sample.own) listing Sample.edge None false in
  fst after = Ok 1%Z
  /\ colour_of (snd after) 0 = Some 0%Z
  /\ colour_of (snd after) 1 = Some 1%Z.
Proof.
  pose (before := clear_unless false (default_attributes Sample.edge)).
  pose (p := problem_of before (capacity_bound (default_attributes Sample.edge) None)).
  assert (Hb : _colouring_lpproblem before
                 (capacity_bound (default_attributes Sample.edge) None) = Ok p)
    by (vm_compute; reflexivity).
  destruct (coloring_result (Sample.answer 1 Sample.own) listing
              listing_lists Sample.edge None false p 1%Z Sample.own
              Hb eq_refl) as (Hret & _ & Hopt & _).
  destruct (Hopt eq_refl) as (_ & _ & Hone & _).
  assert (Hu : forall i, (i < 2)%nat ->
            forall c', (c' < order before)%nat ->
              1 # 2 < Sample.own (name (assign i c')) -> c' = i).
  { intros i Hi c' Hc' Hv. unfold Sample.own in Hv. rewrite node_of_assign in Hv.
    destruct (Z.of_nat c' =? Z.of_nat i)%Z eqn:E.
    - apply Z.eqb_eq in E. now apply Nat2Z.inj in E.
    - vm_compute in Hv. discriminate. }
  intros after. split; [apply Hret; split; [reflexivity | discriminate]|]. split.
  - apply (Hone 0%nat 0%nat); [now left | cbn; lia | reflexivity | apply Hu; lia].
  - apply (Hone 1%nat 1%nat); [right; now left | cbn; lia | reflexivity | apply Hu; lia].
Defined.

Lemma non_relevant_colour_witness :
  colour_of
    (snd (coloring (Sample.answer 1 Sample.lowest) listing
            Sample.bystander None true)) 1
  = Some 5%Z
  /\ colour_of
       (snd (coloring (Sample.answer 1 Sample.lowest) listing
               Sample.bystander None false)) 1
     = None.
Proof.
  exact (non_relevant_colour (Sample.answer 1 Sample.lowest) listing
           listing_lists Sample.bystander None 1 eq_refl eq_refl).
Defined.

(** C6 as the specification words it fails with [preserve] false:
    vertex 1 of [Sample.bystander] is not relevant and carries colour 5
    before the call, and no colour after it. *)
Lemma non_relevant_colour_cleared :
  relevant_at Sample.bystander 1 = false
  /\ colour_of
       (snd (coloring (Sample.answer 1 Sample.lowest) listing
               Sample.bystander None false)) 1
     <> colour_of Sample.bystander 1.
Proof. split; [reflexivity|]. vm_compute. discriminate. Qed.

Lemma preset_colour_kept_witness :
  feasible (problem_of Sample.preset 2) Sample.swapped = true
  /\ Sample.swapped (Node_Colour_variable_x 0 1) == 1
  /\ colour_of
       (snd (coloring (Sample.answer 1 Sample.swapped) listing
               Sample.preset None true)) 0
     = Some 1%Z.
Proof.
  pose (g := clear_unless true (default_attributes Sample.preset)).
  pose (w := capacity_bound (default_attributes Sample.preset) None).
  assert (Hb : _colouring_lpproblem g w = Ok (problem_of Sample.preset 2))
    by (vm_compute; reflexivity).
  assert (Hf : feasible (problem_of Sample.preset 2) Sample.swapped = true)
    by (vm_compute; reflexivity).
  destruct (preset_colour_kept (Sample.answer 1 Sample.swapped) listing
              listing_lists g w _ 0 1%Z Hb)
    as (_ & Hforce & Hcall).
  - now left.
  - reflexivity.
  - split; [exact Hf|]. split; [exact (proj1 (Hforce _ Hf))|].
    exact (proj1 (Hcall Sample.preset None Sample.swapped
                    eq_refl eq_refl eq_refl Hf)).
Defined.

Lemma no_relevant_vertex_raises_witness :
  coloring (Sample.answer 1 Sample.lowest) listing Sample.idle None false
  = (Raise SyntaxError, clear_unless false (default_attributes Sample.idle))
  /\ _colouring_lpproblem Sample.idle 1 = Raise SyntaxError.
Proof.
  destruct (no_relevant_vertex_raises (Sample.answer 1 Sample.lowest) listing
              Sample.idle None false) as [H1 H2].
  - intros v [<- | []]. split; reflexivity.
  - split; [exact H1 | exact (H2 1)].
Defined.

Lemma preset_outside_candidates_raises_witness :
  coloring (Sample.answer 1 Sample.lowest) listing Sample.stray None true
  = (Raise KeyError, default_attributes Sample.stray).
Proof.
  exact (preset_outside_candidates_raises (Sample.answer 1 Sample.lowest)
           listing Sample.stray None 0 5%Z eq_refl eq_refl eq_refl).
Defined.

(* ------------------------------------------------------------------ *)
(** * Further properties of the builder *)

Lemma linking_in (g : Graph) (wmax : Q) (i c : nat) :
  In i (relevants g) -> (c < order g)%nat ->
  In (linking i c) (constraints (problem_of g wmax)).
Proof.
  intros Hi Hc. cbn [constraints problem_of].
  do 3 (apply in_or_app; right). apply in_or_app. left.
  apply in_flat_map. exists i. split; [exact Hi|].
  apply in_map. now apply in_range.
Qed.

(** [colorUsed[c]] has coefficient 1 in the linking constraints. *)
Lemma colorUsed_occurs (g : Graph) (wmax : Q) (i c : nat) :
  In i (relevants g) -> (c < order g)%nat ->
  In (colorUsed c) (occurring (problem_of g wmax)).
Proof.
  intros Hi Hc. unfold occurring. apply in_or_app. right.
  apply in_flat_map. exists (linking i c).
  split; [now apply linking_in|]. now left.
Qed.

(** The linking constraint of lines 134 to 137: for every relevant vertex
    [i] and candidate colour [c] the built problem contains
    [colorUsed[c] - assign[i,c] >= 0], so a feasible valuation that gives
    [i] the colour [c] marks [c] as used. *)
Theorem colour_marked_used (g : Graph) (wmax : Q) (p : LpProblem) (i c : nat) :
  _colouring_lpproblem g wmax = Ok p ->
  In i (relevants g) -> (c < order g)%nat ->
  In (ge_constraint [(1, colorUsed c); (- (1), assign i c)] 0) (constraints p)
  /\ forall val, feasible p val = true ->
       val (name (assign i c)) == 1 -> val (name (colorUsed c)) == 1.
Proof.
  intros Hb Hi Hc. apply build_inversion in Hb.
  destruct Hb as (_ & _ & _ & _ & _ & ->).
  pose proof (linking_in g wmax i c Hi Hc) as Hin. split; [exact Hin|].
  intros val Hf H1.
  pose proof (feasible_constraint _ _ _ Hf Hin) as Hs.
  unfold satisfies, linking in Hs. cbn [sense lhs rhs ge_constraint] in Hs.
  apply Qle_bool_iff in Hs. rewrite !value_cons in Hs. cbn [value fold_right] in Hs.
  destruct (binary_value val (name (colorUsed c))) as [E|E].
  - apply (feasible_domain _ _ _ Hf). now apply (colorUsed_occurs g wmax i c).
  - lra.
  - exact E.
Qed.

Lemma colour_marked_used_witness :
  feasible (problem_of Sample.edge 2) Sample.own = true
  /\ Sample.own (name (colorUsed 1)) == 1.
Proof.
  assert (Hb : _colouring_lpproblem Sample.edge 2 = Ok (problem_of Sample.edge 2))
    by (vm_compute; reflexivity).
  assert (Hf : feasible (problem_of Sample.edge 2) Sample.own = true)
    by (vm_compute; reflexivity).
  split; [exact Hf|].
  refine (proj2 (colour_marked_used Sample.edge 2 _ 1 1 Hb _ _) Sample.own Hf _).
  - right. now left.
  - cbn. lia.
  - reflexivity.
Defined.

(** Lines 88 to 98: every variable of a built problem is an integer
    variable between 0 and 1, so a feasible valuation gives it 0 or 1. *)
Theorem variables_are_binary (g : Graph) (wmax : Q) (p : LpProblem)
    (v : LpVariable) :
  _colouring_lpproblem g wmax = Ok p ->
  In v (occurring p) ->
  lowBound v = 0 /\ upBound v = 1 /\ cat v = LpInteger
  /\ forall val, feasible p val = true ->
       val (name v) == 0 \/ val (name v) == 1.
Proof.
  intros Hb Hin. pose proof (build_inversion _ _ _ Hb) as (_ & _ & _ & _ & Hpre & Hp).
  subst p.
  assert (Hv : v = binary (name v)).
  { destruct (occurring_cases g wmax v Hpre Hin)
      as [[c [_ ->]] | [i [k [_ [_ ->]]]]]; reflexivity. }
  split; [now rewrite Hv|]. split; [now rewrite Hv|]. split; [now rewrite Hv|].
  intros val Hf. apply binary_value. rewrite <- Hv.
  now apply (feasible_domain _ _ _ Hf).
Qed.

Lemma variables_are_binary_witness :
  lowBound (assign 1 0) = 0 /\ upBound (assign 1 0) = 1
  /\ (Sample.own (name (assign 1 0)) == 0 \/ Sample.own (name (assign 1 0)) == 1).
Proof.
  assert (Hb : _colouring_lpproblem Sample.edge 2 = Ok (problem_of Sample.edge 2))
    by (vm_compute; reflexivity).
  assert (Hf : feasible (problem_of Sample.edge 2) Sample.own = true)
    by (vm_compute; reflexivity).
  destruct (variables_are_binary Sample.edge 2 _ (assign 1 0) Hb)
    as (H0 & H1 & _ & Hval).
  - apply (assign_occurs Sample.edge 2 1 0); [right; now left | cbn; lia].
  - split; [exact H0|]. split; [exact H1 | exact (Hval Sample.own Hf)].
Defined.

(** ** When the builder returns and what it raises *)

Lemma enumerate_from_inv {A : Type} (l : list A) (a i : nat) (x : A) :
  In (i, x) (combine (seq a (length l)) l) ->
  (a <= i)%nat /\ nth_error l (i - a) = Some x.
Proof.
  revert a. induction l as [|y l IH]; intros a H; cbn in H.
  - destruct H.
  - destruct H as [H|H].
    + inversion H; subst. rewrite Nat.sub_diag. split; [lia | reflexivity].
    + apply IH in H. destruct H as [Hle Hn]. split; [lia|].
      replace (i - a)%nat with (S (i - S a)) by lia. exact Hn.
Qed.

Lemma enumerate_inv {A : Type} (l : list A) (i : nat) (x : A) :
  In (i, x) (enumerate l) -> nth_error l i = Some x.
Proof.
  intros H. apply enumerate_from_inv in H. destruct H as [_ H].
  now rewrite Nat.sub_0_r in H.
Qed.

Lemma presets_ok_iff (g : Graph) :
  forallb (preset_ok g) (enumerate (vs g)) = true
  <-> forall i k, In i (relevants g) -> colour_at g i = Some k ->
                  candidate g k = true.
Proof.
  split.
  - intros H i k Hi Hk. rewrite forallb_forall in H.
    unfold colour_at in Hk.
    destruct (nth_error (vs g) i) as [v|] eqn:Ev; [|discriminate].
    specialize (H (i, v) (in_enumerate _ _ _ Ev)).
    unfold preset_ok in H. cbn [fst snd] in H. rewrite Hk in H.
    apply contains_in in Hi. now rewrite Hi in H.
  - intros H. apply forallb_forall. intros [i v] Hiv.
    apply enumerate_inv in Hiv. unfold preset_ok. cbn [fst snd].
    destruct (colour v) as [k|] eqn:Ek; [|reflexivity].
    destruct (contains i (relevants g)) eqn:Ei; [|reflexivity].
    cbn [negb orb]. apply contains_in in Ei. apply (H i k Ei).
    unfold colour_at. now rewrite Hiv.
Qed.


(** ** Names written and read *)

Lemma append_same_prefix (p a b : string) :
  (p ++ a)%string = (p ++ b)%string -> a = b.
Proof.
  induction p as [|x p IH]; cbn; intros H; [exact H|].
  inversion H. now apply IH.
Qed.

Lemma str_nat_injective (a b : nat) : str_nat a = str_nat b -> a = b.
Proof.
  intros H. pose proof (int_str_nat a) as Ha. rewrite H, int_str_nat in Ha.
  inversion Ha. lia.
Qed.

Lemma colour_name_spelled (c : nat) :
  Colour_variable_x (Z.of_nat c)
  = ("Colour_variable_x(c)_" ++ str_nat c)%string.
Proof.
  unfold Colour_variable_x, dicts_name. rewrite str_of_nat.
  change ("Colour variable x(c)" ++ "_" ++ str_nat c)%string
    with ("Colour variable x(c)_" ++ str_nat c)%string.
  rewrite translate_app. unfold str_nat. rewrite translate_digits. reflexivity.
Qed.

(** Lines 54 to 60 against the names of lines 89 to 98. The name of
    [assign[i,c]] is ["Node_Colour_variable_x(i,c)_(i,_c)"] with [i] and
    [c] in decimal; it passes the test [name[:4] == "Node"] and the
    reading of line 57 to 59 gives back [i] and [c], while the name of a
    [colorUsed] variable never passes the test. *)
Theorem name_read_back (i c : nat) :
  name (assign i c)
  = ("Node_Colour_variable_x(i,c)_(" ++ str_nat i ++ ",_" ++ str_nat c ++ ")")%string
  /\ is_node (name (assign i c)) = true
  /\ read_name (name (assign i c)) = Ok (Z.of_nat i, Z.of_nat c)
  /\ forall c', is_node (name (colorUsed c')) = false.
Proof.
  unfold assign, colorUsed. cbn [name binary].
  split; [apply node_name_spelled|]. split; [apply is_node_node|].
  split; [apply read_node_name|]. intros c'. apply is_node_colour.
Qed.

(** Distinct variables have distinct names, so a valuation by name can
    tell them apart. *)
Theorem names_distinct :
  (forall i c i' c', name (assign i c) = name (assign i' c') ->
                     i = i' /\ c = c')
  /\ (forall c c', name (colorUsed c) = name (colorUsed c') -> c = c')
  /\ (forall i c c', name (assign i c) <> name (colorUsed c')).
Proof.
  split; [|split].
  - intros i c i' c' H.
    pose proof (node_of_assign i c) as H1. rewrite H, node_of_assign in H1.
    inversion H1. split; [congruence | lia].
  - intros c c' H. unfold colorUsed in H. cbn [name binary] in H.
    rewrite !colour_name_spelled in H. apply append_same_prefix in H.
    now apply str_nat_injective.
  - intros i c c' H.
    pose proof (node_of_assign i c) as H1.
    rewrite H, node_of_colorUsed in H1. discriminate.
Qed.

(** ** Graphs whose problem has no solution *)

Lemma preset_forced (g : Graph) (wmax : Q) (val : VarName -> Q) (i : nat) (k : Z) :
  feasible (problem_of g wmax) val = true ->
  In i (relevants g) -> colour_at g i = Some k ->
  val (Node_Colour_variable_x i k) == 1.
Proof.
  intros Hf Hi Hk.
  pose proof (feasible_constraint _ _ _ Hf (persistence_in g wmax i k Hi Hk)) as Hs.
  unfold satisfies, persistence in Hs. cbn [sense lhs rhs eq_constraint] in Hs.
  apply Qeq_bool_iff in Hs. rewrite value_cons in Hs.
  cbn [value fold_right name binary] in Hs. lra.
Qed.

Lemma same_colour_excluded (g : Graph) (wmax : Q) (val : VarName -> Q)
    (u v c : nat) :
  feasible (problem_of g wmax) val = true ->
  In (u, v) (es g) -> In u (relevants g) -> In v (relevants g) ->
  (c < order g)%nat ->
  val (name (assign u c)) + val (name (assign v c)) <= 1.
Proof.
  intros Hf He Hu Hv Hc.
  pose proof (feasible_constraint _ _ _ Hf (adjacency_in g wmax u v c He Hu Hv Hc))
    as Hs.
  unfold satisfies, adjacency in Hs. cbn [sense lhs rhs le_constraint] in Hs.
  apply Qle_bool_iff in Hs. rewrite !value_cons in Hs. cbn [value fold_right] in Hs.
  lra.
Qed.

(** Lines 121 to 124 on an edge from a relevant vertex to itself: the
    constraint is [2 assign[u,c] <= 1] for every colour, which no
    valuation giving [u] a colour satisfies; the built problem has no
    feasible valuation. *)
Theorem self_loop_infeasible (g : Graph) (wmax : Q) (p : LpProblem) (u : nat) :
  _colouring_lpproblem g wmax = Ok p ->
  In (u, u) (es g) -> In u (relevants g) ->
  forall val, feasible p val = false.
Proof.
  intros Hb He Hu val. apply build_inversion in Hb.
  destruct Hb as (_ & _ & _ & _ & _ & ->).
  destruct (feasible (problem_of g wmax) val) eqn:Hf; [|reflexivity].
  destruct (one_colour_per_vertex g wmax val u Hf Hu) as [c [Hc [H1 _]]].
  pose proof (same_colour_excluded g wmax val u u c Hf He Hu Hu Hc). lra.
Qed.

Lemma self_loop_infeasible_witness :
  feasible (problem_of Edge.loop 1) Sample.lowest = false
  /\ feasible (problem_of Edge.loop 1) Sample.own = false.
Proof.
  assert (Hb : _colouring_lpproblem Edge.loop 1 = Ok (problem_of Edge.loop 1))
    by (vm_compute; reflexivity).
  pose proof (self_loop_infeasible Edge.loop 1 _ 0 Hb
                (or_introl eq_refl) (or_introl eq_refl)) as H.
  split; apply H.
Defined.

(** Lines 121 to 124 with lines 140 to 142: two adjacent relevant
    vertices that carry the same colour make the built problem
    infeasible. *)
Theorem adjacent_presets_clash (g : Graph) (wmax : Q) (p : LpProblem)
    (u v : nat) (k : Z) :
  _colouring_lpproblem g wmax = Ok p ->
  In (u, v) (es g) -> In u (relevants g) -> In v (relevants g) ->
  colour_at g u = Some k -> colour_at g v = Some k ->
  forall val, feasible p val = false.
Proof.
  intros Hb He Hu Hv Hku Hkv val.
  pose proof (colour_at_candidate g wmax p u k Hb Hu Hku) as Hcand.
  apply build_inversion in Hb. destruct Hb as (_ & _ & _ & _ & _ & ->).
  destruct (feasible (problem_of g wmax) val) eqn:Hf; [|reflexivity].
  apply candidate_spec in Hcand. destruct Hcand as [c [Hc ->]].
  pose proof (preset_forced g wmax val u _ Hf Hu Hku) as H1.
  pose proof (preset_forced g wmax val v _ Hf Hv Hkv) as H2.
  pose proof (same_colour_excluded g wmax val u v c Hf He Hu Hv Hc) as H3.
  unfold assign in H3. cbn [name binary] in H3. lra.
Qed.

Lemma adjacent_presets_clash_witness :
  feasible (problem_of Edge.clash 2) Sample.lowest = false.
Proof.
  assert (Hb : _colouring_lpproblem Edge.clash 2 = Ok (problem_of Edge.clash 2))
    by (vm_compute; reflexivity).
  apply (adjacent_presets_clash Edge.clash 2 _ 0 1 0%Z Hb).
  - now left.
  - now left.
  - right. now left.
  - reflexivity.
  - reflexivity.
Defined.

(** ** What [%f] costs the capacity constraint *)

Lemma round_half_even_near (x : Q) :
  x - (1 # 2) <= inject_Z (round_half_even x) <= x + (1 # 2).
Proof.
  unfold round_half_even.
  pose proof (Qfloor_le x) as Hlo. pose proof (Qlt_floor x) as Hhi.
  rewrite inject_Z_plus in Hhi. change (inject_Z 1) with 1 in Hhi.
  destruct (Qcompare_spec (x - inject_Z (Qfloor x)) (1 # 2)) as [E|E|E].
  - destruct (Z.even (Qfloor x)).
    + lra.
    + rewrite inject_Z_plus. change (inject_Z 1) with 1. lra.
  - lra.
  - rewrite inject_Z_plus. change (inject_Z 1) with 1. lra.
Qed.

Lemma format_f_value (q : Q) :
  format_f q == inject_Z (round_half_even (q * 1000000)) * (1 # 1000000).
Proof.
  unfold format_f. rewrite Qred_correct.
  unfold Qeq, Qmult, inject_Z. cbn. lia.
Qed.

(** [%f] moves a number by half a millionth at most. *)
Lemma format_f_near (q : Q) :
  q - (1 # 2000000) <= format_f q <= q + (1 # 2000000).
Proof.
  rewrite format_f_value.
  pose proof (round_half_even_near (q * 1000000)). lra.
Qed.

Lemma round_half_even_nonneg (x : Q) : 0 <= x -> (0 <= round_half_even x)%Z.
Proof.
  intros Hx. unfold round_half_even.
  assert (Hf : (0 <= Qfloor x)%Z).
  { change 0%Z with (Qfloor 0). now apply Qfloor_resp_le. }
  destruct (Qcompare (x - inject_Z (Qfloor x)) (1 # 2));
    [destruct (Z.even (Qfloor x))| |]; lia.
Qed.

Lemma format_f_nonneg (q : Q) : 0 <= q -> 0 <= format_f q.
Proof.
  intros Hq. rewrite format_f_value.
  assert (H : (0 <= round_half_even (q * 1000000))%Z)
    by (apply round_half_even_nonneg; lra).
  rewrite Zle_Qle in H. change (inject_Z 0) with 0 in H. lra.
Qed.

Lemma rounded_load (g : Graph) (val : VarName -> Q) (c : nat) (l : list nat) :
  (forall i, In i l -> 0 <= val (name (assign i c)) <= 1) ->
  value val (map (fun i => (weight_at g i, assign i c)) l)
  <= value val (map (fun i => (format_f (weight_at g i), assign i c)) l)
     + inject_Z (Z.of_nat (length l)) * (1 # 2000000).
Proof.
  intros Hb. induction l as [|i l IH]; cbn [map length].
  - unfold Qle. cbn. lia.
  - rewrite !value_cons, Nat2Z.inj_succ. unfold Z.succ. rewrite inject_Z_plus.
    change (inject_Z 1) with 1.
    assert (IH' := IH (fun j Hj => Hb j (or_intror Hj))).
    pose proof (Hb i (or_introl eq_refl)) as Hi.
    pose proof (format_f_near (weight_at g i)) as Hw. nra.
Qed.

Lemma zero_one_bounds (q : Q) : q == 0 \/ q == 1 -> 0 <= q <= 1.
Proof. intros [E|E]; lra. Qed.

(** Lines 127 to 132 in numbers: in a feasible valuation the weight on a
    colour exceeds the bound by half a millionth per relevant vertex, and
    half a millionth for the bound, at most. *)
Theorem load_within_rounding (g : Graph) (wmax : Q) (p : LpProblem) (c : nat) :
  _colouring_lpproblem g wmax = Ok p -> (c < order g)%nat ->
  forall val, feasible p val = true ->
    load g val c
    <= wmax + (inject_Z (Z.of_nat (length (relevants g))) + 1) * (1 # 2000000).
Proof.
  intros Hb Hc val Hf. apply build_inversion in Hb.
  destruct Hb as (_ & _ & _ & _ & _ & ->).
  pose proof (feasible_constraint _ _ _ Hf (capacity_in g wmax c Hc)) as Hs.
  unfold satisfies, capacity in Hs. cbn [sense lhs rhs le_constraint] in Hs.
  apply Qle_bool_iff in Hs.
  pose proof (rounded_load g val c (relevants g)) as Hl.
  pose proof (format_f_near wmax) as Hw. unfold load.
  assert (Hbin : forall i, In i (relevants g) ->
                 0 <= val (name (assign i c)) <= 1).
  { intros i Hi. apply zero_one_bounds. now apply (assign_binary g wmax). }
  specialize (Hl Hbin). lra.
Qed.

Lemma load_within_rounding_witness :
  load Sample.thirds Sample.lowest 0
  <= (666666 # 1000000) + (inject_Z 2 + 1) * (1 # 2000000).
Proof.
  assert (Hb : _colouring_lpproblem Sample.thirds (666666 # 1000000)
               = Ok (problem_of Sample.thirds (666666 # 1000000)))
    by (vm_compute; reflexivity).
  assert (Hf : feasible (problem_of Sample.thirds (666666 # 1000000))
                 Sample.lowest = true)
    by (vm_compute; reflexivity).
  apply (load_within_rounding Sample.thirds (666666 # 1000000) _ 0 Hb);
    [cbn; lia | exact Hf].
Defined.

Lemma value_nonneg (val : VarName -> Q) (e : LpAffineExpression) :
  (forall t, In t e -> 0 <= fst t /\ 0 <= val (name (snd t))) ->
  0 <= value val e.
Proof.
  induction e as [|[a v] e IH]; intros H.
  - unfold Qle. cbn. lia.
  - rewrite value_cons.
    assert (0 <= value val e) by (apply IH; intros t Ht; apply H; now right).
    destruct (H (a, v) (or_introl eq_refl)) as [Ha Hv]. cbn [fst snd] in *. nra.
Qed.

Lemma value_at_least (val : VarName -> Q) (e : LpAffineExpression)
    (a : Q) (v : LpVariable) :
  (forall t, In t e -> 0 <= fst t /\ 0 <= val (name (snd t))) ->
  In (a, v) e -> a * val (name v) <= value val e.
Proof.
  induction e as [|[b u] e IH]; intros H Hin.
  - destruct Hin.
  - rewrite value_cons.
    assert (Ht : forall t, In t e -> 0 <= fst t /\ 0 <= val (name (snd t)))
      by (intros t Ht; apply H; now right).
    destruct Hin as [E|Hin].
    + inversion E; subst. pose proof (value_nonneg val e Ht). lra.
    + specialize (IH Ht Hin).
      destruct (H (b, u) (or_introl eq_refl)) as [Hb Hu]. cbn [fst snd] in *. nra.
Qed.

(** Lines 127 to 132 on a vertex too heavy for any colour: with weights
    that are not negative, a relevant vertex whose weight exceeds the bound
    by more than a millionth leaves the built problem without feasible
    valuation. *)
Theorem overweight_infeasible (g : Graph) (wmax : Q) (p : LpProblem) (i : nat) :
  _colouring_lpproblem g wmax = Ok p ->
  (forall j, In j (relevants g) -> 0 <= weight_at g j) ->
  In i (relevants g) ->
  wmax + (1 # 1000000) < weight_at g i ->
  forall val, feasible p val = false.
Proof.
  intros Hb Hpos Hi Hheavy val. apply build_inversion in Hb.
  destruct Hb as (_ & _ & _ & _ & _ & ->).
  destruct (feasible (problem_of g wmax) val) eqn:Hf; [|reflexivity].
  destruct (one_colour_per_vertex g wmax val i Hf Hi) as [c [Hc [H1 _]]].
  pose proof (feasible_constraint _ _ _ Hf (capacity_in g wmax c Hc)) as Hs.
  unfold satisfies, capacity in Hs. cbn [sense lhs rhs le_constraint] in Hs.
  apply Qle_bool_iff in Hs.
  assert (Hlow : format_f (weight_at g i) * val (name (assign i c))
                 <= value val
                      (map (fun j => (format_f (weight_at g j), assign j c))
                           (relevants g))).
  { apply value_at_least.
    - intros t Ht. apply in_map_iff in Ht. destruct Ht as [j [<- Hj]].
      cbn [fst snd]. split.
      + apply format_f_nonneg. now apply Hpos.
      + apply zero_one_bounds. now apply (assign_binary g wmax).
    - apply in_map_iff. now exists i. }
  pose proof (format_f_near wmax). pose proof (format_f_near (weight_at g i)).
  nra.
Qed.

Lemma overweight_infeasible_witness :
  feasible (problem_of Edge.heavy 2) Sample.own = false.
Proof.
  assert (Hb : _colouring_lpproblem Edge.heavy 2 = Ok (problem_of Edge.heavy 2))
    by (vm_compute; reflexivity).
  apply (overweight_infeasible Edge.heavy 2 _ 1 Hb).
  - intros j [<- | [<- | []]]; vm_compute; discriminate.
  - right. now left.
  - vm_compute. reflexivity.
Defined.

(** ** The two terms of the objective against each other *)

Lemma row_bounds (val : VarName -> Q) (i : nat) (l : list nat) :
  (forall c, In c l -> 0 <= val (name (assign i c)) <= 1) ->
  0 <= value val (map (fun c => (inject_Z (Z.of_nat c), assign i c)) l)
  <= inject_Z (sum l).
Proof.
  intros Hb. induction l as [|c l IH]; cbn [map].
  - unfold Qle. cbn. lia.
  - rewrite value_cons, sum_cons, inject_Z_plus.
    pose proof (inject_nat_nonneg c). pose proof (Hb c (or_introl eq_refl)).
    assert (IH' := IH (fun x Hx => Hb x (or_intror Hx))). nra.
Qed.

Lemma rows_bounds (val : VarName -> Q) (n : nat) (R : list nat) :
  (forall i c, In i R -> In c (range n) -> 0 <= val (name (assign i c)) <= 1) ->
  0 <= value val
         (flat_map (fun i => map (fun c => (inject_Z (Z.of_nat c), assign i c))
                                 (range n)) R)
  <= inject_Z (Z.of_nat (length R) * sum (range n)).
Proof.
  intros Hb. induction R as [|i R IH]; cbn [flat_map length].
  - unfold Qle. cbn. lia.
  - rewrite value_app.
    pose proof (row_bounds val i (range n)
                  (fun c Hc => Hb i c (or_introl eq_refl) Hc)) as Hrow.
    assert (IH' := IH (fun j c Hj Hc => Hb j c (or_intror Hj) Hc)).
    replace (Z.of_nat (S (length R)) * sum (range n))%Z
      with (sum (range n) + Z.of_nat (length R) * sum (range n))%Z by lia.
    rewrite inject_Z_plus. lra.
Qed.

Lemma value_scaled (val : VarName -> Q) (b : Q) (h : nat -> LpVariable)
    (l : list nat) :
  value val (map (fun c => (b, h c)) l)
  == b * value val (map (fun c => (1, h c)) l).
Proof.
  induction l as [|c l IH]; cbn [map].
  - cbn. lra.
  - rewrite !value_cons, IH. lra.
Qed.

Lemma count_of_binaries (h : nat -> LpVariable) (val : VarName -> Q)
    (l : list nat) :
  (forall c, In c l -> val (name (h c)) == 0 \/ val (name (h c)) == 1) ->
  exists z : Z, value val (map (fun c => (1, h c)) l) == inject_Z z.
Proof.
  induction l as [|c l IH]; intros Hb; cbn [map].
  - exists 0%Z. reflexivity.
  - destruct IH as [z Hz]; [intros x Hx; apply Hb; now right|].
    rewrite value_cons.
    destruct (Hb c (or_introl eq_refl)) as [E|E].
    + exists z. rewrite E, Hz. lra.
    + exists (z + 1)%Z. rewrite E, Hz, inject_Z_plus.
      change (inject_Z 1) with 1. lra.
Qed.

Lemma used_when_assigned (g : Graph) (wmax : Q) (val : VarName -> Q) (i c : nat) :
  feasible (problem_of g wmax) val = true ->
  In i (relevants g) -> (c < order g)%nat ->
  (val (name (colorUsed c)) == 0 \/ val (name (colorUsed c)) == 1)
  /\ val (name (assign i c)) <= val (name (colorUsed c)).
Proof.
  intros Hf Hi Hc. split.
  - apply binary_value. apply (feasible_domain _ _ _ Hf).
    now apply (colorUsed_occurs g wmax i c).
  - pose proof (feasible_constraint _ _ _ Hf (linking_in g wmax i c Hi Hc)) as Hs.
    unfold satisfies, linking in Hs. cbn [sense lhs rhs ge_constraint] in Hs.
    apply Qle_bool_iff in Hs. rewrite !value_cons in Hs.
    cbn [value fold_right] in Hs. lra.
Qed.

(** Lines 100 to 109, what the weight [big_number] is for: of two feasible
    valuations of the built problem, the one that marks fewer colours as
    used has the strictly smaller objective, whatever colours the vertices
    get. *)
Theorem fewer_colours_cheaper (g : Graph) (wmax : Q) (p : LpProblem)
    (val1 val2 : VarName -> Q) :
  _colouring_lpproblem g wmax = Ok p ->
  feasible p val1 = true -> feasible p val2 = true ->
  colours_used g val1 < colours_used g val2 ->
  value val1 (objective p) < value val2 (objective p).
Proof.
  intros Hb Hf1 Hf2 Hlt. apply build_inversion in Hb.
  destruct Hb as (_ & HR & _ & _ & _ & ->).
  destruct (relevants g) as [|r R] eqn:ER; [congruence|]. clear HR.
  assert (Hr : In r (relevants g)) by (rewrite ER; now left).
  assert (Hbin : forall val, feasible (problem_of g wmax) val = true ->
            forall c, In c (range (order g)) ->
              val (name (colorUsed c)) == 0 \/ val (name (colorUsed c)) == 1).
  { intros val Hf c Hc. apply in_range in Hc.
    now apply (used_when_assigned g wmax val r c Hf Hr Hc). }
  destruct (count_of_binaries colorUsed val1 _ (Hbin val1 Hf1)) as [z1 E1].
  destruct (count_of_binaries colorUsed val2 _ (Hbin val2 Hf2)) as [z2 E2].
  fold (colours_used g val1) in E1. fold (colours_used g val2) in E2.
  assert (Hz : (z1 + 1 <= z2)%Z).
  { rewrite E1, E2 in Hlt. rewrite <- Zlt_Qlt in Hlt. lia. }
  rewrite Zle_Qle, inject_Z_plus in Hz. change (inject_Z 1) with 1 in Hz.
  assert (Hrows : forall val, feasible (problem_of g wmax) val = true ->
            0 <= value val (low_colour_term g)
            /\ 2 * value val (low_colour_term g) <= inject_Z (BIG g)).
  { intros val Hf.
    pose proof (rows_bounds val (order g) (relevants g)) as H.
    fold (low_colour_term g) in H.
    assert (E : inject_Z (BIG g)
                == 2 * inject_Z (Z.of_nat (length (relevants g))
                                 * sum (range (order g)))).
    { unfold BIG. rewrite !inject_Z_mult. change (inject_Z 2) with 2. lra. }
    assert (Hb : forall i c, In i (relevants g) -> In c (range (order g)) ->
                 0 <= val (name (assign i c)) <= 1).
    { intros i c Hi Hc. apply zero_one_bounds. apply in_range in Hc.
      now apply (assign_binary g wmax). }
    specialize (H Hb). lra. }
  destruct (Hrows val1 Hf1) as [_ Hs1]. destruct (Hrows val2 Hf2) as [Hs2 _].
  cbn [objective problem_of]. rewrite !value_app. unfold colour_count_term.
  rewrite (value_scaled val1 (inject_Z (BIG g)) colorUsed),
          (value_scaled val2 (inject_Z (BIG g)) colorUsed).
  fold (colours_used g val1). fold (colours_used g val2).
  rewrite E1, E2.
  destruct (Nat.le_gt_cases 2 (order g)) as [Hn|Hn].
  - assert (HB : 2 <= inject_Z (BIG g)).
    { change 2 with (inject_Z 2). rewrite <- Zle_Qle. unfold BIG.
      pose proof (sum_range (order g)) as Hs. rewrite ER. cbn [length].
      assert (1 <= sum (range (order g)))%Z by nia. nia. }
    nra.
  - exfalso.
    pose proof (relevant_in_order g r Hr) as Hro.
    assert (Hone : forall val, feasible (problem_of g wmax) val = true ->
              colours_used g val == 1).
    { intros val Hf.
      destruct (one_colour_per_vertex g wmax val r Hf Hr) as [c [Hc [H1 _]]].
      assert (c = 0%nat) by lia. subst c.
      assert (H0 : (0 < order g)%nat) by lia.
      destruct (used_when_assigned g wmax val r 0 Hf Hr H0) as [Hb Hle].
      unfold colours_used.
      replace (order g) with 1%nat by lia. cbn [range seq map].
      rewrite value_cons. cbn [value fold_right].
      destruct Hb as [E|E]; lra. }
    rewrite <- E1, <- E2 in Hz. rewrite (Hone val1 Hf1), (Hone val2 Hf2) in Hz.
    lra.
Qed.

Lemma fewer_colours_cheaper_witness :
  value Sample.lowest (objective (problem_of Sample.thirds 1))
  < value Sample.own (objective (problem_of Sample.thirds 1)).
Proof.
  assert (Hb : _colouring_lpproblem Sample.thirds 1
               = Ok (problem_of Sample.thirds 1))
    by (vm_compute; reflexivity).
  apply (fewer_colours_cheaper Sample.thirds 1 _ _ _ Hb);
    vm_compute; reflexivity.
Defined.

(** ** What a call leaves of the graph *)

Lemma same_but_colours_refl (g : Graph) : same_but_colours g g.
Proof. unfold same_but_colours. repeat split. Qed.

Lemma same_but_colours_trans (g1 g2 g3 : Graph) :
  same_but_colours g1 g2 -> same_but_colours g2 g3 -> same_but_colours g1 g3.
Proof.
  unfold same_but_colours.
  intros (A1 & A2 & A3 & A4 & A5 & A6) (B1 & B2 & B3 & B4 & B5 & B6).
  repeat split; congruence.
Qed.

Lemma set_all_colour_same (x : option Z) (g : Graph) :
  same_but_colours g (set_all_colour x g).
Proof.
  unfold same_but_colours, order, relevant_at, weight_at, set_all_colour. cbn.
  rewrite length_map. repeat split; intros j; rewrite nth_error_map;
    now destruct (nth_error (vs g) j).
Qed.

Lemma update_frame {A : Type} (f : A -> A) (l l' : list A) (i : nat) :
  update l i f = Some l' ->
  length l' = length l
  /\ forall j, nth_error l' j
               = if (j =? i)%nat then option_map f (nth_error l j)
                 else nth_error l j.
Proof.
  revert l' i. induction l as [|a l IH]; intros l' i H; [discriminate|].
  destruct i as [|i]; cbn in H.
  - inversion H; subst. split; [reflexivity|]. intros [|j]; reflexivity.
  - destruct (update l i f) as [r|] eqn:E; [|discriminate].
    inversion H; subst. destruct (IH r i E) as [Hlen Hnth].
    split; [cbn; now rewrite Hlen|]. intros [|j]; cbn; [reflexivity | apply Hnth].
Qed.

Lemma set_colour_frame (g g' : Graph) (i : nat) (c : Z) :
  set_colour g i c = Ok g' -> same_but_colours g g' /\ has_colour g' = true.
Proof.
  unfold set_colour. intros H.
  set (g0 := if has_colour g then g else set_all_colour None g) in H.
  assert (H0 : same_but_colours g g0).
  { unfold g0. destruct (has_colour g);
      [apply same_but_colours_refl | apply set_all_colour_same]. }
  destruct (update (vs g0) i _) as [l|] eqn:E; [|discriminate].
  inversion H; subst g'. clear H. split; [|reflexivity].
  apply (same_but_colours_trans _ _ _ H0).
  destruct (update_frame _ _ _ _ E) as [Hlen Hnth].
  unfold same_but_colours, order, relevant_at, weight_at. cbn.
  repeat split; try assumption; intros j; rewrite Hnth;
    destruct (j =? i)%nat; try reflexivity;
    now destruct (nth_error (vs g0) j).
Qed.

Lemma write_colours_frame (epsilon : Q) (val : VarName -> Q)
    (vars : list LpVariable) (g : Graph) :
  same_but_colours g (snd (write_colours epsilon val vars g))
  /\ (has_colour g = true ->
      has_colour (snd (write_colours epsilon val vars g)) = true).
Proof.
  revert g. induction vars as [|var vars IH]; intros g.
  - split; [apply same_but_colours_refl | auto].
  - cbn [write_colours].
    destruct (varValue val var) as [x|];
      [|split; [apply same_but_colours_refl | auto]].
    destruct (negb (Qle_bool x epsilon) && is_node (name var));
      [|apply IH].
    destruct (read_name (name var)) as [[i c]|e];
      [|split; [apply same_but_colours_refl | auto]].
    destruct (set_colour g (Z.to_nat i) c) as [g1|e] eqn:E;
      [|split; [apply same_but_colours_refl | auto]].
    destruct (set_colour_frame _ _ _ _ E) as [H1 Hc1].
    destruct (IH g1) as [H2 Hc2]. split.
    + now apply (same_but_colours_trans _ _ _ H1).
    + intros _. now apply Hc2.
Qed.

Lemma default_colour_same (g : Graph) : same_but_colours g (default_colour g).
Proof.
  unfold default_colour, vs_colour. destruct (has_colour g);
    [apply same_but_colours_refl | apply set_all_colour_same].
Qed.

Lemma default_relevant_frame (g : Graph) :
  es (default_relevant g) = es g
  /\ has_weight (default_relevant g) = has_weight g
  /\ order (default_relevant g) = order g
  /\ (forall j, weight_at (default_relevant g) j = weight_at g j)
  /\ (forall j, (j < order g)%nat ->
        relevant_at (default_relevant g) j
        = if has_relevant g then relevant_at g j else true).
Proof.
  unfold default_relevant, vs_relevant. destruct (has_relevant g).
  - repeat split.
  - unfold order, weight_at, relevant_at, set_all_relevant. cbn.
    rewrite length_map. repeat split; intros j; rewrite nth_error_map.
    + now destruct (nth_error (vs g) j).
    + intros Hj. apply nth_error_Some in Hj.
      now destruct (nth_error (vs g) j).
Qed.

Lemma default_weight_frame (g : Graph) :
  es (default_weight g) = es g
  /\ has_relevant (default_weight g) = has_relevant g
  /\ order (default_weight g) = order g
  /\ (forall j, relevant_at (default_weight g) j = relevant_at g j)
  /\ (forall j, (j < order g)%nat ->
        weight_at (default_weight g) j
        = if has_weight g then weight_at g j else 1).
Proof.
  unfold default_weight, vs_weight. destruct (has_weight g).
  - repeat split.
  - unfold order, weight_at, relevant_at, set_all_weight. cbn.
    rewrite length_map. repeat split; intros j; rewrite nth_error_map.
    + now destruct (nth_error (vs g) j).
    + intros Hj. apply nth_error_Some in Hj.
      now destruct (nth_error (vs g) j).
Qed.

Lemma default_attributes_frame (g : Graph) :
  es (default_attributes g) = es g
  /\ (forall j, (j < order g)%nat ->
        relevant_at (default_attributes g) j
        = if has_relevant g then relevant_at g j else true)
  /\ (forall j, (j < order g)%nat ->
        weight_at (default_attributes g) j
        = if has_weight g then weight_at g j else 1).
Proof.
  unfold default_attributes.
  destruct (default_colour_same g) as (C1 & C2 & C3 & C4 & C5 & C6).
  destruct (default_relevant_frame (default_colour g))
    as (R1 & R2 & R3 & R4 & R5).
  destruct (default_weight_frame (default_relevant (default_colour g)))
    as (W1 & W2 & W3 & W4 & W5).
  split; [congruence|]. split.
  - intros j Hj. rewrite W4, R5, C3, C5 by congruence. reflexivity.
  - intros j Hj. rewrite W5, R2, C4, R4, C6 by congruence. reflexivity.
Qed.

Lemma clear_unless_same (preserve : bool) (g : Graph) :
  same_but_colours g (clear_unless preserve g).
Proof.
  unfold clear_unless. destruct preserve; cbn [negb];
    [apply same_but_colours_refl | apply set_all_colour_same].
Qed.

(** Lines 28 to 61, what a call leaves of the graph of the caller whatever
    the solver answers and whether or not the call raises: the three
    attributes exist; the edges and the number of vertices are the ones
    given; the relevance and the weight of every vertex are the ones given
    where the attribute existed, and [True] and [1] where it did not. Only
    colours change. *)
Theorem coloring_touches_colours_only
    (solve : LpProblem -> Z * (VarName -> Q))
    (variables : LpProblem -> list LpVariable)
    (g : Graph) (wmax : option Q) (preserve : bool) :
  let after := snd (coloring solve variables g wmax preserve) in
  has_colour after = true /\ has_relevant after = true
  /\ has_weight after = true
  /\ es after = es g /\ order after = order g
  /\ (forall j, (j < order g)%nat ->
        relevant_at after j = if has_relevant g then relevant_at g j else true)
  /\ (forall j, (j < order g)%nat ->
        weight_at after j = if has_weight g then weight_at g j else 1).
Proof.
  intros after.
  destruct (default_attributes_flags g) as (Hc & Hr & Hw & Ho).
  destruct (default_attributes_frame g) as (He & Hrel & Hwei).
  set (before := clear_unless preserve (default_attributes g)).
  assert (Hsame : same_but_colours (default_attributes g) before)
    by apply clear_unless_same.
  assert (Hcb : has_colour before = true)
    by (destruct (clear_unless_flags preserve _ Hc) as (H & _); exact H).
  assert (Hafter : same_but_colours before after /\ has_colour after = true).
  { unfold after, coloring.
    rewrite (default_wmax_bound _ wmax Hw). fold before.
    destruct (_colouring_lpproblem before _) as [p|e]; cbn [snd];
      [|split; [apply same_but_colours_refl | exact Hcb]].
    destruct (solve p) as [status val].
    destruct (negb (status =? 1)%Z); cbn [snd];
      [split; [apply same_but_colours_refl | exact Hcb]|].
    destruct (write_colours_frame (1 # 2) val (variables p) before) as [H1 H2].
    destruct (write_colours (1 # 2) val (variables p) before) as [[u|e] g'];
      cbn [snd] in *; split; auto. }
  destruct Hafter as [Hsame' Hca].
  destruct (same_but_colours_trans _ _ _ Hsame Hsame')
    as (S1 & S2 & S3 & S4 & S5 & S6).
  repeat split; try congruence.
  - intros j Hj. rewrite S5. now apply Hrel.
  - intros j Hj. rewrite S6. now apply Hwei.
Qed.

(** ** A colouring that always exists *)

Lemma round_half_even_comp (x y : Q) :
  x == y -> round_half_even x = round_half_even y.
Proof.
  intros E. unfold round_half_even.
  assert (Ef : Qfloor x = Qfloor y) by now apply Qfloor_comp.
  rewrite Ef.
  assert (Ec : (x - inject_Z (Qfloor y) ?= 1 # 2)
               = (y - inject_Z (Qfloor y) ?= 1 # 2)) by now rewrite E.
  now rewrite Ec.
Qed.

Lemma round_half_even_mono (x y : Q) :
  x <= y -> (round_half_even x <= round_half_even y)%Z.
Proof.
  intros Hxy.
  destruct (Z.le_gt_cases (round_half_even x) (round_half_even y)) as [H|H];
    [exact H|].
  assert (H1 : (round_half_even y + 1 <= round_half_even x)%Z) by lia.
  rewrite Zle_Qle, inject_Z_plus in H1. change (inject_Z 1) with 1 in H1.
  pose proof (round_half_even_near x). pose proof (round_half_even_near y).
  assert (E : x == y) by lra.
  rewrite (round_half_even_comp x y E) in H. lia.
Qed.

(** [%f] keeps the order of two numbers. *)
Lemma format_f_mono (x y : Q) : x <= y -> format_f x <= format_f y.
Proof.
  intros Hxy. rewrite !format_f_value.
  assert (H : (round_half_even (x * 1000000) <= round_half_even (y * 1000000))%Z)
    by (apply round_half_even_mono; lra).
  rewrite Zle_Qle in H. lra.
Qed.

Lemma own_assign (i c : nat) :
  Sample.own (name (assign i c)) = if (c =? i)%nat then 1 else 0.
Proof.
  unfold Sample.own. rewrite node_of_assign.
  destruct (c =? i)%nat eqn:E.
  - apply Nat.eqb_eq in E. subst. now rewrite Z.eqb_refl.
  - apply Nat.eqb_neq in E.
    destruct (Z.of_nat c =? Z.of_nat i)%Z eqn:E'; [|reflexivity].
    apply Z.eqb_eq in E'. lia.
Qed.

Lemma own_colorUsed (c : nat) : Sample.own (name (colorUsed c)) = 1.
Proof. unfold Sample.own. now rewrite node_of_colorUsed. Qed.

(** Vertex [i] has one colour, its own. *)
Lemma own_row (i a len : nat) :
  value Sample.own (map (fun c => (1, assign i c)) (seq a len))
  == if (a <=? i)%nat && (i <? a + len)%nat then 1 else 0.
Proof.
  revert a. induction len as [|len IH]; intros a; cbn [seq map].
  - destruct (a <=? i)%nat eqn:E1, (i <? a + 0)%nat eqn:E2; cbn;
      try reflexivity.
    apply Nat.leb_le in E1. apply Nat.ltb_lt in E2. lia.
  - rewrite value_cons, IH, own_assign.
    destruct (a =? i)%nat eqn:E0;
      destruct (S a <=? i)%nat eqn:E1; destruct (i <? S a + len)%nat eqn:E2;
      destruct (a <=? i)%nat eqn:E3; destruct (i <? a + S len)%nat eqn:E4;
      cbn [andb]; try lra; exfalso;
      rewrite ?Nat.eqb_eq, ?Nat.eqb_neq, ?Nat.leb_le, ?Nat.leb_gt,
        ?Nat.ltb_lt, ?Nat.ltb_ge in *; lia.
Qed.

(** Colour [c] carries vertex [c] and no other. *)
Lemma own_column (a : nat -> Q) (c : nat) (l : list nat) :
  NoDup l ->
  value Sample.own (map (fun i => (a i, assign i c)) l)
  == if contains c l then a c else 0.
Proof.
  induction 1 as [|i l Hi Hl IH]; cbn [map].
  - reflexivity.
  - rewrite value_cons, IH, own_assign. unfold contains. cbn [existsb].
    destruct (c =? i)%nat eqn:E.
    + apply Nat.eqb_eq in E. subst i. cbn [orb].
      destruct (existsb (Nat.eqb c) l) eqn:El; [|lra].
      exfalso. apply Hi. now apply contains_in.
    + cbn [orb]. lra.
Qed.

Lemma relevants_NoDup (g : Graph) : NoDup (relevants g).
Proof. unfold relevants, range. apply NoDup_filter, seq_NoDup. Qed.

Lemma in_domain_binary (val : VarName -> Q) (x : VarName) :
  val x = 0 \/ val x = 1 -> in_domain val (binary x) = true.
Proof.
  unfold in_domain. cbn [name lowBound upBound cat binary].
  intros [-> | ->]; reflexivity.
Qed.

(** Lines 111 to 142, solvable problems: when no relevant vertex has an
    edge to itself, every relevant vertex weighs at most the bound, the
    bound is not negative, and a relevant vertex that is pre-set is pre-set
    to its own index, then giving vertex [i] the colour [i] and marking
    every colour as used is a feasible valuation of the built problem. *)
Theorem own_colours_feasible (g : Graph) (wmax : Q) (p : LpProblem) :
  _colouring_lpproblem g wmax = Ok p ->
  (forall u, In u (relevants g) -> ~ In (u, u) (es g)) ->
  0 <= wmax ->
  (forall i, In i (relevants g) -> weight_at g i <= wmax) ->
  (forall i k, In i (relevants g) -> colour_at g i = Some k -> k = Z.of_nat i) ->
  feasible p Sample.own = true.
Proof.
  intros Hb Hloop Hw0 Hw Hpre. apply build_inversion in Hb.
  destruct Hb as (_ & _ & _ & _ & Hok & ->).
  unfold feasible. apply andb_true_iff. split; apply forallb_forall.
  - intros v Hv.
    destruct (occurring_cases g wmax v Hok Hv)
      as [[c [_ ->]] | [i [k [_ [Hk ->]]]]].
    + apply in_domain_binary. right. apply own_colorUsed.
    + unfold candidate in Hk. apply andb_true_iff in Hk.
      destruct Hk as [Hk0 _]. apply Z.leb_le in Hk0.
      pose proof (own_assign i (Z.to_nat k)) as Ho.
      unfold assign in Ho. rewrite (Z2Nat.id k Hk0) in Ho.
      cbn [name binary] in Ho. apply in_domain_binary. rewrite Ho.
      destruct (Z.to_nat k =? i)%nat; auto.
  - intros c Hc. cbn [constraints problem_of] in Hc.
    apply in_app_or in Hc. destruct Hc as [Hc|Hc].
    { apply in_map_iff in Hc. destruct Hc as [i [<- Hi]].
      unfold satisfies, exactly_one. cbn [sense lhs rhs eq_constraint].
      apply Qeq_bool_iff. unfold range. rewrite own_row.
      pose proof (relevant_in_order g i Hi) as Hlt.
      destruct (0 <=? i)%nat eqn:E1; destruct (i <? 0 + order g)%nat eqn:E2;
        cbn [andb]; try reflexivity; exfalso;
        rewrite ?Nat.leb_gt, ?Nat.ltb_ge in *; lia. }
    apply in_app_or in Hc. destruct Hc as [Hc|Hc].
    { apply in_flat_map in Hc. destruct Hc as [[u v] [He Hc]].
      cbn [source target fst snd] in Hc.
      destruct (contains u (relevants g)) eqn:Eu; [|destruct Hc].
      destruct (contains v (relevants g)) eqn:Ev; [|destruct Hc].
      cbn [andb] in Hc. apply in_map_iff in Hc. destruct Hc as [k [<- _]].
      unfold satisfies, adjacency. cbn [sense lhs rhs le_constraint].
      apply Qle_bool_iff. rewrite !value_cons, !own_assign.
      cbn [value fold_right].
      destruct (k =? u)%nat eqn:E1; destruct (k =? v)%nat eqn:E2; try lra.
      exfalso. apply Nat.eqb_eq in E1, E2. subst u v.
      apply contains_in in Eu. now apply (Hloop k Eu). }
    apply in_app_or in Hc. destruct Hc as [Hc|Hc].
    { apply in_map_iff in Hc. destruct Hc as [k [<- _]].
      unfold satisfies, capacity. cbn [sense lhs rhs le_constraint].
      apply Qle_bool_iff.
      rewrite (own_column (fun i => format_f (weight_at g i)) k
                 (relevants g) (relevants_NoDup g)).
      destruct (contains k (relevants g)) eqn:Ek.
      - apply format_f_mono, Hw. now apply contains_in.
      - now apply format_f_nonneg. }
    apply in_app_or in Hc. destruct Hc as [Hc|Hc].
    { apply in_flat_map in Hc. destruct Hc as [i [_ Hc]].
      apply in_map_iff in Hc. destruct Hc as [k [<- _]].
      unfold satisfies, linking. cbn [sense lhs rhs ge_constraint].
      apply Qle_bool_iff. rewrite !value_cons, own_colorUsed, own_assign.
      cbn [value fold_right]. destruct (k =? i)%nat; lra. }
    apply in_flat_map in Hc. destruct Hc as [[i v] [Hiv Hc]].
    apply enumerate_inv in Hiv. unfold persistence_at in Hc.
    cbn [fst snd] in Hc.
    destruct (colour v) as [k|] eqn:Ek; [|destruct Hc].
    destruct (contains i (relevants g)) eqn:Ei; [|destruct Hc].
    destruct Hc as [<- | []]. apply contains_in in Ei.
    assert (E : k = Z.of_nat i).
    { apply (Hpre i k Ei). unfold colour_at. now rewrite Hiv. }
    subst k. unfold satisfies, persistence. cbn [sense lhs rhs eq_constraint].
    apply Qeq_bool_iff. fold (assign i i). rewrite value_cons, own_assign.
    rewrite Nat.eqb_refl. cbn [value fold_right]. lra.
Qed.

Lemma own_colours_feasible_witness :
  feasible (problem_of Sample.edge 2) Sample.own = true.
Proof.
  assert (Hb : _colouring_lpproblem Sample.edge 2 = Ok (problem_of Sample.edge 2))
    by (vm_compute; reflexivity).
  apply (own_colours_feasible Sample.edge 2 _ Hb).
  - intros u _ [E | []]. inversion E; subst; discriminate.
  - vm_compute. discriminate.
  - intros i [<- | [<- | []]]; vm_compute; discriminate.
  - intros i k [<- | [<- | []]]; vm_compute; discriminate.
Defined.

(** ** What the builder reads of the graph *)

Lemma flat_map_guard {A B : Type} (q : A -> bool) (f : A -> list B)
    (l : list A) :
  flat_map (fun a => if q a then f a else []) l = flat_map f (filter q l).
Proof.
  induction l as [|a l IH]; cbn; [reflexivity|].
  destruct (q a); cbn; now rewrite IH.
Qed.

Lemma flat_map_enumerate_from {A B : Type} (f f' : nat * A -> list B)
    (l l' : list A) (a : nat) :
  length l' = length l ->
  (forall i v v', nth_error l i = Some v -> nth_error l' i = Some v' ->
                  f' ((a + i)%nat, v') = f ((a + i)%nat, v)) ->
  flat_map f' (combine (seq a (length l')) l')
  = flat_map f (combine (seq a (length l)) l).
Proof.
  revert l' a. induction l as [|v l IH]; intros [|v' l'] a Hlen H;
    try discriminate; [reflexivity|].
  cbn [length seq combine flat_map]. f_equal.
  - specialize (H 0%nat v v' eq_refl eq_refl). now rewrite Nat.add_0_r in H.
  - apply IH; [cbn in Hlen; lia|]. intros i x x' Hx Hx'.
    replace (S a + i)%nat with (a + S i)%nat by lia. now apply H.
Qed.

Lemma relevants_ext (g g' : Graph) :
  order g' = order g -> (forall i, relevant_at g' i = relevant_at g i) ->
  relevants g' = relevants g.
Proof.
  intros Ho Hr. unfold relevants. rewrite Ho. now apply filter_ext.
Qed.

Lemma problem_of_ext (g g' : Graph) (wmax : Q) :
  order g' = order g ->
  (forall i, relevant_at g' i = relevant_at g i) ->
  (forall i, In i (relevants g) ->
     weight_at g' i = weight_at g i /\ colour_at g' i = colour_at g i) ->
  filter (fun e => contains (source e) (relevants g)
                   && contains (target e) (relevants g)) (es g')
  = filter (fun e => contains (source e) (relevants g)
                     && contains (target e) (relevants g)) (es g) ->
  problem_of g' wmax = problem_of g wmax.
Proof.
  intros Ho Hr Hin He. pose proof (relevants_ext g g' Ho Hr) as ER.
  unfold problem_of. f_equal.
  - unfold colour_count_term, low_colour_term, BIG. now rewrite ER, Ho.
  - f_equal; [|f_equal; [|f_equal; [|f_equal]]].
    + rewrite ER. apply map_ext. intros i. unfold exactly_one. now rewrite Ho.
    + rewrite ER, Ho.
      rewrite (flat_map_guard
                 (fun e => contains (source e) (relevants g)
                           && contains (target e) (relevants g))
                 (fun e => map (adjacency (source e) (target e))
                               (range (order g))) (es g')).
      rewrite (flat_map_guard
                 (fun e => contains (source e) (relevants g)
                           && contains (target e) (relevants g))
                 (fun e => map (adjacency (source e) (target e))
                               (range (order g))) (es g)).
      now rewrite He.
    + rewrite Ho. apply map_ext. intros c. unfold capacity. rewrite ER.
      f_equal. apply map_ext_in. intros i Hi.
      now rewrite (proj1 (Hin i Hi)).
    + now rewrite ER, Ho.
    + unfold enumerate, range. apply flat_map_enumerate_from; [exact Ho|].
      intros i v v' Hv Hv'. cbn [Nat.add]. unfold persistence_at.
      cbn [fst snd]. rewrite ER.
      destruct (contains i (relevants g)) eqn:Ei.
      * apply contains_in in Ei. destruct (Hin i Ei) as [_ Hc].
        unfold colour_at in Hc. rewrite Hv, Hv' in Hc. now rewrite Hc.
      * now destruct (colour v'), (colour v).
Qed.

Lemma bool_ext (a b : bool) : (a = true <-> b = true) -> a = b.
Proof.
  destruct a, b; intros [H1 H2]; try reflexivity.
  - symmetry. now apply H1.
  - now apply H2.
Qed.

(** Lines 64 to 143 read a vertex that is not relevant for nothing but the
    count of the vertices: two graphs with the same attributes and the
    same number of vertices, the same relevant vertices with the same
    weights and colours, and the same edges between relevant vertices,
    give the same problem, or raise the same exception. *)
Theorem builder_reads_relevant_part (g g' : Graph) (wmax : Q) :
  has_colour g' = has_colour g -> has_relevant g' = has_relevant g ->
  has_weight g' = has_weight g -> order g' = order g ->
  (forall i, relevant_at g' i = relevant_at g i) ->
  (forall i, In i (relevants g) ->
     weight_at g' i = weight_at g i /\ colour_at g' i = colour_at g i) ->
  filter (fun e => contains (source e) (relevants g)
                   && contains (target e) (relevants g)) (es g')
  = filter (fun e => contains (source e) (relevants g)
                     && contains (target e) (relevants g)) (es g) ->
  _colouring_lpproblem g' wmax = _colouring_lpproblem g wmax.
Proof.
  intros Hc Hr Hw Ho Hrel Hin He. rewrite !build_outcome. unfold outcome.
  pose proof (relevants_ext g g' Ho Hrel) as ER.
  rewrite (problem_of_ext g g' wmax Ho Hrel Hin He), ER, Hc, Hr, Hw.
  assert (Hpre : forallb (preset_ok g') (enumerate (vs g'))
                 = forallb (preset_ok g) (enumerate (vs g))).
  { apply bool_ext. rewrite !presets_ok_iff, ER. split; intros H i k Hi Hk.
    - unfold candidate. rewrite <- Ho. apply (H i k Hi).
      now rewrite (proj2 (Hin i Hi)).
    - unfold candidate. rewrite Ho. apply (H i k Hi).
      now rewrite <- (proj2 (Hin i Hi)). }
  rewrite Hpre. unfold order in Ho.
  destruct (vs g') as [|v' l'], (vs g) as [|v l]; try discriminate; reflexivity.
Qed.

Lemma builder_reads_relevant_part_witness :
  _colouring_lpproblem Outside.onlooker 1 = _colouring_lpproblem Sample.bystander 1.
Proof.
  apply builder_reads_relevant_part; try reflexivity.
  - intros [|[|i]]; reflexivity.
  - intros i [<- | []]. split; reflexivity.
Defined.

(** ** A call that starts from no colour *)



Section Fresh.

Variable solve : LpProblem -> Z * (VarName -> Q).
Variable variables : LpProblem -> list LpVariable.

Hypothesis variables_listed : forall p, lists p (variables p).


End Fresh.


(** ** The graph after a solved call *)

Lemma fsum_from (l : list Q) (a : Q) : fold_left Qplus l a == a + fsum l.
Proof.
  unfold fsum. revert a. induction l as [|x l IH]; intros a; cbn [fold_left].
  - lra.
  - rewrite (IH (a + x)), (IH (0 + x)). lra.
Qed.

Lemma fsum_cons (x : Q) (l : list Q) : fsum (x :: l) == x + fsum l.
Proof. unfold fsum at 1. cbn [fold_left]. rewrite fsum_from. lra. Qed.

Lemma load_bounded (g : Graph) (wmax : Q) (val : VarName -> Q) (c : nat) :
  feasible (problem_of g wmax) val = true -> (c < order g)%nat ->
  value val (map (fun i => (weight_at g i, assign i c)) (relevants g))
  <= wmax + (inject_Z (Z.of_nat (length (relevants g))) + 1) * (1 # 2000000).
Proof.
  intros Hf Hc.
  pose proof (feasible_constraint _ _ _ Hf (capacity_in g wmax c Hc)) as Hs.
  unfold satisfies, capacity in Hs. cbn [sense lhs rhs le_constraint] in Hs.
  apply Qle_bool_iff in Hs.
  pose proof (rounded_load g val c (relevants g)) as Hl.
  pose proof (format_f_near wmax) as Hw.
  assert (Hbin : forall i, In i (relevants g) ->
                 0 <= val (name (assign i c)) <= 1).
  { intros i Hi. apply zero_one_bounds. now apply (assign_binary g wmax). }
  specialize (Hl Hbin). lra.
Qed.

(** The weight of the vertices a test selects, as a sum over all of them. *)
Lemma selected_weight (val : VarName -> Q) (w : nat -> Q) (c : nat)
    (test : nat -> bool) (l : list nat) :
  (forall i, In i l ->
     val (name (assign i c)) == if test i then 1 else 0) ->
  fsum (map w (filter test l))
  == value val (map (fun i => (w i, assign i c)) l).
Proof.
  intros H. induction l as [|i l IH]; cbn [filter map].
  - reflexivity.
  - rewrite value_cons, (H i (or_introl eq_refl)).
    assert (IH' := IH (fun j Hj => H j (or_intror Hj))).
    destruct (test i); cbn [map]; [rewrite fsum_cons|]; lra.
Qed.

Section Solved.

Variable solve : LpProblem -> Z * (VarName -> Q).
Variable variables : LpProblem -> list LpVariable.

Hypothesis variables_listed : forall p, lists p (variables p).

(** Status 1 and a feasible valuation: the call returns 1, or raises
    [TypeError] on a graph with one vertex, and every relevant vertex
    carries the one colour its variables give it. *)
Lemma solved_colours (g : Graph) (wmax : option Q) (preserve : bool)
    (val : VarName -> Q) :
  let before := clear_unless preserve (default_attributes g) in
  let w := capacity_bound (default_attributes g) wmax in
  let r := coloring solve variables g wmax preserve in
  relevants before <> [] ->
  forallb (preset_ok before) (enumerate (vs before)) = true ->
  solve (problem_of before w) = (1%Z, val) ->
  feasible (problem_of before w) val = true ->
  fst r = (if (order g =? 1)%nat then Raise TypeError else Ok 1%Z)
  /\ same_but_colours before (snd r)
  /\ forall i, In i (relevants before) ->
       exists c, (c < order before)%nat
                 /\ colour_of (snd r) i = Some (Z.of_nat c)
                 /\ val (name (assign i c)) == 1
                 /\ forall c', (c' < order before)%nat -> c' <> c ->
                               val (name (assign i c')) == 0.
Proof.
  intros before w r HR Hpre Hs Hf.
  destruct (default_attributes_flags g) as (Hc & Hr & Hw & Ho).
  destruct (clear_unless_flags preserve _ Hc) as (Hc' & Hr' & Hw' & Ho').
  fold before in Hc', Hr', Hw', Ho'. rewrite Hr in Hr'. rewrite Hw in Hw'.
  assert (Hb : _colouring_lpproblem before w = Ok (problem_of before w)).
  { rewrite build_outcome. unfold outcome. rewrite Hr', Hw', Hc', Hpre.
    cbn [negb]. destruct (vs before) eqn:Ev.
    - exfalso. apply HR. unfold relevants, order. now rewrite Ev.
    - destruct (relevants before); [congruence | reflexivity]. }
  pose proof (coloring_returns solve variables variables_listed
                g wmax preserve _ 1%Z val Hb Hs) as E.
  cbn [Z.eqb Pos.eqb] in E. destruct E as [g' [E Hfin]].
  fold before in Hfin. fold r in E.
  assert (Hframe : same_but_colours before (snd r)).
  { unfold r, coloring. rewrite (default_wmax_bound _ wmax Hw).
    fold before. fold w. rewrite Hb, Hs. cbn [Z.eqb Pos.eqb negb].
    pose proof (write_colours_frame (1 # 2) val
                  (variables (problem_of before w)) before) as [H _].
    now destruct (write_colours (1 # 2) val
                    (variables (problem_of before w)) before) as [[u|e] g0]. }
  rewrite E. cbn [fst snd]. split; [reflexivity|].
  split; [now rewrite E in Hframe|].
  intros i Hi.
  destruct (one_colour_per_vertex before w val i Hf Hi) as [c [Hc0 [H1 H0]]].
  exists c. split; [exact Hc0|]. split; [|split; [exact H1 | exact H0]].
  rewrite Hfin.
  apply (final_colour_unique variables variables_listed before w val i c);
    [exact Hpre | exact Hi | exact Hc0 | lra |].
  intros c' Hlt Hv. destruct (Nat.eq_dec c' c) as [->|Hne]; [reflexivity|].
  specialize (H0 c' Hlt Hne). lra.
Qed.

(** Lines 49 to 61 on a solved problem. When the solver reports status 1
    with a feasible valuation of the built problem, the call returns 1, or
    raises [TypeError] on a graph with one vertex, and in both cases the
    graph it leaves is properly coloured: every relevant vertex has a
    colour among [0 .. |V|-1], and the two ends of an edge between relevant
    vertices have different colours. *)
Theorem solved_graph_proper (g : Graph) (wmax : option Q) (preserve : bool)
    (p : LpProblem) (val : VarName -> Q) :
  let before := clear_unless preserve (default_attributes g) in
  let r := coloring solve variables g wmax preserve in
  _colouring_lpproblem before (capacity_bound (default_attributes g) wmax)
  = Ok p ->
  solve p = (1%Z, val) -> feasible p val = true ->
  fst r = (if (order g =? 1)%nat then Raise TypeError else Ok 1%Z)
  /\ (forall i, In i (relevants before) ->
        exists c, (c < order g)%nat
                  /\ colour_of (snd r) i = Some (Z.of_nat c))
  /\ (forall u v, In (u, v) (es g) ->
        In u (relevants before) -> In v (relevants before) ->
        colour_of (snd r) u <> colour_of (snd r) v).
Proof.
  intros before r Hb Hs Hf.
  pose proof (build_inversion _ _ _ Hb) as (_ & HR & _ & _ & Hpre & ->).
  destruct (solved_colours g wmax preserve val HR Hpre Hs Hf)
    as (Hret & _ & Hcol).
  fold before in Hcol. fold r in Hret, Hcol.
  destruct (default_attributes_flags g) as (Hc & _ & _ & Ho).
  destruct (clear_unless_flags preserve _ Hc) as (_ & _ & _ & Ho').
  fold before in Ho'. rewrite Ho in Ho'.
  assert (Hes : es before = es g).
  { destruct (clear_unless_same preserve (default_attributes g)) as (H & _).
    fold before in H. rewrite H. apply default_attributes_frame. }
  split; [exact Hret|]. split.
  - intros i Hi. destruct (Hcol i Hi) as [c [Hc0 [Hci _]]].
    exists c. split; [now rewrite <- Ho' | exact Hci].
  - intros u v He Hu Hv Heq.
    destruct (Hcol u Hu) as [cu [Hcu [Eu [Hu1 _]]]].
    destruct (Hcol v Hv) as [cv [Hcv [Ev [Hv1 _]]]].
    rewrite Eu, Ev in Heq. inversion Heq as [Hz]. apply Nat2Z.inj in Hz.
    subst cv. rewrite <- Hes in He.
    pose proof (same_colour_excluded before _ val u v cu Hf He Hu Hv Hcu). lra.
Qed.

(** Lines 49 to 61 on a solved problem, the capacity. When the solver
    reports status 1 with a feasible valuation, the relevant vertices the
    graph has on one colour weigh together at most the bound handed to the
    builder, up to the rounding of [%f]: half a millionth per relevant
    vertex and for the bound. *)
Theorem solved_graph_within_capacity (g : Graph) (wmax : option Q)
    (preserve : bool) (p : LpProblem) (val : VarName -> Q) (c : nat) :
  let before := clear_unless preserve (default_attributes g) in
  let r := coloring solve variables g wmax preserve in
  _colouring_lpproblem before (capacity_bound (default_attributes g) wmax)
  = Ok p ->
  solve p = (1%Z, val) -> feasible p val = true ->
  (c < order g)%nat ->
  class_weight (snd r) (Z.of_nat c)
  <= capacity_bound (default_attributes g) wmax
     + (inject_Z (Z.of_nat (length (relevants before))) + 1) * (1 # 2000000).
Proof.
  intros before r Hb Hs Hf Hc.
  pose proof (build_inversion _ _ _ Hb) as (_ & HR & _ & _ & Hpre & ->).
  destruct (solved_colours g wmax preserve val HR Hpre Hs Hf)
    as (_ & Hsame & Hcol).
  fold before in Hsame, Hcol. fold r in Hsame, Hcol.
  destruct Hsame as (_ & So & _ & _ & Sr & Sw).
  destruct (default_attributes_flags g) as (Hc0 & _ & _ & Ho).
  destruct (clear_unless_flags preserve _ Hc0) as (_ & _ & _ & Ho').
  fold before in Ho'. rewrite Ho in Ho'.
  assert (Hcb : (c < order before)%nat) by now rewrite Ho'.
  pose proof (load_bounded before _ val c Hf Hcb) as Hload.
  assert (ER : relevants (snd r) = relevants before)
    by now apply relevants_ext.
  unfold class_weight, colour_class. rewrite ER.
  rewrite (selected_weight val (weight_at (snd r)) c).
  - erewrite map_ext; [exact Hload|]. intros i. cbn beta. now rewrite Sw.
  - intros i Hi. destruct (Hcol i Hi) as [ci [Hci [Ei [H1 H0]]]].
    rewrite Ei. destruct (Z.of_nat ci =? Z.of_nat c)%Z eqn:E.
    + apply Z.eqb_eq, Nat2Z.inj in E. now subst ci.
    + apply Z.eqb_neq in E. apply H0; [exact Hcb|]. intros ->. now apply E.
Qed.

End Solved.

Lemma solved_graph_proper_witness :
  let r := coloring (Sample.answer 1 Sample.own) listing Sample.edge None false in
  fst r = Ok 1%Z /\ colour_of (snd r) 0 <> colour_of (snd r) 1.
Proof.
  pose (before := clear_unless false (default_attributes Sample.edge)).
  pose (p := problem_of before (capacity_bound (default_attributes Sample.edge) None)).
  assert (Hb : _colouring_lpproblem before
                 (capacity_bound (default_attributes Sample.edge) None) = Ok p)
    by (vm_compute; reflexivity).
  assert (Hf : feasible p Sample.own = true) by (vm_compute; reflexivity).
  destruct (solved_graph_proper (Sample.answer 1 Sample.own) listing
              listing_lists Sample.edge None false p Sample.own
              Hb eq_refl Hf) as (Hret & _ & Hadj).
  intros r. split; [exact Hret|].
  apply Hadj; [now left | now left | right; now left].
Defined.

Lemma solved_graph_within_capacity_witness :
  class_weight
    (snd (coloring (Sample.answer 1 Sample.lowest) listing
            Sample.thirds (Some 1) false)) 0
  <= 1 + (inject_Z 2 + 1) * (1 # 2000000).
Proof.
  pose (before := clear_unless false (default_attributes Sample.thirds)).
  pose (p := problem_of before
               (capacity_bound (default_attributes Sample.thirds) (Some 1))).
  assert (Hb : _colouring_lpproblem before
                 (capacity_bound (default_attributes Sample.thirds) (Some 1))
               = Ok p)
    by (vm_compute; reflexivity).
  assert (Hf : feasible p Sample.lowest = true) by (vm_compute; reflexivity).
  apply (solved_graph_within_capacity (Sample.answer 1 Sample.lowest) listing
           listing_lists Sample.thirds (Some 1) false p Sample.lowest
           0 Hb eq_refl Hf).
  cbn. lia.
Defined.

(** ** Weights that [%f] writes in full *)

Lemma round_half_even_integer (z : Z) : round_half_even (inject_Z z) = z.
Proof.
  unfold round_half_even. rewrite Qfloor_Z.
  assert (E : (inject_Z z - inject_Z z ?= 1 # 2) = Lt).
  { apply -> Qlt_alt. lra. }
  now rewrite E.
Qed.

Lemma format_f_exact (q : Q) (z : Z) : q == z # 1000000 -> format_f q == q.
Proof.
  intros E. rewrite format_f_value.
  assert (Ez : q * 1000000 == inject_Z z).
  { rewrite E. unfold Qeq, Qmult, inject_Z. cbn. lia. }
  rewrite (round_half_even_comp _ _ Ez), round_half_even_integer, E.
  unfold Qeq, Qmult, inject_Z. cbn. lia.
Qed.

Lemma value_coefficients (val : VarName -> Q) (a b : nat -> Q)
    (h : nat -> LpVariable) (l : list nat) :
  (forall i, In i l -> a i == b i) ->
  value val (map (fun i => (a i, h i)) l)
  == value val (map (fun i => (b i, h i)) l).
Proof.
  intros H. induction l as [|i l IH]; cbn [map].
  - reflexivity.
  - rewrite !value_cons, (H i (or_introl eq_refl)),
      (IH (fun j Hj => H j (or_intror Hj))). reflexivity.
Qed.

(** Lines 127 to 132 on weights and a bound with six decimals at most:
    [%f] writes them in full, and in a feasible valuation of the built
    problem the weight on a colour is at most the bound, with no
    tolerance. *)
Theorem capacity_exact_on_six_decimals (g : Graph) (wmax : Q) (p : LpProblem)
    (c : nat) :
  _colouring_lpproblem g wmax = Ok p -> (c < order g)%nat ->
  (exists z, wmax == z # 1000000) ->
  (forall i, In i (relevants g) -> exists z, weight_at g i == z # 1000000) ->
  forall val, feasible p val = true -> load g val c <= wmax.
Proof.
  intros Hb Hc [zw Hw] Hwei val Hf. apply build_inversion in Hb.
  destruct Hb as (_ & _ & _ & _ & _ & ->).
  pose proof (feasible_constraint _ _ _ Hf (capacity_in g wmax c Hc)) as Hs.
  unfold satisfies, capacity in Hs. cbn [sense lhs rhs le_constraint] in Hs.
  apply Qle_bool_iff in Hs. rewrite (format_f_exact wmax zw Hw) in Hs.
  unfold load.
  rewrite (value_coefficients val (weight_at g)
             (fun i => format_f (weight_at g i)) (fun i => assign i c)).
  - exact Hs.
  - intros i Hi. destruct (Hwei i Hi) as [z Hz].
    symmetry. exact (format_f_exact _ z Hz).
Qed.

Lemma capacity_exact_on_six_decimals_witness :
  load Sample.edge Sample.own 0 <= 2.
Proof.
  assert (Hb : _colouring_lpproblem Sample.edge 2 = Ok (problem_of Sample.edge 2))
    by (vm_compute; reflexivity).
  apply (capacity_exact_on_six_decimals Sample.edge 2 _ 0 Hb).
  - cbn. lia.
  - exists 2000000%Z. reflexivity.
  - intros i [<- | [<- | []]]; exists 1000000%Z; reflexivity.
  - vm_compute. reflexivity.
Defined.

(* ------------------------------------------------------------------ *)
(** * Two defects of the entry point *)

(** C5 on the code. On the graph with one vertex, relevant and of weight
    1, the objective is [0 * colorUsed[0] + 0 * assign[0,0]]: it has no
    variable, PuLP lists [__dummy] with the variables, and [__dummy] has
    no value. Whatever the bound and [preserve], whenever the solver
    reports status 1 the comparison of line 55 raises [TypeError] and the
    call returns neither 0 nor 1. With the vertex on colour 0, the colour
    is written before the exception. *)
Theorem one_vertex_type_error :
  let g := Sample.single in
  (forall (solve : LpProblem -> Z * (VarName -> Q))
          (variables : LpProblem -> list LpVariable)
          (wmax : option Q) (preserve : bool),
      (forall p, lists p (variables p)) ->
      (forall p, fst (solve p) = 1%Z) ->
      fst (coloring solve variables g wmax preserve) = Raise TypeError)
  /\ (exists p,
        _colouring_lpproblem (clear_unless false (default_attributes g))
          (capacity_bound (default_attributes g) None) = Ok p
        /\ feasible p Sample.lowest = true
        /\ constant (objective p) = true
        /\ listing p = [colorUsed 0; assign 0 0; dummy]
        /\ varValue Sample.lowest dummy = None)
  /\ coloring (Sample.answer 1 Sample.lowest) listing g None false
     = (Raise TypeError, Sample.graph [Sample.node (Some 0%Z) true 1] []).
Proof.
  intros g. split; [|split].
  - intros solve variables wmax preserve Hvars Hsolve.
    assert (Hb : _colouring_lpproblem (clear_unless preserve (default_attributes g))
                   (capacity_bound (default_attributes g) wmax)
                 = Ok (problem_of (clear_unless preserve (default_attributes g))
                         (capacity_bound (default_attributes g) wmax))).
    { rewrite build_outcome. destruct preserve; reflexivity. }
    destruct (solve (problem_of (clear_unless preserve (default_attributes g))
                       (capacity_bound (default_attributes g) wmax)))
      as [status val] eqn:Es.
    pose proof (Hsolve (problem_of (clear_unless preserve (default_attributes g))
                          (capacity_bound (default_attributes g) wmax))) as H1.
    rewrite Es in H1. cbn [fst] in H1. subst status.
    pose proof (coloring_returns solve variables Hvars g wmax preserve _ 1%Z val
                  Hb Es) as Hrun.
    cbn [Z.eqb Pos.eqb] in Hrun. destruct Hrun as [g' [E _]].
    rewrite E. reflexivity.
  - exists (problem_of (clear_unless false (default_attributes g))
                       (capacity_bound (default_attributes g) None)).
    split; [vm_compute; reflexivity|].
    split; [vm_compute; reflexivity|].
    split; [vm_compute; reflexivity|].
    split; [vm_compute; reflexivity | reflexivity].
  - vm_compute. reflexivity.
Qed.

Lemma overweight_problem (g : Graph) (wmax : Q) (i : nat) :
  (forall j, In j (relevants g) -> 0 <= weight_at g j) ->
  In i (relevants g) ->
  wmax + (1 # 1000000) < weight_at g i ->
  forall val, feasible (problem_of g wmax) val = false.
Proof.
  intros Hpos Hi Hheavy val.
  destruct (feasible (problem_of g wmax) val) eqn:Hf; [|reflexivity].
  destruct (one_colour_per_vertex g wmax val i Hf Hi) as [c [Hc [H1 _]]].
  pose proof (feasible_constraint _ _ _ Hf (capacity_in g wmax c Hc)) as Hs.
  unfold satisfies, capacity in Hs. cbn [sense lhs rhs le_constraint] in Hs.
  apply Qle_bool_iff in Hs.
  assert (Hlow : format_f (weight_at g i) * val (name (assign i c))
                 <= value val
                      (map (fun j => (format_f (weight_at g j), assign j c))
                           (relevants g))).
  { apply value_at_least.
    - intros t Ht. apply in_map_iff in Ht. destruct Ht as [j [<- Hj]].
      cbn [fst snd]. split.
      + apply format_f_nonneg. now apply Hpos.
      + apply zero_one_bounds. now apply (assign_binary g wmax).
    - apply in_map_iff. now exists i. }
  pose proof (format_f_near wmax). pose proof (format_f_near (weight_at g i)).
  nra.
Qed.

(** C8 on the code. Two vertices of weights 1 and 3 without edge, and the
    bound 0 supplied by the caller: [not wmax] holds, so line 44 replaces
    the bound by the total weight 4, as if none had been supplied. The
    capacity constraint of colour 0 is [1 x + 3 y <= 4], not
    [1 x + 3 y <= 0]; both vertices on colour 0 is feasible and the call
    returns 1 with the weight 4 on colour 0, while the problem with the
    bound 0 has no feasible valuation. *)
Theorem zero_bound_replaced :
  let g := Edge.heavy in
  let before := clear_unless false (default_attributes g) in
  default_wmax (default_attributes g) (Some 0)
  = default_wmax (default_attributes g) None
  /\ capacity_bound (default_attributes g) (Some 0) == 4
  /\ (exists p,
        _colouring_lpproblem before
          (capacity_bound (default_attributes g) (Some 0)) = Ok p
        /\ In (le_constraint [(1, assign 0 0); (3, assign 1 0)] 4)
              (constraints p)
        /\ ~ In (le_constraint [(1, assign 0 0); (3, assign 1 0)] 0)
                (constraints p)
        /\ feasible p Sample.lowest = true)
  /\ load g Sample.lowest 0 == 4
  /\ (forall val, feasible (problem_of before 0) val = false)
  /\ coloring (Sample.answer 1 Sample.lowest) listing g (Some 0) false
     = (Ok 1%Z,
        Sample.graph [Sample.node (Some 0%Z) true 1;
                      Sample.node (Some 0%Z) true 3] []).
Proof.
  intros g before.
  split; [reflexivity|]. split; [reflexivity|]. split; [|split; [|split]].
  - exists (problem_of before (capacity_bound (default_attributes g) (Some 0))).
    split; [vm_compute; reflexivity|].
    split; [vm_compute; tauto|].
    split; [|vm_compute; reflexivity].
    intros Hin. vm_compute in Hin.
    repeat (destruct Hin as [Hin | Hin]; [discriminate|]). exact Hin.
  - reflexivity.
  - apply (overweight_problem before 0 1).
    + intros j [<- | [<- | []]]; vm_compute; discriminate.
    + right. now left.
    + vm_compute. reflexivity.
  - vm_compute. reflexivity.
Qed.
